(** * A lazy-propagation segment tree (range add, range sum)

    Shallow embedding of [src/segment_tree.cc] and a verification of its
    specification against an array mirror.

    Conventions of the embedding.
    - The C++ type [int] is read in two ways.  In the ideal reading, which
      comes first, [int] is [Z] and no operation overflows: this is the
      assumption of the specification (section 7), and the claims that
      carry it, or that speak of structure only, are settled there.  In the
      machine reading (module [Int32], second half of the file) [int] is a
      32-bit two's-complement integer and every operation is followed by
      the reduction [wrap]; the claims that speak of stored values, of
      returned values without the assumption, or of the size [4 * n] are
      settled there.  The machine reading simulates the ideal one
      ([session_Paired]).  Integer division [/] truncates towards zero:
      [Z.quot].
    - [vector<int>] is [list Z]; [operator[]] outside [0, size) has no
      defined behaviour in C++, and is the outcome [OutOfBounds] here.
    - The three recursive routines take a [fuel] bound on the recursion
      depth; the public entry points supply [n] of it, and running out of
      it is the outcome [OutOfFuel].
    - Every subscript of [tree] and [lazy] and every entry into a recursive
      routine is recorded in a ghost trace carried next to the object. *)

From stdpp Require Import base list numbers.
From Stdlib Require Import ZArith Lia.

Local Open Scope Z_scope.

(** ** The object and the execution monad *)

Record SegmentTree : Type := mkSegmentTree {
  tree : list Z;   (* sum of the range of each node *)
  lazy : list Z;   (* pending update value of each node *)
  n : Z            (* size of the original array *)
}.

Definition ROOT_NODE : Z := 1.

Inductive routine : Type := BuildRec | UpdateRec | QueryRec.

Inductive event : Type :=
| Tree (i : Z)                  (* tree[i] read or written *)
| Lazy (i : Z)                  (* lazy[i] read or written *)
| Call (f : routine) (node start end_ : Z).
                                (* a recursive routine entered *)

Inductive outcome (A : Type) : Type :=
| Ok (a : A)
| OutOfBounds (i : Z)
| OutOfFuel.
Arguments Ok {A} a.
Arguments OutOfBounds {A} i.
Arguments OutOfFuel {A}.

(** The object together with the trace, most recent event first. *)
Definition machine : Type := SegmentTree * list event.

Definition M (A : Type) : Type := machine -> outcome (A * machine).

Definition ret {A} (a : A) : M A := fun m => Ok (a, m).

Definition bind {A B} (c : M A) (k : A -> M B) : M B :=
  fun m => match c m with
           | Ok (a, m') => k a m'
           | OutOfBounds i => OutOfBounds i
           | OutOfFuel => OutOfFuel
           end.

Notation "'let*' x ':=' c 'in' k" := (bind c (fun x => k))
  (at level 10, x name, c at level 100, k at level 200).
Notation "c1 ';;;' c2" := (bind c1 (fun _ => c2))
  (at level 100, c2 at level 200, right associativity).

Definition out_of_fuel {A} : M A := fun _ => OutOfFuel.

Definition log (ev : event) : M unit := fun m => Ok (tt, (m.1, ev :: m.2)).

(** ** Vectors *)

Definition vec_get (v : list Z) (i : Z) : option Z :=
  if bool_decide (0 <= i) then v !! Z.to_nat i else None.

Definition vec_set (v : list Z) (i x : Z) : option (list Z) :=
  if bool_decide (0 <= i < Z.of_nat (length v))
  then Some (<[Z.to_nat i := x]> v) else None.

(** [v.resize(k, x)] *)
Definition resize (v : list Z) (k : Z) (x : Z) : list Z :=
  take (Z.to_nat k) v ++ replicate (Z.to_nat k - length v)%nat x.

Definition set_tree (st : SegmentTree) (t : list Z) : SegmentTree :=
  {| tree := t; lazy := lazy st; n := n st |}.
Definition set_lazy (st : SegmentTree) (z : list Z) : SegmentTree :=
  {| tree := tree st; lazy := z; n := n st |}.

Definition tree_get (i : Z) : M Z := fun m =>
  match vec_get (tree m.1) i with
  | Some x => Ok (x, (m.1, Tree i :: m.2))
  | None => OutOfBounds i
  end.

Definition tree_put (i x : Z) : M unit := fun m =>
  match vec_set (tree m.1) i x with
  | Some t => Ok (tt, (set_tree m.1 t, Tree i :: m.2))
  | None => OutOfBounds i
  end.

Definition lazy_get (i : Z) : M Z := fun m =>
  match vec_get (lazy m.1) i with
  | Some x => Ok (x, (m.1, Lazy i :: m.2))
  | None => OutOfBounds i
  end.

Definition lazy_put (i x : Z) : M unit := fun m =>
  match vec_set (lazy m.1) i x with
  | Some z => Ok (tt, (set_lazy m.1 z, Lazy i :: m.2))
  | None => OutOfBounds i
  end.

(** Subscript of the constructor's argument [arr] (not traced). *)
Definition arr_get (arr : list Z) (i : Z) : M Z := fun m =>
  match vec_get arr i with
  | Some x => Ok (x, m)
  | None => OutOfBounds i
  end.

(** ** The private routines *)

(** [int mid = start + (end - start) / 2;] *)
Definition midpoint (start end_ : Z) : Z := start + Z.quot (end_ - start) 2.

Definition push (node start end_ : Z) : M unit :=
  let* d := lazy_get node in
  if bool_decide (d <> 0) then
    (* tree[node] += lazy[node] * (end - start + 1); *)
    (let* d1 := lazy_get node in
     let* t := tree_get node in
     tree_put node (t + d1 * (end_ - start + 1))) ;;;
    (if bool_decide (start <> end_) then
       (* lazy[2 * node] += lazy[node]; *)
       (let* d2 := lazy_get node in
        let* c := lazy_get (2 * node) in
        lazy_put (2 * node) (c + d2)) ;;;
       (* lazy[2 * node + 1] += lazy[node]; *)
       (let* d3 := lazy_get node in
        let* c := lazy_get (2 * node + 1) in
        lazy_put (2 * node + 1) (c + d3))
     else ret tt) ;;;
    lazy_put node 0
  else ret tt.

Fixpoint build_recursive (fuel : nat) (arr : list Z) (node start end_ : Z)
  : M unit :=
  match fuel with
  | O => out_of_fuel
  | S fuel =>
    log (Call BuildRec node start end_) ;;;
    if bool_decide (start = end_) then
      let* x := arr_get arr start in
      tree_put node x
    else
      let mid := midpoint start end_ in
      build_recursive fuel arr (2 * node) start mid ;;;
      build_recursive fuel arr (2 * node + 1) (mid + 1) end_ ;;;
      let* a := tree_get (2 * node) in
      let* b := tree_get (2 * node + 1) in
      tree_put node (a + b)
  end.

Fixpoint update_recursive (fuel : nat) (node start end_ l r val : Z)
  : M unit :=
  match fuel with
  | O => out_of_fuel
  | S fuel =>
    log (Call UpdateRec node start end_) ;;;
    push node start end_ ;;;
    (* Case 1: completely outside the update range *)
    if bool_decide (start > end_ \/ start > r \/ end_ < l) then ret tt
    (* Case 2: completely inside the update range *)
    else if bool_decide (l <= start /\ end_ <= r) then
      (let* t := tree_get node in
       tree_put node (t + val * (end_ - start + 1))) ;;;
      (if bool_decide (start <> end_) then
         (let* c := lazy_get (2 * node) in lazy_put (2 * node) (c + val)) ;;;
         (let* c := lazy_get (2 * node + 1) in
          lazy_put (2 * node + 1) (c + val))
       else ret tt)
    (* Case 3: partial overlap *)
    else
      let mid := midpoint start end_ in
      update_recursive fuel (2 * node) start mid l r val ;;;
      update_recursive fuel (2 * node + 1) (mid + 1) end_ l r val ;;;
      let* a := tree_get (2 * node) in
      let* b := tree_get (2 * node + 1) in
      tree_put node (a + b)
  end.

Fixpoint query_recursive (fuel : nat) (node start end_ l r : Z) : M Z :=
  match fuel with
  | O => out_of_fuel
  | S fuel =>
    log (Call QueryRec node start end_) ;;;
    (* Case 1: completely outside the query range *)
    if bool_decide (start > end_ \/ start > r \/ end_ < l) then ret 0
    else
      push node start end_ ;;;
      (* Case 2: completely inside the query range *)
      if bool_decide (l <= start /\ end_ <= r) then tree_get node
      (* Case 3: partial overlap *)
      else
        let mid := midpoint start end_ in
        let* p1 := query_recursive fuel (2 * node) start mid l r in
        let* p2 := query_recursive fuel (2 * node + 1) (mid + 1) end_ l r in
        ret (p1 + p2)
  end.

(** ** The public interface *)

(** The object before the constructor's body runs: two empty vectors. *)
Definition fresh : machine := ({| tree := []; lazy := []; n := 0 |}, []).

(** The constructor [SegmentTree(const vector<int>& arr)]. *)
Definition construct (arr : list Z) : M unit := fun m =>
  let sz := Z.of_nat (length arr) in
  let st := {| tree := tree m.1; lazy := lazy m.1; n := sz |} in
  if bool_decide (sz = 0) then Ok (tt, (st, m.2))
  else
    let st := set_tree st (resize (tree st) (4 * sz) 0) in
    let st := set_lazy st (resize (lazy st) (4 * sz) 0) in
    build_recursive (Z.to_nat sz) arr ROOT_NODE 0 (sz - 1) (st, m.2).

Definition updateRange (l r val : Z) : M unit := fun m =>
  let sz := n m.1 in
  if bool_decide (sz = 0 \/ l < 0 \/ r >= sz \/ l > r) then Ok (tt, m)
  else update_recursive (Z.to_nat sz) ROOT_NODE 0 (sz - 1) l r val m.

Definition queryRange (l r : Z) : M Z := fun m =>
  let sz := n m.1 in
  if bool_decide (sz = 0 \/ l < 0 \/ r >= sz \/ l > r) then Ok (0, m)
  else query_recursive (Z.to_nat sz) ROOT_NODE 0 (sz - 1) l r m.

(** ** Sessions: a construction followed by calls of the public interface *)

Inductive op : Type :=
| Update (l r val : Z)
| Query (l r : Z).

(** Runs the calls in order and collects what the queries return. *)
Fixpoint run (ops : list op) : M (list Z) :=
  match ops with
  | [] => ret []
  | Update l r val :: ops => updateRange l r val ;;; run ops
  | Query l r :: ops =>
    let* x := queryRange l r in
    let* xs := run ops in
    ret (x :: xs)
  end.

Definition session (arr : list Z) (ops : list op) : outcome (list Z * machine) :=
  (construct arr ;;; run ops) fresh.

Definition answers {A} (o : outcome (A * machine)) : option A :=
  match o with Ok (a, _) => Some a | _ => None end.

(** The assertions of [runSegmentTreeTests]. *)
Example test_case_1 :
  answers (session [1; 2; 3; 4; 5]
    [Query 0 4; Query 1 3; Query 0 0; Query 4 4; Query 2 2])
  = Some [15; 9; 1; 5; 3].
Proof. vm_compute. reflexivity. Qed.

Example test_case_2 :
  answers (session [1; 2; 3; 4; 5]
    [Update 1 3 10; Query 0 4; Query 1 3; Query 0 1; Query 3 4; Query 2 2])
  = Some [45; 39; 13; 19; 13].
Proof. vm_compute. reflexivity. Qed.

Example test_case_3 :
  answers (session [1; 2; 3; 4; 5; 6; 7; 8]
    [Update 0 7 1; Update 2 5 (-2);
     Query 0 7; Query 0 1; Query 2 5; Query 6 7; Query 3 4])
  = Some [36; 5; 14; 17; 7].
Proof. vm_compute. reflexivity. Qed.

Example test_case_4 :
  answers (session [100] [Query 0 0; Update 0 0 50; Query 0 0])
  = Some [100; 150].
Proof. vm_compute. reflexivity. Qed.

Example test_case_5 :
  answers (session [1; 2; 3]
    [Query (-1) 1; Query 2 5; Query 3 4;
     Update (-1) 1 10; Query 0 2; Update 2 5 5; Query 0 2])
  = Some [0; 0; 0; 6; 6].
Proof. vm_compute. reflexivity. Qed.

(** ** The array mirror *)

(** [a[i]] of the mirror, and the sum of [a[s..e]] (empty when [e < s]). *)
Definition idx (a : list Z) (i : Z) : Z := default 0 (vec_get a i).

Fixpoint sum_from (f : Z -> Z) (s : Z) (cnt : nat) : Z :=
  match cnt with
  | O => 0
  | S cnt => f s + sum_from f (s + 1) cnt
  end.

Definition range_sum (f : Z -> Z) (s e : Z) : Z :=
  sum_from f s (Z.to_nat (e - s + 1)).

Definition valid (sz l r : Z) : Prop := 0 <= l /\ l <= r /\ r < sz.

Definition add_on (l r val : Z) (f : Z -> Z) : Z -> Z :=
  fun i => if bool_decide (l <= i <= r) then f i + val else f i.

(** Brute force: add [val] to every index in [[l, r]]; nothing on an
    invalid range. *)
Definition mirror_add (l r val : Z) (a : list Z) : list Z :=
  if bool_decide (valid (Z.of_nat (length a)) l r)
  then imap (fun i x => if bool_decide (l <= Z.of_nat i <= r) then x + val else x) a
  else a.

Definition mirror_sum (l r : Z) (a : list Z) : Z :=
  if bool_decide (valid (Z.of_nat (length a)) l r)
  then range_sum (idx a) l r
  else 0.

(** The mirror after a sequence of calls, and what its queries return. *)
Fixpoint mirror_after (a : list Z) (ops : list op) : list Z :=
  match ops with
  | [] => a
  | Update l r val :: ops => mirror_after (mirror_add l r val a) ops
  | Query _ _ :: ops => mirror_after a ops
  end.

Fixpoint mirror_run (a : list Z) (ops : list op) : list Z :=
  match ops with
  | [] => []
  | Update l r val :: ops => mirror_run (mirror_add l r val a) ops
  | Query l r :: ops => mirror_sum l r a :: mirror_run a ops
  end.

Example test_case_3_mirror :
  mirror_after [1; 2; 3; 4; 5; 6; 7; 8] [Update 0 7 1; Update 2 5 (-2)]
  = [2; 3; 2; 3; 4; 5; 8; 9].
Proof. vm_compute. reflexivity. Qed.

(** ** The vocabulary of the claims *)

(** [tree[p]] and [lazy[p]] of an object (0 outside the vectors). *)
Definition T (st : SegmentTree) (p : Z) : Z := idx (tree st) p.
Definition L (st : SegmentTree) (p : Z) : Z := idx (lazy st) p.

Definition sized (cap : Z) (st : SegmentTree) : Prop :=
  Z.of_nat (length (tree st)) = cap /\ Z.of_nat (length (lazy st)) = cap.

(** A machine is reachable when a session ends in it. *)
Definition reachable (m : machine) : Prop :=
  exists arr ops res, session arr ops = Ok (res, m).

(** What [queryRange l r] returns after the construction from [arr] and
    the calls [ops]. *)
Definition query_after (arr : list Z) (ops : list op) (l r : Z) : option Z :=
  answers ((construct arr ;;; run ops ;;; queryRange l r) fresh).

(** [node_at st node s e k]: the traversal from the root reaches position
    [node] with the range [[s, e]], and [k] is the sum of the pending deltas
    stored at the proper ancestors of [node]. *)
Inductive node_at (st : SegmentTree) : Z -> Z -> Z -> Z -> Prop :=
| node_root :
    1 <= n st -> node_at st ROOT_NODE 0 (n st - 1) 0
| node_left node s e k :
    node_at st node s e k -> s < e ->
    node_at st (2 * node) s (midpoint s e) (k + L st node)
| node_right node s e k :
    node_at st node s e k -> s < e ->
    node_at st (2 * node + 1) (midpoint s e + 1) e (k + L st node).


(** What a trace may contain. *)
Definition subscript_within (lo hi : Z) (ev : event) : Prop :=
  match ev with
  | Tree i | Lazy i => lo <= i < hi
  | Call _ _ _ _ => True
  end.

Definition call_ordered (ev : event) : Prop :=
  match ev with
  | Call _ _ start end_ => start <= end_
  | _ => True
  end.

(** A computation halts when it never runs out of fuel. *)
Definition halts {A} (c : M A) : Prop := forall m, c m <> OutOfFuel.

(** The state in which the first scenario of the specification begins. *)
Definition scenario_state : machine :=
  match session [1; 2; 3; 4; 5] [] with
  | Ok (_, m) => m
  | _ => fresh
  end.

(** The state after [updateRange 0 1 5] on the tree of [[1; 2]]: the leaf
    at position 2 covers index 0, whose value is now 6; its aggregate is
    still 1 and its own pending delta is 5, the root holding none. *)
Definition pending_leaf_state : machine :=
  match session [1; 2] [Update 0 1 5] with
  | Ok (_, m) => m
  | _ => fresh
  end.

(** * Proofs *)

(** ** Arithmetic of ranges *)

Lemma midpoint_bounds s e : s < e -> s <= midpoint s e < e.
Proof.
  intros H. unfold midpoint.
  rewrite Z.quot_div_nonneg by lia.
  pose proof (Z.div_mod (e - s) 2 ltac:(lia)).
  pose proof (Z.mod_pos_bound (e - s) 2 ltac:(lia)). lia.
Qed.

Lemma midpoint_halves s e :
  s <= e -> 2 * (midpoint s e - s) <= e - s <= 2 * (midpoint s e - s) + 1.
Proof.
  intros H. unfold midpoint.
  rewrite Z.quot_div_nonneg by lia.
  pose proof (Z.div_mod (e - s) 2 ltac:(lia)).
  pose proof (Z.mod_pos_bound (e - s) 2 ltac:(lia)). lia.
Qed.

Lemma sum_from_ext f g s cnt :
  (forall i, s <= i < s + Z.of_nat cnt -> f i = g i) ->
  sum_from f s cnt = sum_from g s cnt.
Proof.
  revert s. induction cnt as [|cnt IH]; intros s H; simpl; [reflexivity|].
  rewrite (H s) by lia. rewrite (IH (s + 1)); [reflexivity|].
  intros i Hi. apply H. lia.
Qed.

Lemma sum_from_app f s c1 c2 :
  sum_from f s (c1 + c2) = sum_from f s c1 + sum_from f (s + Z.of_nat c1) c2.
Proof.
  revert s. induction c1 as [|c1 IH]; intros s; simpl sum_from.
  - replace (s + Z.of_nat 0) with s by lia. lia.
  - rewrite IH. replace (s + 1 + Z.of_nat c1) with (s + Z.of_nat (S c1)) by lia.
    lia.
Qed.

Lemma sum_from_add f s cnt v :
  sum_from (fun i => f i + v) s cnt = sum_from f s cnt + v * Z.of_nat cnt.
Proof.
  revert s. induction cnt as [|cnt IH]; intros s; simpl sum_from; [lia|].
  rewrite IH. lia.
Qed.

Lemma range_sum_empty f s e : e < s -> range_sum f s e = 0.
Proof.
  intros H. unfold range_sum. replace (Z.to_nat (e - s + 1)) with O by lia.
  reflexivity.
Qed.

Lemma range_sum_single f s : range_sum f s s = f s.
Proof.
  unfold range_sum. replace (Z.to_nat (s - s + 1)) with 1%nat by lia.
  simpl. lia.
Qed.

Lemma range_sum_split f s m e :
  s - 1 <= m <= e ->
  range_sum f s e = range_sum f s m + range_sum f (m + 1) e.
Proof.
  intros H. unfold range_sum.
  replace (Z.to_nat (e - s + 1))
    with (Z.to_nat (m - s + 1) + Z.to_nat (e - (m + 1) + 1))%nat by lia.
  rewrite sum_from_app. do 2 f_equal. lia.
Qed.

Lemma range_sum_ext f g s e :
  (forall i, s <= i <= e -> f i = g i) -> range_sum f s e = range_sum g s e.
Proof.
  intros H. unfold range_sum. apply sum_from_ext. intros i Hi. apply H. lia.
Qed.

Lemma range_sum_add f s e v :
  s <= e + 1 ->
  range_sum (fun i => f i + v) s e = range_sum f s e + v * (e - s + 1).
Proof.
  intros H. unfold range_sum. rewrite sum_from_add.
  rewrite Z2Nat.id by lia. reflexivity.
Qed.

(** The part of [[s, e]] inside [[l, r]], split at the midpoint. *)
Lemma range_sum_clip f s e l r :
  s < e ->
  range_sum f (Z.max s l) (Z.min e r)
  = range_sum f (Z.max s l) (Z.min (midpoint s e) r)
    + range_sum f (Z.max (midpoint s e + 1) l) (Z.min e r).
Proof.
  intros H. pose proof (midpoint_bounds s e H) as Hm.
  set (m := midpoint s e) in *.
  destruct (Z_lt_le_dec r (m + 1)) as [Hr|Hr].
  - rewrite (range_sum_empty f (Z.max (m + 1) l)) by lia.
    replace (Z.min m r) with (Z.min e r) by lia. lia.
  - destruct (Z_lt_le_dec m l) as [Hl|Hl].
    + rewrite (range_sum_empty f (Z.max s l) (Z.min m r)) by lia.
      replace (Z.max (m + 1) l) with (Z.max s l) by lia. lia.
    + rewrite (range_sum_split f (Z.max s l) m (Z.min e r)) by lia.
      replace (Z.min m r) with m by lia.
      replace (Z.max (m + 1) l) with (m + 1) by lia. reflexivity.
Qed.

(** ** Node positions

    [desc node p]: position [p] lies in the subtree rooted at [node]
    (children of [p] are [2 * p] and [2 * p + 1]). *)

Inductive desc (node : Z) : Z -> Prop :=
| desc_self : desc node node
| desc_child p c : desc node p -> c = 2 * p \/ c = 2 * p + 1 -> desc node c.

Lemma desc_ge node p : 1 <= node -> desc node p -> node <= p.
Proof. intros Hn H. induction H; lia. Qed.

Lemma desc_left node p : desc (2 * node) p -> desc node p.
Proof.
  induction 1 as [|p c _ IH Hc].
  - eapply desc_child; [apply desc_self | lia].
  - eapply desc_child; eauto.
Qed.

Lemma desc_right node p : desc (2 * node + 1) p -> desc node p.
Proof.
  induction 1 as [|p c _ IH Hc].
  - eapply desc_child; [apply desc_self | lia].
  - eapply desc_child; eauto.
Qed.

(** The subtree of [node] at relative depth [k] occupies a block of
    [2 ^ k] consecutive positions. *)
Lemma desc_span node p :
  desc node p ->
  exists k : nat, node * 2 ^ Z.of_nat k <= p < (node + 1) * 2 ^ Z.of_nat k.
Proof.
  induction 1 as [|p c _ [k IH] Hc].
  - exists O. simpl. lia.
  - exists (S k). rewrite Nat2Z.inj_succ, Z.pow_succ_r by lia. nia.
Qed.

Lemma desc_siblings node p :
  1 <= node -> desc (2 * node) p -> desc (2 * node + 1) p -> False.
Proof.
  intros Hn [k1 H1]%desc_span [k2 H2]%desc_span.
  replace (2 * node + 1 + 1) with (2 * node + 2) in * by lia.
  destruct (Nat.le_gt_cases k1 k2) as [Hk|Hk].
  - assert (2 ^ Z.of_nat k1 <= 2 ^ Z.of_nat k2)
      by (apply Z.pow_le_mono_r; lia).
    nia.
  - replace (Z.of_nat k1) with (Z.of_nat (k1 - k2) + Z.of_nat k2) in H1 by lia.
    rewrite Z.pow_add_r in H1 by lia.
    assert (2 ^ 1 <= 2 ^ Z.of_nat (k1 - k2))
      by (apply Z.pow_le_mono_r; lia).
    assert (0 < 2 ^ Z.of_nat k2) by (apply Z.pow_pos_nonneg; lia).
    change (2 ^ 1) with 2 in *. nia.
Qed.

(** [Shape cap node s e]: the nodes that a traversal of [[s, e]] from
    [node] visits all have positions in [[1, cap)], and [s <= e] holds at
    each of them. *)
Inductive Shape (cap : Z) : Z -> Z -> Z -> Prop :=
| Shape_leaf node s :
    1 <= node < cap -> Shape cap node s s
| Shape_node node s e :
    s < e -> 1 <= node < cap ->
    Shape cap (2 * node) s (midpoint s e) ->
    Shape cap (2 * node + 1) (midpoint s e + 1) e ->
    Shape cap node s e.

Lemma Shape_le cap node s e : Shape cap node s e -> s <= e.
Proof. destruct 1; lia. Qed.

Lemma Shape_node_bound cap node s e : Shape cap node s e -> 1 <= node < cap.
Proof. destruct 1; lia. Qed.

Lemma Shape_children cap node s e :
  Shape cap node s e -> s <> e ->
  s < e /\ Shape cap (2 * node) s (midpoint s e) /\
  Shape cap (2 * node + 1) (midpoint s e + 1) e.
Proof. destruct 1; intros; [lia | auto]. Qed.

(** The traversal of [[s, e]] from a node at depth [d], where [w = 2 ^ d],
    stays below [4 * sz] as long as [(e - s) * w < sz]. *)
Lemma Shape_intro sz (fuel : nat) : forall node s e w,
  e - s < Z.of_nat fuel -> s <= e ->
  1 <= w -> w <= node < 2 * w -> w < 2 * sz -> (e - s) * w < sz ->
  Shape (4 * sz) node s e.
Proof.
  induction fuel as [|fuel IH]; intros node s e w Hf Hse Hw Hn Hw2 Hsz; [lia|].
  destruct (decide (s = e)) as [->|Hne].
  - apply Shape_leaf. lia.
  - assert (s < e) as Hlt by lia.
    pose proof (midpoint_bounds s e Hlt) as Hm.
    pose proof (midpoint_halves s e Hse) as Hh.
    apply Shape_node; [lia | lia | |].
    + apply (IH _ _ _ (2 * w)); try lia; nia.
    + apply (IH _ _ _ (2 * w)); try lia; nia.
Qed.

Lemma Shape_root sz : 1 <= sz -> Shape (4 * sz) ROOT_NODE 0 (sz - 1).
Proof.
  intros H. apply (Shape_intro sz (Z.to_nat sz) _ _ _ 1); unfold ROOT_NODE; lia.
Qed.

(** ** Writes to the object *)

Definition tree_upd (st : SegmentTree) (i x : Z) : SegmentTree :=
  set_tree st (<[Z.to_nat i := x]> (tree st)).
Definition lazy_upd (st : SegmentTree) (i x : Z) : SegmentTree :=
  set_lazy st (<[Z.to_nat i := x]> (lazy st)).

(** What a trace contains on a tree whose vectors have size [cap]. *)
Definition ev_ok (cap : Z) (ev : event) : Prop :=
  subscript_within 1 cap ev /\ call_ordered ev.

Lemma vec_get_idx (v : list Z) i :
  0 <= i < Z.of_nat (length v) -> vec_get v i = Some (idx v i).
Proof.
  intros H. unfold idx, vec_get. rewrite bool_decide_eq_true_2 by lia.
  destruct (v !! Z.to_nat i) eqn:E; [reflexivity|].
  apply lookup_ge_None in E. lia.
Qed.

Lemma idx_insert (v : list Z) i x q :
  0 <= i < Z.of_nat (length v) ->
  idx (<[Z.to_nat i := x]> v) q = if decide (q = i) then x else idx v q.
Proof.
  intros H. unfold idx, vec_get. case_decide as Hq.
  - subst q. rewrite bool_decide_eq_true_2 by lia.
    rewrite list_lookup_insert_eq by lia. reflexivity.
  - case_bool_decide; [|reflexivity].
    rewrite list_lookup_insert_ne by lia. reflexivity.
Qed.

Lemma sized_tree_upd cap st i x : sized cap st -> sized cap (tree_upd st i x).
Proof. intros [H1 H2]. split; simpl; [rewrite length_insert|]; assumption. Qed.

Lemma sized_lazy_upd cap st i x : sized cap st -> sized cap (lazy_upd st i x).
Proof. intros [H1 H2]. split; simpl; [|rewrite length_insert]; assumption. Qed.

Lemma T_tree_upd cap st i x q :
  sized cap st -> 0 <= i < cap ->
  T (tree_upd st i x) q = if decide (q = i) then x else T st q.
Proof. intros [H1 H2] Hi. unfold T. simpl. apply idx_insert. lia. Qed.

Lemma L_lazy_upd cap st i x q :
  sized cap st -> 0 <= i < cap ->
  L (lazy_upd st i x) q = if decide (q = i) then x else L st q.
Proof. intros [H1 H2] Hi. unfold L. simpl. apply idx_insert. lia. Qed.

Lemma T_lazy_upd st i x q : T (lazy_upd st i x) q = T st q.
Proof. reflexivity. Qed.

Lemma L_tree_upd st i x q : L (tree_upd st i x) q = L st q.
Proof. reflexivity. Qed.

Create HintDb seg discriminated.
#[local] Hint Resolve sized_tree_upd sized_lazy_upd : seg.

(** ** Running the monad *)

Lemma bind_assoc {A B C} (c : M A) (k1 : A -> M B) (k2 : B -> M C) m :
  bind (bind c k1) k2 m = bind c (fun a => bind (k1 a) k2) m.
Proof. unfold bind. destruct (c m) as [[a m']| |]; reflexivity. Qed.

Lemma bind_ret {A B} (a : A) (k : A -> M B) m : bind (ret a) k m = k a m.
Proof. reflexivity. Qed.

Lemma bind_Ok {A B} (c : M A) (k : A -> M B) m a m' :
  c m = Ok (a, m') -> bind c k m = k a m'.
Proof. intros H. unfold bind. rewrite H. reflexivity. Qed.

Lemma bind_log {B} ev (k : unit -> M B) st tr :
  bind (log ev) k (st, tr) = k tt (st, ev :: tr).
Proof. reflexivity. Qed.

Lemma tree_get_Ok cap st tr i :
  sized cap st -> 0 <= i < cap ->
  tree_get i (st, tr) = Ok (T st i, (st, Tree i :: tr)).
Proof.
  intros [H1 H2] Hi. unfold tree_get. simpl.
  rewrite vec_get_idx by lia. reflexivity.
Qed.

Lemma lazy_get_Ok cap st tr i :
  sized cap st -> 0 <= i < cap ->
  lazy_get i (st, tr) = Ok (L st i, (st, Lazy i :: tr)).
Proof.
  intros [H1 H2] Hi. unfold lazy_get. simpl.
  rewrite vec_get_idx by lia. reflexivity.
Qed.

Lemma tree_put_Ok cap st tr i x :
  sized cap st -> 0 <= i < cap ->
  tree_put i x (st, tr) = Ok (tt, (tree_upd st i x, Tree i :: tr)).
Proof.
  intros [H1 H2] Hi. unfold tree_put, vec_set. simpl.
  rewrite bool_decide_eq_true_2 by lia. reflexivity.
Qed.

Lemma lazy_put_Ok cap st tr i x :
  sized cap st -> 0 <= i < cap ->
  lazy_put i x (st, tr) = Ok (tt, (lazy_upd st i x, Lazy i :: tr)).
Proof.
  intros [H1 H2] Hi. unfold lazy_put, vec_set. simpl.
  rewrite bool_decide_eq_true_2 by lia. reflexivity.
Qed.

Lemma bind_tree_get {B} cap st tr i (k : Z -> M B) :
  sized cap st -> 0 <= i < cap ->
  bind (tree_get i) k (st, tr) = k (T st i) (st, Tree i :: tr).
Proof. intros. erewrite bind_Ok; [reflexivity | eapply tree_get_Ok; eauto]. Qed.

Lemma bind_lazy_get {B} cap st tr i (k : Z -> M B) :
  sized cap st -> 0 <= i < cap ->
  bind (lazy_get i) k (st, tr) = k (L st i) (st, Lazy i :: tr).
Proof. intros. erewrite bind_Ok; [reflexivity | eapply lazy_get_Ok; eauto]. Qed.

Lemma bind_tree_put {B} cap st tr i x (k : unit -> M B) :
  sized cap st -> 0 <= i < cap ->
  bind (tree_put i x) k (st, tr) = k tt (tree_upd st i x, Tree i :: tr).
Proof. intros. erewrite bind_Ok; [reflexivity | eapply tree_put_Ok; eauto]. Qed.

Lemma bind_lazy_put {B} cap st tr i x (k : unit -> M B) :
  sized cap st -> 0 <= i < cap ->
  bind (lazy_put i x) k (st, tr) = k tt (lazy_upd st i x, Lazy i :: tr).
Proof. intros. erewrite bind_Ok; [reflexivity | eapply lazy_put_Ok; eauto]. Qed.

(** One step of a run whose next action is a subscript inside [[0, cap)]. *)
Ltac run_step cap :=
  first
    [ rewrite bind_assoc
    | rewrite bind_ret
    | rewrite bind_log
    | rewrite (bind_tree_get cap) by (eauto 10 with seg || lia)
    | rewrite (bind_lazy_get cap) by (eauto 10 with seg || lia)
    | rewrite (bind_tree_put cap) by (eauto 10 with seg || lia)
    | rewrite (bind_lazy_put cap) by (eauto 10 with seg || lia)
    | rewrite (tree_get_Ok cap) by (eauto 10 with seg || lia)
    | rewrite (tree_put_Ok cap) by (eauto 10 with seg || lia)
    | rewrite (lazy_put_Ok cap) by (eauto 10 with seg || lia) ];
  cbv beta.

(** Reads of an object after a chain of in-range writes. *)
Ltac read_back cap :=
  repeat first
    [ rewrite T_lazy_upd
    | rewrite L_tree_upd
    | rewrite (T_tree_upd cap) by (eauto 10 with seg || lia)
    | rewrite (L_lazy_upd cap) by (eauto 10 with seg || lia) ].

(** ** Push-down *)

Lemma push_ok cap st tr node s e :
  sized cap st -> 1 <= node < cap -> (s <> e -> 2 * node + 1 < cap) ->
  exists st' tr',
    push node s e (st, tr) = Ok (tt, (st', tr')) /\
    sized cap st' /\ n st' = n st /\
    (forall q, T st' q =
       if decide (q = node) then T st node + L st node * (e - s + 1)
       else T st q) /\
    (forall q, L st' q =
       if decide (q = node) then 0
       else if decide (s <> e /\ (q = 2 * node \/ q = 2 * node + 1))
            then L st q + L st node
            else L st q) /\
    (Forall (ev_ok cap) tr -> Forall (ev_ok cap) tr').
Proof.
  intros Hsz Hn Hc. unfold push.
  run_step cap. case_bool_decide as Hd.
  - repeat run_step cap. case_bool_decide as Hse.
    + specialize (Hc Hse). repeat run_step cap.
      eexists _, _. split; [reflexivity|].
      split; [eauto 10 with seg|]. split; [reflexivity|].
      split; [|split].
      * intros q. read_back cap. reflexivity.
      * intros q. read_back cap. repeat case_decide; subst; lia.
      * intros Htr. repeat (constructor; [unfold ev_ok; simpl; lia|]). assumption.
    + repeat run_step cap.
      eexists _, _. split; [reflexivity|].
      split; [eauto 10 with seg|]. split; [reflexivity|].
      split; [|split].
      * intros q. read_back cap. reflexivity.
      * intros q. read_back cap. repeat case_decide; subst; lia.
      * intros Htr. repeat (constructor; [unfold ev_ok; simpl; lia|]). assumption.
  - eexists _, _. split; [reflexivity|].
    split; [assumption|]. split; [reflexivity|].
    split; [|split].
    + intros q. case_decide; [subst; lia | reflexivity].
    + intros q. repeat case_decide; subst; lia.
    + intros Htr. constructor; [unfold ev_ok; simpl; lia | assumption].
Qed.

(** ** The representation invariant

    [Rep st a node s e k]: the subtree of [node] over [[s, e]] represents
    the array [a], where [k] is the sum of the pending deltas stored at
    [node] and at its proper ancestors.  A node's aggregate lacks exactly
    those deltas. *)

Inductive Rep (st : SegmentTree) (a : Z -> Z) : Z -> Z -> Z -> Z -> Prop :=
| Rep_leaf node s k :
    T st node + k = a s -> Rep st a node s s k
| Rep_node node s e k :
    s < e ->
    T st node + k * (e - s + 1) = range_sum a s e ->
    Rep st a (2 * node) s (midpoint s e) (k + L st (2 * node)) ->
    Rep st a (2 * node + 1) (midpoint s e + 1) e (k + L st (2 * node + 1)) ->
    Rep st a node s e k.

Lemma Rep_sum st a node s e k :
  Rep st a node s e k -> T st node + k * (e - s + 1) = range_sum a s e.
Proof.
  destruct 1 as [node s k H|]; [|assumption].
  rewrite range_sum_single. replace (s - s + 1) with 1 by lia. lia.
Qed.

Lemma Rep_k st a node s e k k' :
  Rep st a node s e k -> k = k' -> Rep st a node s e k'.
Proof. intros H <-. exact H. Qed.

(** [Rep] at [node] reads [tree] inside the subtree of [node], [lazy]
    strictly inside it, and [a] on [[s, e]]. *)
Lemma Rep_transfer st st' a a' node s e k :
  Rep st a node s e k -> 1 <= node ->
  (forall p, desc node p -> T st' p = T st p) ->
  (forall p, desc node p -> p <> node -> L st' p = L st p) ->
  (forall i, s <= i <= e -> a' i = a i) ->
  Rep st' a' node s e k.
Proof.
  induction 1 as [node s k H | node s e k Hlt Hsum Hl IHl Hr IHr];
    intros Hn HT HL Ha.
  - apply Rep_leaf. rewrite HT by apply desc_self. rewrite Ha by lia. exact H.
  - pose proof (midpoint_bounds s e Hlt) as Hm.
    assert (desc node (2 * node)) as Dl
      by (eapply desc_child; [apply desc_self | lia]).
    assert (desc node (2 * node + 1)) as Dr
      by (eapply desc_child; [apply desc_self | lia]).
    apply Rep_node; [assumption | | |].
    + rewrite HT by apply desc_self. rewrite Hsum.
      apply range_sum_ext. intros i Hi. symmetry. apply Ha. lia.
    + rewrite HL by (assumption || lia). apply IHl; [lia | | |].
      * intros p Hp. apply HT, desc_left, Hp.
      * intros p Hp Hne. apply HL; [apply desc_left, Hp|].
        apply desc_ge in Hp; lia.
      * intros i Hi. apply Ha. lia.
    + rewrite HL by (assumption || lia). apply IHr; [lia | | |].
      * intros p Hp. apply HT, desc_right, Hp.
      * intros p Hp Hne. apply HL; [apply desc_right, Hp|].
        apply desc_ge in Hp; lia.
      * intros i Hi. apply Ha. lia.
Qed.

(** Adding [v] to the whole range is adding [v] to the pending delta. *)
Lemma Rep_add st a node s e k v :
  Rep st a node s e k -> Rep st (fun i => a i + v) node s e (k + v).
Proof.
  induction 1 as [node s k H | node s e k Hlt Hsum Hl IHl Hr IHr].
  - apply Rep_leaf. lia.
  - apply Rep_node; [assumption | | |].
    + rewrite range_sum_add by lia. lia.
    + eapply Rep_k; [exact IHl | lia].
    + eapply Rep_k; [exact IHr | lia].
Qed.

(** Case analysis on a [decide] of the conclusion. *)
Ltac goal_decide H :=
  let H' := fresh H in
  match goal with |- context [decide ?P] => destruct (decide P) as [H'|H'] end.

(** Push-down leaves the represented array as it is and clears the
    node's own share of [k]. *)
Lemma push_Rep st st' a node s e acc :
  1 <= node ->
  (forall q, T st' q =
     if decide (q = node) then T st node + L st node * (e - s + 1)
     else T st q) ->
  (forall q, L st' q =
     if decide (q = node) then 0
     else if decide (s <> e /\ (q = 2 * node \/ q = 2 * node + 1))
          then L st q + L st node
          else L st q) ->
  Rep st a node s e (acc + L st node) ->
  Rep st' a node s e acc.
Proof.
  intros Hn HT HL H.
  assert (forall c p, c = 2 * node \/ c = 2 * node + 1 -> desc c p ->
                      T st' p = T st p) as HTc.
  { intros c p Hc Hp. rewrite HT. apply desc_ge in Hp; [|lia].
    goal_decide Hd; [lia | reflexivity]. }
  assert (forall c p, c = 2 * node \/ c = 2 * node + 1 -> desc c p ->
                      p <> c -> L st' p = L st p) as HLc.
  { intros c p Hc Hp Hne. rewrite HL.
    pose proof (desc_ge c p ltac:(lia) Hp).
    goal_decide Hd; [lia|]. goal_decide Hq; [|reflexivity].
    exfalso. destruct Hc as [-> | ->], Hq as [_ [Hq | Hq]]; subst p; try lia.
    eapply (desc_siblings node); [exact Hn | exact Hp | apply desc_self]. }
  inversion H as [node' s' k' Hleaf | node' s' e' k' Hlt Hsum Hl Hr]; subst.
  - apply Rep_leaf. rewrite HT. goal_decide Hd; [|lia]. lia.
  - apply Rep_node; [assumption | | |].
    + rewrite HT. goal_decide Hd; [|lia]. lia.
    + eapply Rep_k.
      * eapply Rep_transfer; [exact Hl | lia | | | reflexivity].
        -- intros p Hp. eapply HTc; [left; reflexivity | exact Hp].
        -- intros p Hp Hne. eapply HLc; [left; reflexivity | exact Hp | exact Hne].
      * rewrite HL. goal_decide Hd; [lia|]. goal_decide Hq; [lia|].
        exfalso. apply Hq. split; [lia | left; reflexivity].
    + eapply Rep_k.
      * eapply Rep_transfer; [exact Hr | lia | | | reflexivity].
        -- intros p Hp. eapply HTc; [right; reflexivity | exact Hp].
        -- intros p Hp Hne. eapply HLc; [right; reflexivity | exact Hp | exact Hne].
      * rewrite HL. goal_decide Hd; [lia|]. goal_decide Hq; [lia|].
        exfalso. apply Hq. split; [lia | right; reflexivity].
Qed.

Lemma add_on_inside l r val a i : l <= i <= r -> add_on l r val a i = a i + val.
Proof. intros H. unfold add_on. rewrite bool_decide_eq_true_2; [reflexivity | lia]. Qed.

Lemma add_on_outside l r val a i : i < l \/ r < i -> add_on l r val a i = a i.
Proof. intros H. unfold add_on. rewrite bool_decide_eq_false_2; [reflexivity | lia]. Qed.

(** Case 2 of the update: the delta goes to the node's aggregate and to
    the children's pending slots. *)
Lemma cover_Rep st st' a node s e acc l r val :
  1 <= node -> l <= s -> e <= r ->
  (forall q, T st' q =
     if decide (q = node) then T st node + val * (e - s + 1) else T st q) ->
  (forall q, L st' q =
     if decide (s <> e /\ (q = 2 * node \/ q = 2 * node + 1))
     then L st q + val else L st q) ->
  Rep st a node s e acc ->
  Rep st' (add_on l r val a) node s e acc.
Proof.
  intros Hn Hl Hr HT HL H.
  assert (forall c p, c = 2 * node \/ c = 2 * node + 1 -> desc c p ->
                      T st' p = T st p) as HTc.
  { intros c p Hc Hp. rewrite HT. apply desc_ge in Hp; [|lia].
    goal_decide Hd; [lia | reflexivity]. }
  assert (forall c p, c = 2 * node \/ c = 2 * node + 1 -> desc c p ->
                      p <> c -> L st' p = L st p) as HLc.
  { intros c p Hc Hp Hne. rewrite HL.
    pose proof (desc_ge c p ltac:(lia) Hp).
    goal_decide Hq; [|reflexivity].
    exfalso. destruct Hc as [-> | ->], Hq as [_ [Hq | Hq]]; subst p; try lia.
    eapply (desc_siblings node); [exact Hn | exact Hp | apply desc_self]. }
  inversion H as [node' s' k' Hleaf | node' s' e' k' Hlt Hsum Hcl Hcr]; subst.
  - apply Rep_leaf. rewrite HT, add_on_inside by lia.
    goal_decide Hd; [|lia]. lia.
  - pose proof (midpoint_bounds s e Hlt) as Hm.
    apply Rep_node; [assumption | | |].
    + rewrite HT. goal_decide Hd; [|lia].
      rewrite (range_sum_ext _ (fun i => a i + val))
        by (intros i Hi; apply add_on_inside; lia).
      rewrite range_sum_add by lia. lia.
    + eapply Rep_k.
      * eapply Rep_transfer; [exact (Rep_add _ _ _ _ _ _ val Hcl) | lia | | |].
        -- intros p Hp. eapply HTc; [left; reflexivity | exact Hp].
        -- intros p Hp Hne. eapply HLc; [left; reflexivity | exact Hp | exact Hne].
        -- intros i Hi. apply add_on_inside. lia.
      * rewrite HL. goal_decide Hq; [lia|].
        exfalso. apply Hq. split; [lia | left; reflexivity].
    + eapply Rep_k.
      * eapply Rep_transfer; [exact (Rep_add _ _ _ _ _ _ val Hcr) | lia | | |].
        -- intros p Hp. eapply HTc; [right; reflexivity | exact Hp].
        -- intros p Hp Hne. eapply HLc; [right; reflexivity | exact Hp | exact Hne].
        -- intros i Hi. apply add_on_inside. lia.
      * rewrite HL. goal_decide Hq; [lia|].
        exfalso. apply Hq. split; [lia | right; reflexivity].
Qed.

(** Case 3 of the update and the internal case of the build: the node's
    aggregate is recomputed from two children that hold no pending delta. *)
Lemma combine_Rep st st' a node s e acc :
  1 <= node -> s < e ->
  T st' node = T st (2 * node) + T st (2 * node + 1) ->
  (forall p, p <> node -> T st' p = T st p) ->
  (forall p, L st' p = L st p) ->
  L st (2 * node) = 0 -> L st (2 * node + 1) = 0 ->
  Rep st a (2 * node) s (midpoint s e) acc ->
  Rep st a (2 * node + 1) (midpoint s e + 1) e acc ->
  Rep st' a node s e acc.
Proof.
  intros Hn Hlt HT HTo HL Hzl Hzr Hl Hr.
  pose proof (midpoint_bounds s e Hlt) as Hm.
  apply Rep_node; [assumption | | |].
  - rewrite HT. apply Rep_sum in Hl, Hr.
    rewrite (range_sum_split a s (midpoint s e) e) by lia. lia.
  - eapply Rep_k.
    + eapply Rep_transfer; [exact Hl | lia | | | reflexivity].
      * intros p Hp. apply HTo. apply desc_ge in Hp; lia.
      * intros p _ _. apply HL.
    + rewrite HL, Hzl. lia.
  - eapply Rep_k.
    + eapply Rep_transfer; [exact Hr | lia | | | reflexivity].
      * intros p Hp. apply HTo. apply desc_ge in Hp; lia.
      * intros p _ _. apply HL.
    + rewrite HL, Hzr. lia.
Qed.

Lemma outside_child node c p :
  c = 2 * node \/ c = 2 * node + 1 -> ~ desc node p -> ~ desc c p.
Proof.
  intros [-> | ->] H Hp; apply H; [apply desc_left | apply desc_right]; exact Hp.
Qed.

Lemma outside_self node p : ~ desc node p -> p <> node.
Proof. intros H ->. apply H, desc_self. Qed.

Lemma left_not_right node p : 1 <= node -> desc (2 * node) p -> ~ desc (2 * node + 1) p.
Proof. intros Hn H1 H2. exact (desc_siblings node p Hn H1 H2). Qed.

Lemma right_not_left node p : 1 <= node -> desc (2 * node + 1) p -> ~ desc (2 * node) p.
Proof. intros Hn H1 H2. exact (desc_siblings node p Hn H2 H1). Qed.

Lemma parent_not_child node c :
  1 <= node -> c = 2 * node \/ c = 2 * node + 1 -> ~ desc c node.
Proof. intros Hn Hc H. apply desc_ge in H; lia. Qed.

(** ** The update recursion *)

Lemma update_recursive_ok cap l r val a (fuel : nat) :
  forall node s e st tr acc,
  e - s < Z.of_nat fuel -> Shape cap node s e -> sized cap st ->
  Rep st a node s e (acc + L st node) ->
  exists st' tr',
    update_recursive fuel node s e l r val (st, tr) = Ok (tt, (st', tr')) /\
    sized cap st' /\ n st' = n st /\
    Rep st' (add_on l r val a) node s e acc /\ L st' node = 0 /\
    (forall p, ~ desc node p -> T st' p = T st p /\ L st' p = L st p) /\
    (Forall (ev_ok cap) tr -> Forall (ev_ok cap) tr').
Proof.
  induction fuel as [|fuel IH]; intros node s e st tr acc Hf Hsh Hsz HR.
  { apply Shape_le in Hsh. lia. }
  pose proof (Shape_le _ _ _ _ Hsh) as Hse.
  pose proof (Shape_node_bound _ _ _ _ Hsh) as Hnode.
  assert (s <> e -> 2 * node + 1 < cap) as Hkids.
  { intros Hne. apply Shape_children in Hsh as (_ & _ & Hc); [|exact Hne].
    apply Shape_node_bound in Hc. lia. }
  simpl update_recursive. rewrite bind_log.
  destruct (push_ok cap st (Call UpdateRec node s e :: tr) node s e Hsz Hnode Hkids)
    as (st1 & tr1 & Hpush & Hsz1 & Hn1 & HT1 & HL1 & Htr1).
  rewrite (bind_Ok _ _ _ _ _ Hpush).
  pose proof (push_Rep st st1 a node s e acc ltac:(lia) HT1 HL1 HR) as HR1.
  assert (L st1 node = 0) as Hz1.
  { rewrite HL1. goal_decide Hd; [reflexivity | lia]. }
  assert (forall p, ~ desc node p -> T st1 p = T st p /\ L st1 p = L st p)
    as Hfr1.
  { intros p Hp. pose proof (outside_self _ _ Hp).
    pose proof (outside_self _ _ (outside_child node (2 * node) p ltac:(lia) Hp)).
    pose proof (outside_self _ _ (outside_child node (2 * node + 1) p ltac:(lia) Hp)).
    rewrite HT1, HL1. repeat goal_decide Hd; (lia || (split; reflexivity)). }
  assert (Forall (ev_ok cap) tr -> Forall (ev_ok cap) tr1) as Htr1'.
  { intros Htr. apply Htr1. constructor; [unfold ev_ok; simpl; lia | exact Htr]. }
  clear Hpush Htr1 HR.
  case_bool_decide as Hdis.
  - (* outside *)
    exists st1, tr1. split; [reflexivity|]. split; [exact Hsz1|].
    split; [exact Hn1|]. split; [|split; [exact Hz1|split; assumption]].
    eapply Rep_transfer; [exact HR1 | lia | reflexivity | reflexivity |].
    intros i Hi. apply add_on_outside. lia.
  - case_bool_decide as Hin.
    + (* inside *)
      repeat run_step cap.
      case_bool_decide as Hne.
      * specialize (Hkids Hne). repeat run_step cap.
        eexists _, _. split; [reflexivity|]. split; [eauto 10 with seg|].
        split; [exact Hn1|]. split; [|split; [|split]].
        -- eapply (cover_Rep st1); [lia | lia | lia | | | exact HR1].
           ++ intros q. read_back cap. reflexivity.
           ++ intros q. read_back cap. repeat goal_decide Hd; subst; lia.
        -- read_back cap. repeat goal_decide Hd; lia.
        -- intros p Hp. pose proof (outside_self _ _ Hp).
           pose proof (outside_self _ _ (outside_child node (2 * node) p ltac:(lia) Hp)).
           pose proof (outside_self _ _ (outside_child node (2 * node + 1) p ltac:(lia) Hp)).
           read_back cap. repeat goal_decide Hd; try lia. apply Hfr1, Hp.
        -- intros Htr. repeat (constructor; [unfold ev_ok; simpl; lia|]). auto.
      * repeat run_step cap.
        eexists _, _. split; [reflexivity|]. split; [eauto 10 with seg|].
        split; [exact Hn1|]. split; [|split; [|split]].
        -- eapply (cover_Rep st1); [lia | lia | lia | | | exact HR1].
           ++ intros q. read_back cap. reflexivity.
           ++ intros q. read_back cap. repeat goal_decide Hd; subst; lia.
        -- read_back cap. exact Hz1.
        -- intros p Hp. pose proof (outside_self _ _ Hp).
           read_back cap. repeat goal_decide Hd; try lia. apply Hfr1, Hp.
        -- intros Htr. repeat (constructor; [unfold ev_ok; simpl; lia|]). auto.
    + (* partial overlap *)
      assert (s <> e) as Hne by lia.
      destruct (Shape_children _ _ _ _ Hsh Hne) as (Hlt & Shl & Shr).
      pose proof (midpoint_bounds s e Hlt) as Hm.
      pose proof (Shape_node_bound _ _ _ _ Shl) as Hbl.
      pose proof (Shape_node_bound _ _ _ _ Shr) as Hbr.
      inversion HR1 as [? ? ? ? | ? ? ? ? _ Hsum Hcl Hcr]; subst; [lia|].
      destruct (IH (2 * node) s (midpoint s e) st1 tr1 acc ltac:(lia) Shl Hsz1 Hcl)
        as (st2 & tr2 & Hu2 & Hsz2 & Hn2 & HR2 & Hz2 & Hfr2 & Htr2).
      cbv zeta. rewrite (bind_Ok _ _ _ _ _ Hu2).
      assert (Rep st2 a (2 * node + 1) (midpoint s e + 1) e
                (acc + L st2 (2 * node + 1))) as Hcr2.
      { eapply Rep_k.
        - eapply Rep_transfer; [exact Hcr | lia | | | reflexivity].
          + intros p Hp. apply Hfr2, right_not_left; [lia | exact Hp].
          + intros p Hp _. apply Hfr2, right_not_left; [lia | exact Hp].
        - f_equal. symmetry.
          apply Hfr2, right_not_left; [lia | apply desc_self]. }
      destruct (IH (2 * node + 1) (midpoint s e + 1) e st2 tr2 acc ltac:(lia)
                  Shr Hsz2 Hcr2)
        as (st3 & tr3 & Hu3 & Hsz3 & Hn3 & HR3 & Hz3 & Hfr3 & Htr3).
      rewrite (bind_Ok _ _ _ _ _ Hu3).
      repeat run_step cap.
      assert (Rep st3 (add_on l r val a) (2 * node) s (midpoint s e) acc) as HR2'.
      { eapply Rep_transfer; [exact HR2 | lia | | | reflexivity].
        - intros p Hp. apply Hfr3, left_not_right; [lia | exact Hp].
        - intros p Hp _. apply Hfr3, left_not_right; [lia | exact Hp]. }
      assert (L st3 (2 * node) = 0) as Hz2'.
      { rewrite <- Hz2. apply Hfr3, left_not_right; [lia | apply desc_self]. }
      assert (L st3 node = 0) as Hz3'.
      { rewrite <- Hz1.
        transitivity (L st2 node).
        - apply Hfr3, parent_not_child; lia.
        - apply Hfr2, parent_not_child; lia. }
      eexists _, _. split; [reflexivity|]. split; [eauto 10 with seg|].
      split; [simpl; congruence|]. split; [|split; [|split]].
      * eapply (combine_Rep st3); try eassumption; try lia.
        -- read_back cap. goal_decide Hd; [reflexivity | lia].
        -- intros p Hp. read_back cap. goal_decide Hd; [lia | reflexivity].
        -- intros p. reflexivity.
      * read_back cap. exact Hz3'.
      * intros p Hp. pose proof (outside_self _ _ Hp).
        read_back cap. goal_decide Hd; [lia|].
        destruct (Hfr3 p (outside_child node _ p ltac:(right; reflexivity) Hp)) as [-> ->].
        destruct (Hfr2 p (outside_child node _ p ltac:(left; reflexivity) Hp)) as [-> ->].
        apply Hfr1, Hp.
      * intros Htr. repeat (constructor; [unfold ev_ok; simpl; lia|]). auto.
Qed.

(** ** The query recursion *)

Lemma query_recursive_ok cap l r a (fuel : nat) :
  forall node s e st tr,
  e - s < Z.of_nat fuel -> Shape cap node s e -> sized cap st ->
  Rep st a node s e (L st node) ->
  exists st' tr',
    query_recursive fuel node s e l r (st, tr)
      = Ok (range_sum a (Z.max s l) (Z.min e r), (st', tr')) /\
    sized cap st' /\ n st' = n st /\
    Rep st' a node s e (L st' node) /\
    (forall p, ~ desc node p -> T st' p = T st p /\ L st' p = L st p) /\
    (Forall (ev_ok cap) tr -> Forall (ev_ok cap) tr').
Proof.
  induction fuel as [|fuel IH]; intros node s e st tr Hf Hsh Hsz HR.
  { apply Shape_le in Hsh. lia. }
  pose proof (Shape_le _ _ _ _ Hsh) as Hse.
  pose proof (Shape_node_bound _ _ _ _ Hsh) as Hnode.
  assert (s <> e -> 2 * node + 1 < cap) as Hkids.
  { intros Hne. apply Shape_children in Hsh as (_ & _ & Hc); [|exact Hne].
    apply Shape_node_bound in Hc. lia. }
  simpl query_recursive. rewrite bind_log.
  case_bool_decide as Hdis.
  - (* outside *)
    exists st, (Call QueryRec node s e :: tr).
    rewrite range_sum_empty by lia.
    split; [reflexivity|]. split; [exact Hsz|]. split; [reflexivity|].
    split; [exact HR|]. split; [intros; split; reflexivity|].
    intros Htr. constructor; [unfold ev_ok; simpl; lia | exact Htr].
  - destruct (push_ok cap st (Call QueryRec node s e :: tr) node s e Hsz Hnode Hkids)
      as (st1 & tr1 & Hpush & Hsz1 & Hn1 & HT1 & HL1 & Htr1).
    rewrite (bind_Ok _ _ _ _ _ Hpush).
    assert (Rep st1 a node s e 0) as HR1.
    { apply (push_Rep st st1 a node s e 0 ltac:(lia) HT1 HL1).
      eapply Rep_k; [exact HR | lia]. }
    assert (L st1 node = 0) as Hz1.
    { rewrite HL1. goal_decide Hd; [reflexivity | lia]. }
    assert (forall p, ~ desc node p -> T st1 p = T st p /\ L st1 p = L st p)
      as Hfr1.
    { intros p Hp. pose proof (outside_self _ _ Hp).
      pose proof (outside_self _ _ (outside_child node (2 * node) p ltac:(lia) Hp)).
      pose proof (outside_self _ _ (outside_child node (2 * node + 1) p ltac:(lia) Hp)).
      rewrite HT1, HL1. repeat goal_decide Hd; (lia || (split; reflexivity)). }
    assert (Forall (ev_ok cap) tr -> Forall (ev_ok cap) tr1) as Htr1'.
    { intros Htr. apply Htr1. constructor; [unfold ev_ok; simpl; lia | exact Htr]. }
    clear Hpush Htr1 HR.
    case_bool_decide as Hin.
    + (* inside *)
      run_step cap.
      exists st1, (Tree node :: tr1).
      replace (Z.max s l) with s by lia. replace (Z.min e r) with e by lia.
      rewrite <- (Rep_sum _ _ _ _ _ _ HR1).
      split; [f_equal; f_equal; lia|]. split; [exact Hsz1|].
      split; [exact Hn1|]. split; [|split; [exact Hfr1|]].
      * eapply Rep_k; [exact HR1 | lia].
      * intros Htr. constructor; [unfold ev_ok; simpl; lia | auto].
    + (* partial overlap *)
      assert (s <> e) as Hne by lia.
      destruct (Shape_children _ _ _ _ Hsh Hne) as (Hlt & Shl & Shr).
      pose proof (midpoint_bounds s e Hlt) as Hm.
      inversion HR1 as [? ? ? ? | ? ? ? ? _ Hsum Hcl Hcr]; subst; [lia|].
      destruct (IH (2 * node) s (midpoint s e) st1 tr1 ltac:(lia) Shl Hsz1)
        as (st2 & tr2 & Hq2 & Hsz2 & Hn2 & HR2 & Hfr2 & Htr2).
      { eapply Rep_k; [exact Hcl | lia]. }
      cbv zeta. rewrite (bind_Ok _ _ _ _ _ Hq2).
      destruct (IH (2 * node + 1) (midpoint s e + 1) e st2 tr2 ltac:(lia)
                  Shr Hsz2)
        as (st3 & tr3 & Hq3 & Hsz3 & Hn3 & HR3 & Hfr3 & Htr3).
      { eapply Rep_k.
        - eapply Rep_transfer; [exact Hcr | lia | | | reflexivity].
          + intros p Hp. apply Hfr2, right_not_left; [lia | exact Hp].
          + intros p Hp _. apply Hfr2, right_not_left; [lia | exact Hp].
        - assert (L st2 (2 * node + 1) = L st1 (2 * node + 1)) as ->
            by (apply Hfr2, right_not_left; [lia | apply desc_self]).
          lia. }
      rewrite (bind_Ok _ _ _ _ _ Hq3). rewrite (range_sum_clip a s e l r Hlt).
      exists st3, tr3. split; [reflexivity|]. split; [exact Hsz3|].
      split; [congruence|].
      assert (forall p, ~ desc node p -> T st3 p = T st1 p /\ L st3 p = L st1 p)
        as Hfr13.
      { intros p Hp.
        destruct (Hfr3 p (outside_child node _ p ltac:(right; reflexivity) Hp)) as [-> ->].
        apply Hfr2. eapply outside_child; [left; reflexivity | exact Hp]. }
      assert (T st3 node = T st1 node /\ L st3 node = L st1 node) as [HT3 HL3].
      { destruct (Hfr3 node) as [-> ->]; [apply parent_not_child; lia|].
        apply Hfr2. apply parent_not_child; lia. }
      split; [|split].
      * rewrite HL3, Hz1. apply Rep_node; [exact Hlt | rewrite HT3; exact Hsum | |].
        -- eapply Rep_k.
           ++ eapply Rep_transfer; [exact HR2 | lia | | | reflexivity].
              ** intros p Hp. apply Hfr3, left_not_right; [lia | exact Hp].
              ** intros p Hp _. apply Hfr3, left_not_right; [lia | exact Hp].
           ++ assert (L st3 (2 * node) = L st2 (2 * node)) as ->
                by (apply Hfr3, left_not_right; [lia | apply desc_self]).
              lia.
        -- eapply Rep_k; [exact HR3 | lia].
      * intros p Hp. destruct (Hfr13 p Hp) as [-> ->]. apply Hfr1, Hp.
      * auto.
Qed.

(** ** The build recursion *)

Lemma bind_arr_get {B} (arr : list Z) i (k : Z -> M B) m :
  0 <= i < Z.of_nat (length arr) ->
  bind (arr_get arr i) k m = k (idx arr i) m.
Proof.
  intros H. unfold bind, arr_get. rewrite vec_get_idx by lia. reflexivity.
Qed.

Lemma build_recursive_ok cap arr (fuel : nat) :
  forall node s e st tr,
  e - s < Z.of_nat fuel -> Shape cap node s e ->
  0 <= s -> e < Z.of_nat (length arr) ->
  sized cap st -> (forall p, L st p = 0) ->
  exists st' tr',
    build_recursive fuel arr node s e (st, tr) = Ok (tt, (st', tr')) /\
    sized cap st' /\ n st' = n st /\ lazy st' = lazy st /\
    Rep st' (idx arr) node s e 0 /\
    (forall p, ~ desc node p -> T st' p = T st p) /\
    (Forall (ev_ok cap) tr -> Forall (ev_ok cap) tr').
Proof.
  induction fuel as [|fuel IH]; intros node s e st tr Hf Hsh Hs He Hsz Hlz.
  { apply Shape_le in Hsh. lia. }
  pose proof (Shape_le _ _ _ _ Hsh) as Hse.
  pose proof (Shape_node_bound _ _ _ _ Hsh) as Hnode.
  simpl build_recursive. rewrite bind_log.
  case_bool_decide as Heq.
  - (* leaf *)
    subst e. rewrite bind_arr_get by lia. run_step cap.
    eexists _, _. split; [reflexivity|]. split; [eauto with seg|].
    split; [reflexivity|]. split; [reflexivity|]. split; [|split].
    + apply Rep_leaf. read_back cap. goal_decide Hd; lia.
    + intros p Hp. pose proof (outside_self _ _ Hp).
      read_back cap. goal_decide Hd; [lia | reflexivity].
    + intros Htr. repeat (constructor; [unfold ev_ok; simpl; lia|]). exact Htr.
  - (* internal node *)
    destruct (Shape_children _ _ _ _ Hsh Heq) as (Hlt & Shl & Shr).
    pose proof (midpoint_bounds s e Hlt) as Hm.
    pose proof (Shape_node_bound _ _ _ _ Shl) as Hbl.
    pose proof (Shape_node_bound _ _ _ _ Shr) as Hbr.
    destruct (IH (2 * node) s (midpoint s e) st (Call BuildRec node s e :: tr)
                ltac:(lia) Shl ltac:(lia) ltac:(lia) Hsz Hlz)
      as (st2 & tr2 & Hb2 & Hsz2 & Hn2 & Hlz2 & HR2 & Hfr2 & Htr2).
    cbv zeta. rewrite (bind_Ok _ _ _ _ _ Hb2).
    assert (forall p, L st2 p = 0) as Hlz2'.
    { intros p. unfold L. rewrite Hlz2. apply Hlz. }
    destruct (IH (2 * node + 1) (midpoint s e + 1) e st2 tr2
                ltac:(lia) Shr ltac:(lia) ltac:(lia) Hsz2 Hlz2')
      as (st3 & tr3 & Hb3 & Hsz3 & Hn3 & Hlz3 & HR3 & Hfr3 & Htr3).
    rewrite (bind_Ok _ _ _ _ _ Hb3).
    assert (forall p, L st3 p = 0) as Hlz3'.
    { intros p. unfold L. rewrite Hlz3. apply Hlz2'. }
    repeat run_step cap.
    eexists _, _. split; [reflexivity|]. split; [eauto with seg|].
    split; [simpl; congruence|]. split; [simpl; congruence|].
    split; [|split].
    + eapply (combine_Rep st3); try eassumption; try lia; try apply Hlz3'.
      * read_back cap. goal_decide Hd; [reflexivity | lia].
      * intros p Hp. read_back cap. goal_decide Hd; [lia | reflexivity].
      * intros p. reflexivity.
      * eapply Rep_transfer; [exact HR2 | lia | | | reflexivity].
        -- intros p Hp. apply Hfr3, left_not_right; [lia | exact Hp].
        -- intros p _ _. rewrite Hlz3', Hlz2'. reflexivity.
    + intros p Hp. pose proof (outside_self _ _ Hp).
      read_back cap. goal_decide Hd; [lia|].
      rewrite Hfr3 by (eapply outside_child; [right; reflexivity | exact Hp]).
      apply Hfr2. eapply outside_child; [left; reflexivity | exact Hp].
    + intros Htr. repeat (constructor; [unfold ev_ok; simpl; lia|]).
      apply Htr3, Htr2. constructor; [unfold ev_ok; simpl; lia | exact Htr].
Qed.

(** ** The invariant of the public interface *)

(** [Inv a m]: the machine [m] holds a tree for the mirror [a]. *)
Definition Inv (a : list Z) (m : machine) : Prop :=
  let sz := Z.of_nat (length a) in
  n m.1 = sz /\
  Forall (ev_ok (4 * sz)) m.2 /\
  (sz <> 0 ->
   sized (4 * sz) m.1 /\
   Rep m.1 (idx a) ROOT_NODE 0 (sz - 1) (L m.1 ROOT_NODE)).

Lemma idx_replicate k i : idx (replicate k 0) i = 0.
Proof.
  unfold idx, vec_get. case_bool_decide; [|reflexivity].
  destruct (replicate k 0 !! Z.to_nat i) as [y|] eqn:E; [|reflexivity].
  apply lookup_replicate in E as [-> _]. reflexivity.
Qed.

Lemma resize_nil k x : resize [] k x = replicate (Z.to_nat k) x.
Proof. unfold resize. rewrite take_nil. simpl. f_equal. lia. Qed.

Lemma length_mirror_add l r val a : length (mirror_add l r val a) = length a.
Proof. unfold mirror_add. case_bool_decide; [apply length_imap | reflexivity]. Qed.

Lemma idx_mirror_add l r val a i :
  valid (Z.of_nat (length a)) l r -> 0 <= i < Z.of_nat (length a) ->
  idx (mirror_add l r val a) i = add_on l r val (idx a) i.
Proof.
  intros Hv Hi. unfold mirror_add. rewrite bool_decide_eq_true_2 by exact Hv.
  unfold idx at 1, vec_get. rewrite bool_decide_eq_true_2 by lia.
  rewrite list_lookup_imap.
  pose proof (vec_get_idx a i Hi) as Hg. unfold vec_get in Hg.
  rewrite bool_decide_eq_true_2 in Hg by lia. rewrite Hg. simpl.
  rewrite Z2Nat.id by lia. reflexivity.
Qed.

Lemma guard_valid sz l r :
  0 <= sz -> (sz = 0 \/ l < 0 \/ r >= sz \/ l > r) <-> ~ valid sz l r.
Proof. unfold valid. lia. Qed.

Lemma construct_Inv arr :
  exists m, construct arr fresh = Ok (tt, m) /\ Inv arr m.
Proof.
  unfold construct, fresh. simpl.
  case_bool_decide as Hsz.
  - eexists. split; [reflexivity|]. unfold Inv. simpl.
    split; [reflexivity|]. split; [constructor | intros; lia].
  - rewrite !resize_nil.
    set (sz := Z.of_nat (length arr)) in *.
    set (st := set_lazy _ _).
    assert (sized (4 * sz) st) as Hst.
    { split; simpl; rewrite length_replicate; lia. }
    destruct (build_recursive_ok (4 * sz) arr (Z.to_nat sz) ROOT_NODE 0 (sz - 1)
                st [] ltac:(lia) (Shape_root sz ltac:(lia)) ltac:(lia)
                ltac:(lia) Hst)
      as (st' & tr' & Hb & Hsz' & Hn' & Hlz' & HR & _ & Htr).
    { intros p. apply idx_replicate. }
    exists (st', tr'). split; [exact Hb|]. unfold Inv. simpl. fold sz.
    split; [rewrite Hn'; reflexivity|]. split; [apply Htr; constructor|].
    intros _. split; [exact Hsz'|].
    eapply Rep_k; [exact HR|]. unfold L. rewrite Hlz'. simpl.
    symmetry. apply idx_replicate.
Qed.

Lemma updateRange_Inv a l r val m :
  Inv a m ->
  exists m', updateRange l r val m = Ok (tt, m') /\ Inv (mirror_add l r val a) m'.
Proof.
  destruct m as [st tr]. intros (Hn & Htr & Hrep). simpl in Hn, Htr, Hrep.
  unfold updateRange. simpl. rewrite Hn.
  set (sz := Z.of_nat (length a)) in *.
  case_bool_decide as Hg.
  - apply guard_valid in Hg; [|lia].
    exists (st, tr). split; [reflexivity|].
    unfold mirror_add. rewrite bool_decide_eq_false_2 by exact Hg.
    repeat split; try assumption; apply Hrep; assumption.
  - assert (valid sz l r) as Hv by (unfold valid; lia).
    assert (sz <> 0) as Hnz by lia.
    destruct (Hrep Hnz) as [Hsz HR].
    destruct (update_recursive_ok (4 * sz) l r val (idx a) (Z.to_nat sz)
                ROOT_NODE 0 (sz - 1) st tr 0 ltac:(lia)
                (Shape_root sz ltac:(lia)) Hsz)
      as (st' & tr' & Hu & Hsz' & Hn' & HR' & Hz' & _ & Htr').
    { eapply Rep_k; [exact HR | lia]. }
    exists (st', tr'). split; [exact Hu|].
    unfold Inv. rewrite length_mirror_add. fold sz. simpl.
    split; [congruence|]. split; [auto|]. intros _. split; [exact Hsz'|].
    rewrite Hz'.
    eapply Rep_transfer; [exact HR' | unfold ROOT_NODE; lia | reflexivity
                         | reflexivity |].
    intros i Hi. apply idx_mirror_add; [exact Hv | lia].
Qed.

Lemma queryRange_Inv a l r m :
  Inv a m ->
  exists m', queryRange l r m = Ok (mirror_sum l r a, m') /\ Inv a m'.
Proof.
  destruct m as [st tr]. intros (Hn & Htr & Hrep). simpl in Hn, Htr, Hrep.
  unfold queryRange, mirror_sum. simpl. rewrite Hn.
  set (sz := Z.of_nat (length a)) in *.
  case_bool_decide as Hg.
  - apply guard_valid in Hg; [|lia].
    exists (st, tr). rewrite bool_decide_eq_false_2 by exact Hg.
    split; [reflexivity|]. repeat split; try assumption; apply Hrep; assumption.
  - assert (valid sz l r) as Hv by (unfold valid; lia).
    assert (sz <> 0) as Hnz by lia.
    destruct (Hrep Hnz) as [Hsz HR].
    destruct (query_recursive_ok (4 * sz) l r (idx a) (Z.to_nat sz)
                ROOT_NODE 0 (sz - 1) st tr ltac:(lia)
                (Shape_root sz ltac:(lia)) Hsz HR)
      as (st' & tr' & Hq & Hsz' & Hn' & HR' & _ & Htr').
    exists (st', tr'). rewrite bool_decide_eq_true_2 by exact Hv.
    destruct Hv as (Hv1 & Hv2 & Hv3).
    replace (Z.max 0 l) with l in Hq by lia.
    replace (Z.min (sz - 1) r) with r in Hq by lia.
    split; [exact Hq|].
    unfold Inv. fold sz. simpl.
    split; [congruence|]. split; [auto|]. intros _. split; assumption.
Qed.

Lemma run_Inv ops : forall a m,
  Inv a m ->
  exists m', run ops m = Ok (mirror_run a ops, m') /\ Inv (mirror_after a ops) m'.
Proof.
  induction ops as [|[l r val | l r] ops IH]; intros a m HI; simpl.
  - exists m. split; [reflexivity | exact HI].
  - destruct (updateRange_Inv a l r val m HI) as (m1 & Hu & HI1).
    rewrite (bind_Ok _ _ _ _ _ Hu). apply IH, HI1.
  - destruct (queryRange_Inv a l r m HI) as (m1 & Hq & HI1).
    rewrite (bind_Ok _ _ _ _ _ Hq).
    destruct (IH a m1 HI1) as (m2 & Hr & HI2).
    rewrite (bind_Ok _ _ _ _ _ Hr). exists m2. split; [reflexivity | exact HI2].
Qed.

Lemma session_Inv arr ops :
  exists m, session arr ops = Ok (mirror_run arr ops, m)
            /\ Inv (mirror_after arr ops) m.
Proof.
  unfold session.
  destruct (construct_Inv arr) as (m0 & Hc & HI0).
  rewrite (bind_Ok _ _ _ _ _ Hc). apply run_Inv, HI0.
Qed.

(** ** Queries at the end of a session *)

Lemma session_unique arr ops res m :
  session arr ops = Ok (res, m) ->
  res = mirror_run arr ops /\ Inv (mirror_after arr ops) m.
Proof.
  intros H. destruct (session_Inv arr ops) as (m' & H' & HI).
  rewrite H in H'. injection H' as -> ->. split; [reflexivity | exact HI].
Qed.

Lemma query_after_mirror arr ops l r :
  query_after arr ops l r = Some (mirror_sum l r (mirror_after arr ops)).
Proof.
  unfold query_after.
  destruct (session_Inv arr ops) as (m & Hs & HI). unfold session in Hs.
  destruct (queryRange_Inv _ l r m HI) as (m' & Hq & _).
  rewrite <- bind_assoc. rewrite (bind_Ok _ _ _ _ _ Hs), Hq. reflexivity.
Qed.

Lemma mirror_after_app a ops1 ops2 :
  mirror_after a (ops1 ++ ops2) = mirror_after (mirror_after a ops1) ops2.
Proof.
  revert a. induction ops1 as [|[l r v | l r] ops1 IH]; intros a; simpl; auto.
Qed.

Lemma length_mirror_after a ops : length (mirror_after a ops) = length a.
Proof.
  revert a. induction ops as [|[l r v | l r] ops IH]; intros a; simpl; auto.
  rewrite IH. apply length_mirror_add.
Qed.

Lemma mirror_sum_valid l r a :
  valid (Z.of_nat (length a)) l r -> mirror_sum l r a = range_sum (idx a) l r.
Proof. intros H. unfold mirror_sum. rewrite bool_decide_eq_true_2; auto. Qed.

(** The sum of the whole mirror is the sum of its elements. *)
Lemma sum_from_cons x (a : list Z) s cnt :
  0 <= s -> sum_from (idx (x :: a)) (s + 1) cnt = sum_from (idx a) s cnt.
Proof.
  revert s. induction cnt as [|cnt IH]; intros s Hs; simpl; [reflexivity|].
  rewrite IH by lia. f_equal.
  unfold idx, vec_get. rewrite !bool_decide_eq_true_2 by lia.
  replace (Z.to_nat (s + 1)) with (S (Z.to_nat s)) by lia. reflexivity.
Qed.

Lemma range_sum_all (a : list Z) :
  range_sum (idx a) 0 (Z.of_nat (length a) - 1) = foldr Z.add 0 a.
Proof.
  unfold range_sum.
  replace (Z.to_nat (Z.of_nat (length a) - 1 - 0 + 1)) with (length a) by lia.
  induction a as [|x a IH]; simpl; [reflexivity|].
  rewrite (sum_from_cons x a 0) by lia. rewrite IH. reflexivity.
Qed.

Lemma idx_lookup (a : list Z) (i : nat) x : a !! i = Some x -> idx a (Z.of_nat i) = x.
Proof.
  intros H. unfold idx, vec_get. rewrite bool_decide_eq_true_2 by lia.
  rewrite Nat2Z.id, H. reflexivity.
Qed.

(** The effect of an update on the sums of the mirror. *)
Lemma range_sum_mirror_add_same l r val a :
  valid (Z.of_nat (length a)) l r ->
  range_sum (idx (mirror_add l r val a)) l r
  = range_sum (idx a) l r + val * (r - l + 1).
Proof.
  intros Hv. pose proof Hv as (H1 & H2 & H3).
  rewrite <- range_sum_add by lia. apply range_sum_ext. intros i Hi.
  rewrite idx_mirror_add by (assumption || lia). apply add_on_inside. lia.
Qed.

Lemma range_sum_mirror_add_disjoint l r val a x y :
  valid (Z.of_nat (length a)) x y -> y < l \/ r < x ->
  range_sum (idx (mirror_add l r val a)) x y = range_sum (idx a) x y.
Proof.
  intros (H1 & H2 & H3) Hd. apply range_sum_ext. intros i Hi.
  destruct (decide (valid (Z.of_nat (length a)) l r)) as [Hv|Hv].
  - rewrite idx_mirror_add by (assumption || lia). apply add_on_outside. lia.
  - unfold mirror_add. rewrite bool_decide_eq_false_2 by exact Hv. reflexivity.
Qed.

(** ** Facts about sessions *)

(** The whole session at once: the answers of the tree are the answers of
    the mirror, a query with an invalid range answering 0. *)
Lemma session_refines_mirror (arr : list Z) (ops : list op) :
  answers (session arr ops) = Some (mirror_run arr ops).
Proof.
  destruct (session_Inv arr ops) as (m & -> & _). reflexivity.
Qed.

Lemma reachable_Inv m : reachable m -> exists a, Inv a m.
Proof.
  intros (arr & ops & res & H). apply session_unique in H as [_ H]. eauto.
Qed.

Lemma update_then_query a m l r delta x y :
  Inv a m ->
  answers ((updateRange l r delta ;;; queryRange x y) m)
  = Some (mirror_sum x y (mirror_add l r delta a)).
Proof.
  intros HI.
  destruct (updateRange_Inv a l r delta m HI) as (m1 & Hu & HI1).
  destruct (queryRange_Inv _ x y m1 HI1) as (m2 & Hq & _).
  rewrite (bind_Ok _ _ _ _ _ Hu), Hq. reflexivity.
Qed.

Lemma node_at_Rep st a node s e k :
  Rep st a ROOT_NODE 0 (n st - 1) (L st ROOT_NODE) ->
  node_at st node s e k -> Rep st a node s e (k + L st node).
Proof.
  intros Hroot. induction 1 as [Hn | node s e k _ IH Hlt | node s e k _ IH Hlt].
  - exact Hroot.
  - inversion IH; subst; [lia | assumption].
  - inversion IH; subst; [lia | assumption].
Qed.


(** ** Traces of sessions *)


(** ** Termination *)

Lemma halts_ret {A} (a : A) : halts (ret a).
Proof. intros m. discriminate. Qed.

Lemma halts_bind {A B} (c : M A) (k : A -> M B) :
  halts c -> (forall a, halts (k a)) -> halts (bind c k).
Proof.
  intros Hc Hk m. unfold bind. specialize (Hc m).
  destruct (c m) as [[a m']| |]; [apply Hk | discriminate | congruence].
Qed.

Lemma halts_log ev : halts (log ev).
Proof. intros m. discriminate. Qed.

Lemma halts_tree_get i : halts (tree_get i).
Proof. intros m. unfold tree_get. destruct (vec_get _ _); discriminate. Qed.

Lemma halts_lazy_get i : halts (lazy_get i).
Proof. intros m. unfold lazy_get. destruct (vec_get _ _); discriminate. Qed.

Lemma halts_tree_put i x : halts (tree_put i x).
Proof. intros m. unfold tree_put. destruct (vec_set _ _ _); discriminate. Qed.

Lemma halts_lazy_put i x : halts (lazy_put i x).
Proof. intros m. unfold lazy_put. destruct (vec_set _ _ _); discriminate. Qed.

Lemma halts_arr_get arr i : halts (arr_get arr i).
Proof. intros m. unfold arr_get. destruct (vec_get _ _); discriminate. Qed.

#[local] Hint Resolve halts_ret halts_log halts_tree_get halts_lazy_get
  halts_tree_put halts_lazy_put halts_arr_get : seg.

Ltac halts_steps :=
  repeat first
    [ apply halts_bind; [|intros ?]
    | case_bool_decide
    | solve [auto with seg] ].

Lemma halts_push node s e : halts (push node s e).
Proof. unfold push. halts_steps. Qed.

Lemma build_recursive_halts (fuel : nat) : forall arr node s e,
  s <= e -> e - s < Z.of_nat fuel -> halts (build_recursive fuel arr node s e).
Proof.
  induction fuel as [|fuel IH]; intros arr node s e Hse Hf; [lia|].
  simpl build_recursive.
  apply halts_bind; [auto with seg | intros _].
  case_bool_decide as Heq; [halts_steps|].
  pose proof (midpoint_bounds s e ltac:(lia)) as Hm. cbv zeta.
  apply halts_bind; [apply IH; lia | intros _].
  apply halts_bind; [apply IH; lia | intros _].
  halts_steps.
Qed.

Lemma update_recursive_halts (fuel : nat) : forall node s e l r val,
  e - s < Z.of_nat fuel -> (0 < fuel)%nat ->
  halts (update_recursive fuel node s e l r val).
Proof.
  induction fuel as [|fuel IH]; intros node s e l r val Hf Hpos; [lia|].
  simpl update_recursive.
  apply halts_bind; [auto with seg | intros _].
  apply halts_bind; [apply halts_push | intros _].
  case_bool_decide as Hdis; [auto with seg|].
  case_bool_decide as Hin; [halts_steps|].
  pose proof (midpoint_bounds s e ltac:(lia)) as Hm. cbv zeta.
  apply halts_bind; [apply IH; lia | intros _].
  apply halts_bind; [apply IH; lia | intros _].
  halts_steps.
Qed.

Lemma query_recursive_halts (fuel : nat) : forall node s e l r,
  e - s < Z.of_nat fuel -> (0 < fuel)%nat ->
  halts (query_recursive fuel node s e l r).
Proof.
  induction fuel as [|fuel IH]; intros node s e l r Hf Hpos; [lia|].
  simpl query_recursive.
  apply halts_bind; [auto with seg | intros _].
  case_bool_decide as Hdis; [auto with seg|].
  apply halts_bind; [apply halts_push | intros _].
  case_bool_decide as Hin; [auto with seg|].
  pose proof (midpoint_bounds s e ltac:(lia)) as Hm. cbv zeta.
  apply halts_bind; [apply IH; lia | intros p1].
  apply halts_bind; [apply IH; lia | intros p2].
  auto with seg.
Qed.

(** More fuel than the range needs changes nothing. *)
Lemma bind_cong {A B} (c1 c2 : M A) (k1 k2 : A -> M B) m :
  (forall m', c1 m' = c2 m') -> (forall a m', k1 a m' = k2 a m') ->
  bind c1 k1 m = bind c2 k2 m.
Proof.
  intros Hc Hk. unfold bind. rewrite Hc.
  destruct (c2 m) as [[a m']| |]; [apply Hk | reflexivity | reflexivity].
Qed.





(** * The claims of the specification

    The claims C3, C5 and C7 speak of stored values and of the size of the
    vectors; they are settled in the machine reading of [int], in the
    second half of the file. *)

(** C1 (refinement of the array mirror).  After the construction from any
    array and any sequence of [updateRange] and [queryRange] calls, a
    [queryRange l r] with a valid range returns the sum over [l..r] of the
    mirror: the initial array to which every earlier valid update has added
    its delta on its range, invalid updates changing nothing. *)
Theorem C1_query_refines_mirror (arr : list Z) (ops : list op) (l r : Z) :
  valid (Z.of_nat (length arr)) l r ->
  query_after arr ops l r = Some (range_sum (idx (mirror_after arr ops)) l r).
Proof.
  intros Hv. rewrite query_after_mirror. f_equal.
  apply mirror_sum_valid. rewrite length_mirror_after. exact Hv.
Qed.

Lemma C1_query_refines_mirror_witness :
  valid (Z.of_nat (length [1; 2; 3; 4; 5; 6; 7; 8])) 2 5 /\
  query_after [1; 2; 3; 4; 5; 6; 7; 8] [Update 0 7 1; Query 3 9; Update 2 5 (-2)] 2 5
  = Some (range_sum
            (idx (mirror_after [1; 2; 3; 4; 5; 6; 7; 8]
                    [Update 0 7 1; Query 3 9; Update 2 5 (-2)])) 2 5).
Proof.
  split.
  - unfold valid. simpl. lia.
  - apply (C1_query_refines_mirror [1; 2; 3; 4; 5; 6; 7; 8]).
    unfold valid. simpl. lia.
Defined.

(** C2 (update-query consistency).  In a reachable state and for a valid
    range [[l, r]]: [queryRange l r] after [updateRange l r delta] returns
    what it returned before plus [delta * (r - l + 1)], and [queryRange x y]
    for a valid range disjoint from [[l, r]] returns what it returned before;
    this holds whether the update runs on the state as it was or on the
    state that the earlier query left. *)
Theorem C2_update_query_consistency (m : machine) (l r delta : Z) :
  reachable m -> valid (n m.1) l r ->
  (exists q m1,
     queryRange l r m = Ok (q, m1) /\
     forall m0, m0 = m \/ m0 = m1 ->
       answers ((updateRange l r delta ;;; queryRange l r) m0)
       = Some (q + delta * (r - l + 1))) /\
  (forall x y, valid (n m.1) x y -> y < l \/ r < x ->
     exists q m1,
       queryRange x y m = Ok (q, m1) /\
       forall m0, m0 = m \/ m0 = m1 ->
         answers ((updateRange l r delta ;;; queryRange x y) m0) = Some q).
Proof.
  intros [a HI]%reachable_Inv Hv.
  assert (n m.1 = Z.of_nat (length a)) as Hn by apply HI.
  rewrite Hn in *. split.
  - destruct (queryRange_Inv a l r m HI) as (m1 & Hq & HI1).
    exists (mirror_sum l r a), m1. split; [exact Hq|].
    intros m0 Hm0.
    assert (Inv a m0) as HI0 by (destruct Hm0 as [-> | ->]; assumption).
    rewrite (update_then_query a) by exact HI0. f_equal.
    rewrite !mirror_sum_valid by (rewrite ?length_mirror_add; exact Hv).
    apply range_sum_mirror_add_same, Hv.
  - intros x y Hxy Hdis.
    destruct (queryRange_Inv a x y m HI) as (m1 & Hq & HI1).
    exists (mirror_sum x y a), m1. split; [exact Hq|].
    intros m0 Hm0.
    assert (Inv a m0) as HI0 by (destruct Hm0 as [-> | ->]; assumption).
    rewrite (update_then_query a) by exact HI0. f_equal.
    rewrite !mirror_sum_valid by (rewrite ?length_mirror_add; exact Hxy).
    apply range_sum_mirror_add_disjoint; assumption.
Qed.

Lemma C2_update_query_consistency_witness :
  reachable scenario_state /\ valid (n scenario_state.1) 1 3 /\
  answers ((updateRange 1 3 10 ;;; queryRange 1 3) scenario_state)
  = Some (9 + 10 * (3 - 1 + 1)).
Proof.
  assert (reachable scenario_state) as Hr
    by (exists [1; 2; 3; 4; 5], [], []; vm_compute; reflexivity).
  assert (valid (n scenario_state.1) 1 3) as Hv
    by (vm_compute; intuition discriminate).
  split; [exact Hr|]. split; [exact Hv|].
  destruct (C2_update_query_consistency scenario_state 1 3 10 Hr Hv)
    as [(q & m1 & Hq & Hpost) _].
  assert (q = 9) as -> by (vm_compute in Hq; congruence).
  apply Hpost. left. reflexivity.
Defined.

(** C4 (invalid ranges).  On any tree, also the one built from the empty
    array, a range with [n = 0], [l < 0], [r >= n] or [l > r] makes
    [updateRange] return with the state as it was and [queryRange] return 0
    with the state as it was; neither fails. *)
Theorem C4_invalid_range_is_noop (m : machine) (l r delta : Z) :
  n m.1 = 0 \/ l < 0 \/ r >= n m.1 \/ l > r ->
  updateRange l r delta m = Ok (tt, m) /\ queryRange l r m = Ok (0, m).
Proof.
  intros H. unfold updateRange, queryRange.
  rewrite !bool_decide_eq_true_2 by exact H. split; reflexivity.
Qed.

Lemma C4_invalid_range_is_noop_witness :
  let empty := ({| tree := []; lazy := []; n := 0 |}, []) in
  construct [] fresh = Ok (tt, empty) /\
  updateRange 0 0 7 empty = Ok (tt, empty) /\ queryRange 0 0 empty = Ok (0, empty).
Proof.
  split; [reflexivity|].
  apply (C4_invalid_range_is_noop ({| tree := []; lazy := []; n := 0 |}, []) 0 0 7).
  left. reflexivity.
Defined.





(** C9 (queries are observationally pure).  A [queryRange] call in a
    reachable state, whatever its range, leaves a state from which every
    later sequence of updates and queries runs to its end with the same
    answers as from the state before the call; in particular the per-index
    values [queryRange i i] after any later update are the same. *)
Theorem C9_query_observationally_pure (m : machine) (l0 r0 : Z) :
  reachable m ->
  exists x m1,
    queryRange l0 r0 m = Ok (x, m1) /\
    forall ops, exists res m' m1',
      run ops m = Ok (res, m') /\ run ops m1 = Ok (res, m1').
Proof.
  intros [a HI]%reachable_Inv.
  destruct (queryRange_Inv a l0 r0 m HI) as (m1 & Hq & HI1).
  exists (mirror_sum l0 r0 a), m1. split; [exact Hq|]. intros ops.
  destruct (run_Inv ops a m HI) as (m' & Hr & _).
  destruct (run_Inv ops a m1 HI1) as (m1' & Hr1 & _).
  exists (mirror_run a ops), m', m1'. split; assumption.
Qed.

Lemma C9_query_observationally_pure_witness :
  reachable pending_leaf_state /\
  exists x m1,
    queryRange 0 0 pending_leaf_state = Ok (x, m1) /\
    m1.1 <> pending_leaf_state.1 /\
    answers (run [Update 1 1 3; Query 0 1; Query 1 1] m1)
    = answers (run [Update 1 1 3; Query 0 1; Query 1 1] pending_leaf_state).
Proof.
  assert (reachable pending_leaf_state) as Hr
    by (exists [1; 2], [Update 0 1 5], []; vm_compute; reflexivity).
  split; [exact Hr|].
  destruct (C9_query_observationally_pure pending_leaf_state 0 0 Hr)
    as (x & m1 & Hq & Hsame).
  exists x, m1. split; [exact Hq|]. split.
  - vm_compute in Hq. injection Hq as _ <-. vm_compute. discriminate.
  - destruct (Hsame [Update 1 1 3; Query 0 1; Query 1 1])
      as (res & m' & m1' & -> & ->). reflexivity.
Defined.



(** * Further properties of the code *)

(** ** How the public operations compose *)

(** Two machines are observationally equal when every sequence of calls
    runs to its end on both and returns the same answers. *)
Definition obs_eq (m1 m2 : machine) : Prop :=
  forall ops, exists res m1' m2',
    run ops m1 = Ok (res, m1') /\ run ops m2 = Ok (res, m2').

(** The number of indices that [[l, r]] and [[x, y]] share. *)
Definition overlap (l r x y : Z) : Z := Z.max 0 (Z.min r y - Z.max l x + 1).

Lemma Inv_obs_eq a m1 m2 : Inv a m1 -> Inv a m2 -> obs_eq m1 m2.
Proof.
  intros H1 H2 ops.
  destruct (run_Inv ops a m1 H1) as (m1' & Hr1 & _).
  destruct (run_Inv ops a m2 H2) as (m2' & Hr2 & _).
  exists (mirror_run a ops), m1', m2'. split; assumption.
Qed.

Lemma lookup_mirror_add l r val (a : list Z) (i : nat) :
  mirror_add l r val a !! i
  = (fun x => if bool_decide (valid (Z.of_nat (length a)) l r /\ l <= Z.of_nat i <= r)
              then x + val else x) <$> a !! i.
Proof.
  unfold mirror_add. case_bool_decide as Hv.
  - rewrite list_lookup_imap. destruct (a !! i) as [x|]; simpl; [|reflexivity].
    f_equal. repeat case_bool_decide; tauto || lia.
  - destruct (a !! i) as [x|]; simpl; [|reflexivity].
    rewrite bool_decide_eq_false_2 by tauto. reflexivity.
Qed.

Lemma mirror_add_add l r v1 v2 a :
  mirror_add l r v2 (mirror_add l r v1 a) = mirror_add l r (v1 + v2) a.
Proof.
  apply list_eq. intros i.
  rewrite !lookup_mirror_add, length_mirror_add.
  destruct (a !! i) as [x|]; simpl; [|reflexivity].
  f_equal. repeat case_bool_decide; tauto || lia.
Qed.

Lemma mirror_add_comm l1 r1 v1 l2 r2 v2 a :
  mirror_add l2 r2 v2 (mirror_add l1 r1 v1 a)
  = mirror_add l1 r1 v1 (mirror_add l2 r2 v2 a).
Proof.
  apply list_eq. intros i.
  rewrite !lookup_mirror_add, !length_mirror_add.
  destruct (a !! i) as [x|]; simpl; [|reflexivity].
  f_equal. repeat case_bool_decide; tauto || lia.
Qed.

Lemma mirror_add_zero l r a : mirror_add l r 0 a = a.
Proof.
  apply list_eq. intros i. rewrite lookup_mirror_add.
  destruct (a !! i) as [x|]; simpl; [|reflexivity].
  f_equal. case_bool_decide; lia.
Qed.

Lemma range_sum_mirror_add_overlap l r val a x y :
  valid (Z.of_nat (length a)) l r -> valid (Z.of_nat (length a)) x y ->
  range_sum (idx (mirror_add l r val a)) x y
  = range_sum (idx a) x y + val * overlap l r x y.
Proof.
  intros Hv Hxy. pose proof Hv as (Hl1 & Hl2 & Hl3).
  pose proof Hxy as (Hx1 & Hx2 & Hx3). unfold overlap.
  destruct (Z_lt_le_dec (Z.min r y) (Z.max l x)) as [Hdis|Hmeet].
  - rewrite range_sum_mirror_add_disjoint by (assumption || lia).
    replace (Z.max 0 (Z.min r y - Z.max l x + 1)) with 0 by lia. lia.
  - set (lo := Z.max l x) in *. set (hi := Z.min r y) in *.
    replace (Z.max 0 (hi - lo + 1)) with (hi - lo + 1) by lia.
    rewrite (range_sum_split _ x (lo - 1) y) by lia.
    rewrite (range_sum_split _ (lo - 1 + 1) hi y) by lia.
    rewrite (range_sum_split (idx a) x (lo - 1) y) by lia.
    rewrite (range_sum_split (idx a) (lo - 1 + 1) hi y) by lia.
    replace (lo - 1 + 1) with lo by lia.
    rewrite (range_sum_ext (idx (mirror_add l r val a)) (idx a) x (lo - 1)).
    2:{ intros i Hi. rewrite idx_mirror_add by (assumption || lia).
        apply add_on_outside. lia. }
    rewrite (range_sum_ext (idx (mirror_add l r val a)) (idx a) (hi + 1) y).
    2:{ intros i Hi. rewrite idx_mirror_add by (assumption || lia).
        apply add_on_outside. lia. }
    rewrite (range_sum_ext (idx (mirror_add l r val a))
               (fun i => idx a i + val) lo hi).
    2:{ intros i Hi. rewrite idx_mirror_add by (assumption || lia).
        apply add_on_inside. lia. }
    rewrite range_sum_add by lia. lia.
Qed.

Lemma updateRange_twice a m l1 r1 v1 l2 r2 v2 :
  Inv a m ->
  exists m', (updateRange l1 r1 v1 ;;; updateRange l2 r2 v2) m = Ok (tt, m')
             /\ Inv (mirror_add l2 r2 v2 (mirror_add l1 r1 v1 a)) m'.
Proof.
  intros HI.
  destruct (updateRange_Inv a l1 r1 v1 m HI) as (m1 & Hu1 & HI1).
  destruct (updateRange_Inv _ l2 r2 v2 m1 HI1) as (m2 & Hu2 & HI2).
  exists m2. rewrite (bind_Ok _ _ _ _ _ Hu1). split; assumption.
Qed.

(** X3 (updates on one range add up).  From a reachable state,
    [updateRange l r v1] followed by [updateRange l r v2] leaves a state
    observationally equal to the one [updateRange l r (v1 + v2)] leaves,
    for any range, valid or not. *)
Theorem X3_updates_on_one_range_add_up (m : machine) (l r v1 v2 : Z) :
  reachable m ->
  exists m12 msum,
    (updateRange l r v1 ;;; updateRange l r v2) m = Ok (tt, m12) /\
    updateRange l r (v1 + v2) m = Ok (tt, msum) /\
    obs_eq m12 msum.
Proof.
  intros [a HI]%reachable_Inv.
  destruct (updateRange_twice a m l r v1 l r v2 HI) as (m12 & H12 & HI12).
  destruct (updateRange_Inv a l r (v1 + v2) m HI) as (msum & Hs & HIs).
  exists m12, msum. split; [exact H12|]. split; [exact Hs|].
  rewrite mirror_add_add in HI12. exact (Inv_obs_eq _ _ _ HI12 HIs).
Qed.

Lemma X3_updates_on_one_range_add_up_witness :
  reachable scenario_state /\
  exists m12 msum,
    (updateRange 1 3 10 ;;; updateRange 1 3 (-4)) scenario_state = Ok (tt, m12) /\
    updateRange 1 3 (10 + -4) scenario_state = Ok (tt, msum) /\
    answers (run [Query 0 4; Query 2 2] m12) = answers (run [Query 0 4; Query 2 2] msum).
Proof.
  assert (reachable scenario_state) as Hr
    by (exists [1; 2; 3; 4; 5], [], []; vm_compute; reflexivity).
  split; [exact Hr|].
  destruct (X3_updates_on_one_range_add_up scenario_state 1 3 10 (-4) Hr)
    as (m12 & msum & H12 & Hs & Hobs).
  exists m12, msum. split; [exact H12|]. split; [exact Hs|].
  destruct (Hobs [Query 0 4; Query 2 2]) as (res & ma & mb & -> & ->).
  reflexivity.
Defined.

(** X4 (updates commute).  From a reachable state, two [updateRange] calls
    made in either order leave observationally equal states. *)
Theorem X4_updates_commute (m : machine) (l1 r1 v1 l2 r2 v2 : Z) :
  reachable m ->
  exists m12 m21,
    (updateRange l1 r1 v1 ;;; updateRange l2 r2 v2) m = Ok (tt, m12) /\
    (updateRange l2 r2 v2 ;;; updateRange l1 r1 v1) m = Ok (tt, m21) /\
    obs_eq m12 m21.
Proof.
  intros [a HI]%reachable_Inv.
  destruct (updateRange_twice a m l1 r1 v1 l2 r2 v2 HI) as (m12 & H12 & HI12).
  destruct (updateRange_twice a m l2 r2 v2 l1 r1 v1 HI) as (m21 & H21 & HI21).
  exists m12, m21. split; [exact H12|]. split; [exact H21|].
  rewrite mirror_add_comm in HI12. exact (Inv_obs_eq _ _ _ HI12 HI21).
Qed.

Lemma X4_updates_commute_witness :
  reachable scenario_state /\
  exists m12 m21,
    (updateRange 0 2 7 ;;; updateRange 1 4 (-3)) scenario_state = Ok (tt, m12) /\
    (updateRange 1 4 (-3) ;;; updateRange 0 2 7) scenario_state = Ok (tt, m21) /\
    answers (run [Query 0 4; Query 1 1] m12) = answers (run [Query 0 4; Query 1 1] m21).
Proof.
  assert (reachable scenario_state) as Hr
    by (exists [1; 2; 3; 4; 5], [], []; vm_compute; reflexivity).
  split; [exact Hr|].
  destruct (X4_updates_commute scenario_state 0 2 7 1 4 (-3) Hr)
    as (m12 & m21 & H12 & H21 & Hobs).
  exists m12, m21. split; [exact H12|]. split; [exact H21|].
  destruct (Hobs [Query 0 4; Query 1 1]) as (res & ma & mb & -> & ->).
  reflexivity.
Defined.

(** X5 (an update is undone by the opposite update).  From a reachable
    state, [updateRange l r 0] and [updateRange l r delta] followed by
    [updateRange l r (- delta)] both leave states observationally equal to
    the one they started from. *)
Theorem X5_opposite_update_restores_answers (m : machine) (l r delta : Z) :
  reachable m ->
  exists m0 m2,
    updateRange l r 0 m = Ok (tt, m0) /\ obs_eq m0 m /\
    (updateRange l r delta ;;; updateRange l r (- delta)) m = Ok (tt, m2) /\
    obs_eq m2 m.
Proof.
  intros [a HI]%reachable_Inv.
  destruct (updateRange_Inv a l r 0 m HI) as (m0 & H0 & HI0).
  destruct (updateRange_twice a m l r delta l r (- delta) HI) as (m2 & H2 & HI2).
  rewrite mirror_add_zero in HI0.
  rewrite mirror_add_add in HI2.
  replace (delta + - delta) with 0 in HI2 by lia.
  rewrite mirror_add_zero in HI2.
  exists m0, m2. split; [exact H0|]. split; [exact (Inv_obs_eq _ _ _ HI0 HI)|].
  split; [exact H2 | exact (Inv_obs_eq _ _ _ HI2 HI)].
Qed.

Lemma X5_opposite_update_restores_answers_witness :
  reachable scenario_state /\
  exists m2,
    (updateRange 1 3 10 ;;; updateRange 1 3 (- 10)) scenario_state = Ok (tt, m2) /\
    answers (run [Query 0 4; Query 2 3] m2)
    = answers (run [Query 0 4; Query 2 3] scenario_state).
Proof.
  assert (reachable scenario_state) as Hr
    by (exists [1; 2; 3; 4; 5], [], []; vm_compute; reflexivity).
  split; [exact Hr|].
  destruct (X5_opposite_update_restores_answers scenario_state 1 3 10 Hr)
    as (m0 & m2 & _ & _ & H2 & Hobs).
  exists m2. split; [exact H2|].
  destruct (Hobs [Query 0 4; Query 2 3]) as (res & ma & mb & -> & ->).
  reflexivity.
Defined.

(** X6 (only the represented array matters).  The state a session ends in
    is observationally equal to a tree freshly constructed from the array
    the session's updates produce: pending deltas and the history of calls
    are not observable. *)
Theorem X6_history_is_not_observable (arr : list Z) (ops : list op) :
  exists res m m0,
    session arr ops = Ok (res, m) /\
    construct (mirror_after arr ops) fresh = Ok (tt, m0) /\
    obs_eq m m0.
Proof.
  destruct (session_Inv arr ops) as (m & Hs & HI).
  destruct (construct_Inv (mirror_after arr ops)) as (m0 & Hc & HI0).
  exists (mirror_run arr ops), m, m0.
  split; [exact Hs|]. split; [exact Hc | exact (Inv_obs_eq _ _ _ HI HI0)].
Qed.

(** ** Runs from arbitrary states

    The facts below hold for every machine state, reachable or not: they
    are read off a run that ended in [Ok]. *)

(** The part of the object that a routine working at [node] leaves alone:
    [n], the sizes of the two vectors and every position below [node]. *)
Definition frame_below (node : Z) (st st' : SegmentTree) : Prop :=
  n st' = n st /\
  length (tree st') = length (tree st) /\
  length (lazy st') = length (lazy st) /\
  forall p, p < node -> T st' p = T st p /\ L st' p = L st p.

Lemma bind_inv {A B} (c : M A) (k : A -> M B) m r :
  bind c k m = Ok r -> exists a m1, c m = Ok (a, m1) /\ k a m1 = Ok r.
Proof.
  unfold bind. destruct (c m) as [[a m1]| |]; [eauto | discriminate | discriminate].
Qed.

Lemma vec_get_inv (v : list Z) i x :
  vec_get v i = Some x -> 0 <= i < Z.of_nat (length v) /\ x = idx v i.
Proof.
  intros H. unfold idx. rewrite H. unfold vec_get in H.
  case_bool_decide; [|discriminate].
  apply lookup_lt_Some in H. split; [lia | reflexivity].
Qed.

Lemma vec_set_inv (v : list Z) i x v' :
  vec_set v i x = Some v' ->
  0 <= i < Z.of_nat (length v) /\ v' = <[Z.to_nat i := x]> v.
Proof.
  unfold vec_set. case_bool_decide; [|discriminate].
  intros H'. inversion H'. split; [assumption | reflexivity].
Qed.

Lemma ret_inv {A} (a b : A) m m' : ret a m = Ok (b, m') -> b = a /\ m' = m.
Proof. intros H. inversion H. split; reflexivity. Qed.

Lemma log_inv ev st tr u m' :
  log ev (st, tr) = Ok (u, m') -> m' = (st, ev :: tr).
Proof. intros H. inversion H. reflexivity. Qed.

Lemma tree_get_inv i st tr x m' :
  tree_get i (st, tr) = Ok (x, m') ->
  0 <= i < Z.of_nat (length (tree st)) /\ x = T st i /\ m' = (st, Tree i :: tr).
Proof.
  unfold tree_get. simpl. destruct (vec_get (tree st) i) as [y|] eqn:E; [|discriminate].
  intros H. inversion H; subst. apply vec_get_inv in E as [Hb ->]. auto.
Qed.

Lemma lazy_get_inv i st tr x m' :
  lazy_get i (st, tr) = Ok (x, m') ->
  0 <= i < Z.of_nat (length (lazy st)) /\ x = L st i /\ m' = (st, Lazy i :: tr).
Proof.
  unfold lazy_get. simpl. destruct (vec_get (lazy st) i) as [y|] eqn:E; [|discriminate].
  intros H. inversion H; subst. apply vec_get_inv in E as [Hb ->]. auto.
Qed.

Lemma tree_put_inv i x st tr u m' :
  tree_put i x (st, tr) = Ok (u, m') ->
  0 <= i < Z.of_nat (length (tree st)) /\ m' = (tree_upd st i x, Tree i :: tr).
Proof.
  unfold tree_put. simpl. destruct (vec_set (tree st) i x) as [t|] eqn:E; [|discriminate].
  intros H. inversion H; subst. apply vec_set_inv in E as [Hb ->]. auto.
Qed.

Lemma lazy_put_inv i x st tr u m' :
  lazy_put i x (st, tr) = Ok (u, m') ->
  0 <= i < Z.of_nat (length (lazy st)) /\ m' = (lazy_upd st i x, Lazy i :: tr).
Proof.
  unfold lazy_put. simpl. destruct (vec_set (lazy st) i x) as [t|] eqn:E; [|discriminate].
  intros H. inversion H; subst. apply vec_set_inv in E as [Hb ->]. auto.
Qed.

Lemma arr_get_inv arr i m x m' :
  arr_get arr i m = Ok (x, m') ->
  0 <= i < Z.of_nat (length arr) /\ x = idx arr i /\ m' = m.
Proof.
  unfold arr_get. destruct (vec_get arr i) as [y|] eqn:E; [|discriminate].
  intros H. inversion H; subst. apply vec_get_inv in E as [Hb ->]. auto.
Qed.

(** Undoes the next action of a run that ended in [Ok]. *)
Ltac inv_run H :=
  repeat first
    [ rewrite bind_assoc in H
    | rewrite bind_ret in H
    | rewrite bind_log in H
    | let a := fresh "a" in
      let m1 := fresh "m" in
      let Hc := fresh "Hc" in
      let Hb := fresh "Hb" in
      apply bind_inv in H as (a & m1 & Hc & H);
      first
        [ apply tree_get_inv in Hc as (Hb & -> & ->)
        | apply lazy_get_inv in Hc as (Hb & -> & ->)
        | apply tree_put_inv in Hc as (Hb & ->)
        | apply lazy_put_inv in Hc as (Hb & ->)
        | apply arr_get_inv in Hc as (Hb & -> & ->) ] ].

Ltac inv_last H :=
  let Hb := fresh "Hb" in
  first
    [ apply tree_put_inv in H as (Hb & H)
    | apply lazy_put_inv in H as (Hb & H)
    | apply tree_get_inv in H as (Hb & _ & H)
    | apply ret_inv in H as (_ & H) ];
  inversion H; subst; clear H.

Lemma idx_tree_upd st i x q :
  0 <= i < Z.of_nat (length (tree st)) ->
  T (tree_upd st i x) q = if decide (q = i) then x else T st q.
Proof. intros H. unfold T. simpl. apply idx_insert, H. Qed.

Lemma idx_lazy_upd st i x q :
  0 <= i < Z.of_nat (length (lazy st)) ->
  L (lazy_upd st i x) q = if decide (q = i) then x else L st q.
Proof. intros H. unfold L. simpl. apply idx_insert, H. Qed.

Lemma frame_below_refl node st : frame_below node st st.
Proof. repeat split. Qed.

Lemma frame_below_trans node node1 node2 st st1 st2 :
  frame_below node1 st st1 -> frame_below node2 st1 st2 ->
  node <= node1 -> node <= node2 -> frame_below node st st2.
Proof.
  intros (H1 & H2 & H3 & H4) (G1 & G2 & G3 & G4) Hn1 Hn2.
  split; [congruence|]. split; [congruence|]. split; [congruence|].
  intros p Hp. destruct (G4 p ltac:(lia)) as [-> ->]. apply H4. lia.
Qed.

Lemma frame_below_tree_upd node st i x :
  0 <= i < Z.of_nat (length (tree st)) -> node <= i ->
  frame_below node st (tree_upd st i x).
Proof.
  intros Hi Hn. split; [reflexivity|]. split; [simpl; apply length_insert|].
  split; [reflexivity|]. intros p Hp. split; [|reflexivity].
  rewrite idx_tree_upd by exact Hi. destruct (decide (p = i)); [lia | reflexivity].
Qed.

Lemma frame_below_lazy_upd node st i x :
  0 <= i < Z.of_nat (length (lazy st)) -> node <= i ->
  frame_below node st (lazy_upd st i x).
Proof.
  intros Hi Hn. split; [reflexivity|]. split; [reflexivity|].
  split; [simpl; apply length_insert|]. intros p Hp. split; [reflexivity|].
  rewrite idx_lazy_upd by exact Hi. destruct (decide (p = i)); [lia | reflexivity].
Qed.

(** The entries of a trace that record a call of the routine [f]. *)
Definition is_call_of (f : routine) (ev : event) : bool :=
  match ev, f with
  | Call BuildRec _ _ _, BuildRec
  | Call UpdateRec _ _ _, UpdateRec
  | Call QueryRec _ _ _, QueryRec => true
  | _, _ => false
  end.

Fixpoint calls_of (f : routine) (tr : list event) : nat :=
  match tr with
  | [] => O
  | ev :: tr => ((if is_call_of f ev then 1 else 0) + calls_of f tr)%nat
  end.

(** The subscripts of [lazy] in a trace. *)
Fixpoint lazy_subscripts (tr : list event) : nat :=
  match tr with
  | [] => O
  | Lazy _ :: tr => S (lazy_subscripts tr)
  | _ :: tr => lazy_subscripts tr
  end.

Ltac frame_chain node :=
  repeat first
    [ apply frame_below_refl
    | assumption
    | eapply (frame_below_trans node node node);
      [ | apply frame_below_lazy_upd;
          [simpl; rewrite ?length_insert; lia | lia]
        | apply Z.le_refl | apply Z.le_refl ]
    | eapply (frame_below_trans node node node);
      [ | apply frame_below_tree_upd;
          [simpl; rewrite ?length_insert; lia | lia]
        | apply Z.le_refl | apply Z.le_refl ] ].

Lemma push_effect node s e st tr u st' tr' :
  push node s e (st, tr) = Ok (u, (st', tr')) ->
  0 <= node < Z.of_nat (length (lazy st)) /\
  frame_below node st st' /\
  L st' node = 0 /\
  (L st node = 0 -> st' = st) /\
  (forall f, calls_of f tr' = calls_of f tr) /\
  (length tr' <= length tr + 11)%nat.
Proof.
  intros H. unfold push in H. inv_run H.
  case_bool_decide as Hd.
  - inv_run H. case_bool_decide as Hse.
    + inv_run H. inv_last H.
      simpl in *. rewrite ?length_insert in *.
      split; [lia|]. split; [frame_chain node|].
      split; [rewrite idx_lazy_upd by (simpl; rewrite ?length_insert; lia);
              destruct (decide (node = node)); [reflexivity | lia]|].
      split; [intros Hz; contradiction|].
      split; [intros f; reflexivity | lia].
    + inv_run H. inv_last H.
      simpl in *. rewrite ?length_insert in *.
      split; [lia|]. split; [frame_chain node|].
      split; [rewrite idx_lazy_upd by (simpl; rewrite ?length_insert; lia);
              destruct (decide (node = node)); [reflexivity | lia]|].
      split; [intros Hz; contradiction|].
      split; [intros f; reflexivity | lia].
  - inv_last H.
    split; [lia|]. split; [apply frame_below_refl|].
    split; [assumption|]. split; [reflexivity|].
    split; [intros f; reflexivity | simpl; lia].
Qed.

Lemma update_recursive_effect (fuel : nat) :
  forall node s e l r val st tr u st' tr',
  1 <= node ->
  update_recursive fuel node s e l r val (st, tr) = Ok (u, (st', tr')) ->
  frame_below node st st' /\ L st' node = 0.
Proof.
  induction fuel as [|fuel IH]; intros node s e l r val st tr u st' tr' Hn H;
    [discriminate|].
  simpl update_recursive in H. rewrite bind_log in H.
  apply bind_inv in H as (u1 & [st1 tr1] & Hpush & H).
  apply push_effect in Hpush as (_ & Hfr1 & Hz1 & _).
  case_bool_decide as Hdis.
  - inv_last H. split; assumption.
  - case_bool_decide as Hin.
    + inv_run H. case_bool_decide as Hse.
      * inv_run H. inv_last H. simpl in *. rewrite ?length_insert in *.
        split; [frame_chain node|].
        rewrite !idx_lazy_upd by (simpl; rewrite ?length_insert; lia).
        repeat goal_decide Hd; try lia. exact Hz1.
      * inv_last H. split; [frame_chain node | exact Hz1].
    + cbv zeta in H.
      apply bind_inv in H as (u2 & [st2 tr2] & Hl & H).
      apply bind_inv in H as (u3 & [st3 tr3] & Hr & H).
      apply IH in Hl as [Hfr2 _]; [|lia].
      apply IH in Hr as [Hfr3 _]; [|lia].
      inv_run H. inv_last H.
      assert (frame_below node st st3) as Hfr.
      { eapply (frame_below_trans node node (2 * node + 1)); [|exact Hfr3|lia|lia].
        eapply (frame_below_trans node node (2 * node)); [|exact Hfr2|lia|lia].
        exact Hfr1. }
      split; [frame_chain node|].
      change (L (tree_upd st3 node (T st3 (2 * node) + T st3 (2 * node + 1))) node)
        with (L st3 node).
      destruct Hfr3 as (_ & _ & _ & Hp3). destruct (Hp3 node ltac:(lia)) as [_ ->].
      destruct Hfr2 as (_ & _ & _ & Hp2). destruct (Hp2 node ltac:(lia)) as [_ ->].
      exact Hz1.
Qed.

Lemma query_recursive_effect (fuel : nat) :
  forall node s e l r st tr x st' tr',
  1 <= node ->
  query_recursive fuel node s e l r (st, tr) = Ok (x, (st', tr')) ->
  frame_below node st st' /\
  (L st node = 0 -> L st' node = 0) /\
  ((forall p, L st p = 0) -> st' = st).
Proof.
  induction fuel as [|fuel IH]; intros node s e l r st tr x st' tr' Hn H;
    [discriminate|].
  simpl query_recursive in H. rewrite bind_log in H.
  case_bool_decide as Hdis.
  - inv_last H. split; [apply frame_below_refl|]. split; auto.
  - apply bind_inv in H as (u1 & [st1 tr1] & Hpush & H).
    apply push_effect in Hpush as (_ & Hfr1 & Hz1 & Hsame1 & _).
    case_bool_decide as Hin.
    + inv_last H. split; [exact Hfr1|]. split; [intros _; exact Hz1|].
      intros Hall. apply Hsame1, Hall.
    + cbv zeta in H.
      apply bind_inv in H as (p1 & [st2 tr2] & Hl & H).
      apply bind_inv in H as (p2 & [st3 tr3] & Hr & H).
      apply IH in Hl as (Hfr2 & _ & Hsame2); [|lia].
      apply IH in Hr as (Hfr3 & _ & Hsame3); [|lia].
      inv_last H.
      split; [|split].
      * eapply (frame_below_trans node node (2 * node + 1)); [|exact Hfr3|lia|lia].
        eapply (frame_below_trans node node (2 * node)); [|exact Hfr2|lia|lia].
        exact Hfr1.
      * intros _.
        destruct Hfr3 as (_ & _ & _ & Hp3). destruct (Hp3 node ltac:(lia)) as [_ ->].
        destruct Hfr2 as (_ & _ & _ & Hp2). destruct (Hp2 node ltac:(lia)) as [_ ->].
        exact Hz1.
      * intros Hall.
        assert (st1 = st) as -> by (apply Hsame1, Hall).
        assert (st2 = st) as -> by (apply Hsame2, Hall).
        apply Hsame3, Hall.
Qed.

Lemma updateRange_effect l r val st tr u st' tr' :
  updateRange l r val (st, tr) = Ok (u, (st', tr')) ->
  frame_below ROOT_NODE st st' /\ (L st ROOT_NODE = 0 -> L st' ROOT_NODE = 0).
Proof.
  unfold updateRange. simpl. case_bool_decide as Hg; intros H.
  - inversion H; subst. split; [apply frame_below_refl | auto].
  - apply update_recursive_effect in H as [Hfr Hz]; [|unfold ROOT_NODE; lia].
    split; [exact Hfr | intros _; exact Hz].
Qed.

Lemma queryRange_effect l r st tr x st' tr' :
  queryRange l r (st, tr) = Ok (x, (st', tr')) ->
  frame_below ROOT_NODE st st' /\ (L st ROOT_NODE = 0 -> L st' ROOT_NODE = 0) /\
  ((forall p, L st p = 0) -> st' = st).
Proof.
  unfold queryRange. simpl. case_bool_decide as Hg; intros H.
  - inversion H; subst. split; [apply frame_below_refl | auto].
  - apply query_recursive_effect in H; [exact H | unfold ROOT_NODE; lia].
Qed.

(** ** The cost of the construction *)

Lemma build_recursive_effect arr (fuel : nat) :
  forall node s e st tr u st' tr',
  s <= e ->
  build_recursive fuel arr node s e (st, tr) = Ok (u, (st', tr')) ->
  lazy st' = lazy st /\ n st' = n st /\
  length (tree st') = length (tree st) /\
  Z.of_nat (calls_of BuildRec tr')
  = Z.of_nat (calls_of BuildRec tr) + 2 * (e - s + 1) - 1 /\
  Z.of_nat (length tr') = Z.of_nat (length tr) + 6 * (e - s + 1) - 4 /\
  lazy_subscripts tr' = lazy_subscripts tr.
Proof.
  induction fuel as [|fuel IH]; intros node s e st tr u st' tr' Hse H;
    [discriminate|].
  simpl build_recursive in H. rewrite bind_log in H.
  case_bool_decide as Heq.
  - inv_run H. inv_last H. simpl. rewrite length_insert.
    repeat split; lia.
  - cbv zeta in H.
    pose proof (midpoint_bounds s e ltac:(lia)) as Hm.
    apply bind_inv in H as (u2 & [st2 tr2] & Hl & H).
    apply bind_inv in H as (u3 & [st3 tr3] & Hr & H).
    apply IH in Hl as (Hl1 & Hl2 & Hl3 & Hl4 & Hl5 & Hl6); [|lia].
    apply IH in Hr as (Hr1 & Hr2 & Hr3 & Hr4 & Hr5 & Hr6); [|lia].
    inv_run H. inv_last H. simpl in *. rewrite length_insert.
    split; [congruence|]. split; [congruence|]. split; [congruence|].
    split; [lia|]. split; [lia|]. congruence.
Qed.

Lemma construct_effect arr u st tr :
  construct arr fresh = Ok (u, (st, tr)) ->
  n st = Z.of_nat (length arr) /\ (forall p, L st p = 0) /\
  (Z.of_nat (length arr) <> 0 ->
   lazy st = replicate (Z.to_nat (4 * Z.of_nat (length arr))) 0 /\
   Z.of_nat (calls_of BuildRec tr) = 2 * Z.of_nat (length arr) - 1 /\
   Z.of_nat (length tr) = 6 * Z.of_nat (length arr) - 4 /\
   lazy_subscripts tr = O).
Proof.
  unfold construct, fresh. simpl. case_bool_decide as Hsz; intros H.
  - inversion H; subst. simpl. split; [reflexivity|].
    split; [intros p; unfold L, idx, vec_get; simpl; case_bool_decide; reflexivity|].
    intros Hnz. lia.
  - rewrite !resize_nil in H.
    apply build_recursive_effect in H as (Hl & Hn & _ & Hc & Hlen & Hls); [|lia].
    simpl in *. split; [exact Hn|].
    split; [intros p; unfold L; rewrite Hl; apply idx_replicate|].
    intros _. split; [exact Hl|]. split; [lia|]. split; [lia | exact Hls].
Qed.

(** ** The root of the tree *)

Lemma run_effect ops : forall st tr res st' tr',
  run ops (st, tr) = Ok (res, (st', tr')) ->
  frame_below ROOT_NODE st st' /\ (L st ROOT_NODE = 0 -> L st' ROOT_NODE = 0).
Proof.
  induction ops as [|[l r val | l r] ops IH]; intros st tr res st' tr' H;
    simpl in H.
  - inversion H; subst. split; [apply frame_below_refl | auto].
  - apply bind_inv in H as (u & [st1 tr1] & Hu & H).
    apply updateRange_effect in Hu as [Hfr1 Hz1].
    apply IH in H as [Hfr2 Hz2]. split; [|auto].
    eapply frame_below_trans; [exact Hfr1 | exact Hfr2 | lia | lia].
  - apply bind_inv in H as (x & [st1 tr1] & Hq & H).
    apply queryRange_effect in Hq as (Hfr1 & Hz1 & _).
    apply bind_inv in H as (xs & [st2 tr2] & Hr & H).
    apply IH in Hr as [Hfr2 Hz2]. inversion H; subst. split; [|auto].
    eapply frame_below_trans; [exact Hfr1 | exact Hfr2 | lia | lia].
Qed.

(** ** Queries before the first update *)

Definition queries (qs : list (Z * Z)) : list op :=
  map (fun q => Query q.1 q.2) qs.

Lemma run_queries_effect qs : forall st tr res st' tr',
  run (queries qs) (st, tr) = Ok (res, (st', tr')) ->
  (forall p, L st p = 0) -> st' = st.
Proof.
  induction qs as [|[l r] qs IH]; intros st tr res st' tr' H Hz; simpl in H.
  - inversion H; subst. reflexivity.
  - apply bind_inv in H as (x & [st1 tr1] & Hq & H).
    apply queryRange_effect in Hq as (_ & _ & Hsame).
    specialize (Hsame Hz). subst st1.
    apply bind_inv in H as (xs & [st2 tr2] & Hr & H).
    apply IH in Hr; [|exact Hz]. inversion H; subst. reflexivity.
Qed.

(** X10 (queries are read-only until the first update).  After the
    construction, any sequence of [queryRange] calls, with valid ranges or
    not, runs to its end and leaves the object exactly as the constructor
    left it: [tree], [lazy] and [n] are unchanged. *)
Theorem X10_queries_before_first_update_are_read_only
    (arr : list Z) (qs : list (Z * Z)) :
  exists m0 res m,
    construct arr fresh = Ok (tt, m0) /\
    run (queries qs) m0 = Ok (res, m) /\
    m.1 = m0.1.
Proof.
  destruct (construct_Inv arr) as ([st0 tr0] & Hc & HI).
  destruct (run_Inv (queries qs) arr (st0, tr0) HI) as ([st tr] & Hr & _).
  exists (st0, tr0), (mirror_run arr (queries qs)), (st, tr).
  split; [exact Hc|]. split; [exact Hr|].
  apply construct_effect in Hc as (_ & Hz & _).
  exact (run_queries_effect qs _ _ _ _ _ Hr Hz).
Qed.

(** ** Push-down on any state *)

(** X11 (push-down clears the node and is idempotent).  On any machine
    state, when [push] returns, the pending slot of the node is zero, and a
    second [push] of the same node returns with the object unchanged. *)
Theorem X11_push_clears_and_is_idempotent
    (node s e : Z) (m m1 : machine) :
  push node s e m = Ok (tt, m1) ->
  L m1.1 node = 0 /\
  push node s e m1 = Ok (tt, (m1.1, Lazy node :: m1.2)).
Proof.
  destruct m as [st tr], m1 as [st1 tr1]. intros H.
  apply push_effect in H as (Hb & (_ & _ & Hlen & _) & Hz & _).
  simpl. split; [exact Hz|].
  unfold push, bind, lazy_get. simpl.
  rewrite vec_get_idx by lia. fold (L st1 node). rewrite Hz.
  rewrite bool_decide_eq_false_2 by (intros Hne; apply Hne; reflexivity).
  reflexivity.
Qed.

Lemma X11_push_clears_and_is_idempotent_witness :
  exists m1,
    push 2 0 0 pending_leaf_state = Ok (tt, m1) /\
    T m1.1 2 = 6 /\ L m1.1 2 = 0 /\
    push 2 0 0 m1 = Ok (tt, (m1.1, Lazy 2 :: m1.2)).
Proof.
  destruct (push 2 0 0 pending_leaf_state) as [[[] m1]| |] eqn:Hp;
    try (vm_compute in Hp; discriminate).
  exists m1. split; [reflexivity|].
  destruct (X11_push_clears_and_is_idempotent 2 0 0 pending_leaf_state m1 Hp)
    as [Hz Hagain].
  split; [|split; [exact Hz | exact Hagain]].
  vm_compute in Hp. injection Hp as <-. vm_compute. reflexivity.
Defined.

(** ** The cost of an update and of a query *)

Lemma pow2_halves h s e :
  0 <= h -> s < e -> e - s + 1 <= 2 ^ h ->
  0 <= h - 1 /\
  midpoint s e - s + 1 <= 2 ^ (h - 1) /\
  e - (midpoint s e + 1) + 1 <= 2 ^ (h - 1).
Proof.
  intros Hh Hlt Hlen.
  pose proof (midpoint_halves s e ltac:(lia)) as Hm.
  assert (h <> 0) as Hnz by (intros ->; simpl in Hlen; lia).
  replace h with (Z.succ (h - 1)) in Hlen by lia.
  rewrite Z.pow_succ_r in Hlen by lia. lia.
Qed.

Lemma update_recursive_cost (fuel : nat) :
  forall h node s e l r val st tr u st' tr',
  0 <= h -> s <= e -> e - s + 1 <= 2 ^ h ->
  update_recursive fuel node s e l r val (st, tr) = Ok (u, (st', tr')) ->
  exists c,
    Z.of_nat (calls_of UpdateRec tr') = Z.of_nat (calls_of UpdateRec tr) + c /\
    1 <= c <= 4 * h + 1 /\
    (l <= s \/ e <= r -> c <= 2 * h + 1) /\
    (s > r \/ e < l \/ (l <= s /\ e <= r) -> c = 1) /\
    Z.of_nat (length tr') <= Z.of_nat (length tr) + 18 * c.
Proof.
  induction fuel as [|fuel IH];
    intros h node s e l r val st tr u st' tr' Hh Hse Hlen H; [discriminate|].
  simpl update_recursive in H. rewrite bind_log in H.
  apply bind_inv in H as (u1 & [st1 tr1] & Hpush & H).
  apply push_effect in Hpush as (_ & _ & _ & _ & Hcalls1 & Hlen1).
  specialize (Hcalls1 UpdateRec). simpl in Hcalls1, Hlen1.
  case_bool_decide as Hdis.
  - inv_last H. exists 1. repeat split; lia.
  - case_bool_decide as Hin.
    + inv_run H. case_bool_decide as Hne.
      * inv_run H. inv_last H. exists 1. simpl. repeat split; lia.
      * inv_last H. exists 1. simpl. repeat split; lia.
    + cbv zeta in H. assert (s < e) as Hlt by lia.
      pose proof (midpoint_bounds s e Hlt) as Hm.
      destruct (pow2_halves h s e Hh Hlt Hlen) as (Hh' & Hl2 & Hr2).
      apply bind_inv in H as (u2 & [st2 tr2] & Hl & H).
      apply bind_inv in H as (u3 & [st3 tr3] & Hr & H).
      apply (IH (h - 1)) in Hl as (cl & Hcl & Hbl & Honel & Hexl & Hlenl);
        [|lia|lia|lia].
      apply (IH (h - 1)) in Hr as (cr & Hcr & Hbr & Honer & Hexr & Hlenr);
        [|lia|lia|lia].
      inv_run H. inv_last H. exists (1 + cl + cr). simpl.
      split; [lia|].
      assert (1 + cl + cr <= 4 * h - 1 /\
              (l <= s \/ e <= r -> 1 + cl + cr <= 2 * h + 1)) as [Hgen Hone].
      { destruct (Z_le_gt_dec r (midpoint s e)) as [Hrm|Hrm].
        - specialize (Hexr ltac:(lia)). split; [lia|].
          intros Hside. specialize (Honel ltac:(lia)). lia.
        - destruct (Z_le_gt_dec l (midpoint s e)) as [Hlm|Hlm].
          + specialize (Honel ltac:(lia)). specialize (Honer ltac:(lia)).
            split; [lia|]. intros [Hside|Hside].
            * specialize (Hexl ltac:(lia)). lia.
            * specialize (Hexr ltac:(lia)). lia.
          + specialize (Hexl ltac:(lia)). split; [lia|].
            intros Hside. specialize (Honer ltac:(lia)). lia. }
      split; [lia|]. split; [exact Hone|]. split; [lia | lia].
Qed.

Lemma query_recursive_cost (fuel : nat) :
  forall h node s e l r st tr x st' tr',
  0 <= h -> s <= e -> e - s + 1 <= 2 ^ h ->
  query_recursive fuel node s e l r (st, tr) = Ok (x, (st', tr')) ->
  exists c,
    Z.of_nat (calls_of QueryRec tr') = Z.of_nat (calls_of QueryRec tr) + c /\
    1 <= c <= 4 * h + 1 /\
    (l <= s \/ e <= r -> c <= 2 * h + 1) /\
    (s > r \/ e < l \/ (l <= s /\ e <= r) -> c = 1) /\
    Z.of_nat (length tr') <= Z.of_nat (length tr) + 13 * c.
Proof.
  induction fuel as [|fuel IH];
    intros h node s e l r st tr x st' tr' Hh Hse Hlen H; [discriminate|].
  simpl query_recursive in H. rewrite bind_log in H.
  case_bool_decide as Hdis.
  - inv_last H. exists 1. simpl. repeat split; lia.
  - apply bind_inv in H as (u1 & [st1 tr1] & Hpush & H).
    apply push_effect in Hpush as (_ & _ & _ & _ & Hcalls1 & Hlen1).
    specialize (Hcalls1 QueryRec). simpl in Hcalls1, Hlen1.
    case_bool_decide as Hin.
    + inv_last H. exists 1. simpl. repeat split; lia.
    + cbv zeta in H. assert (s < e) as Hlt by lia.
      pose proof (midpoint_bounds s e Hlt) as Hm.
      destruct (pow2_halves h s e Hh Hlt Hlen) as (Hh' & Hl2 & Hr2).
      apply bind_inv in H as (p1 & [st2 tr2] & Hl & H).
      apply bind_inv in H as (p2 & [st3 tr3] & Hr & H).
      apply (IH (h - 1)) in Hl as (cl & Hcl & Hbl & Honel & Hexl & Hlenl);
        [|lia|lia|lia].
      apply (IH (h - 1)) in Hr as (cr & Hcr & Hbr & Honer & Hexr & Hlenr);
        [|lia|lia|lia].
      inv_last H. exists (1 + cl + cr).
      split; [lia|].
      assert (1 + cl + cr <= 4 * h - 1 /\
              (l <= s \/ e <= r -> 1 + cl + cr <= 2 * h + 1)) as [Hgen Hone].
      { destruct (Z_le_gt_dec r (midpoint s e)) as [Hrm|Hrm].
        - specialize (Hexr ltac:(lia)). split; [lia|].
          intros Hside. specialize (Honel ltac:(lia)). lia.
        - destruct (Z_le_gt_dec l (midpoint s e)) as [Hlm|Hlm].
          + specialize (Honel ltac:(lia)). specialize (Honer ltac:(lia)).
            split; [lia|]. intros [Hside|Hside].
            * specialize (Hexl ltac:(lia)). lia.
            * specialize (Hexr ltac:(lia)). lia.
          + specialize (Hexl ltac:(lia)). split; [lia|].
            intros Hside. specialize (Honer ltac:(lia)). lia. }
      split; [lia|]. split; [exact Hone|]. split; [lia | lia].
Qed.

Lemma size_le_pow2 N : 1 <= N -> 0 <= Z.log2_up N /\ N <= 2 ^ Z.log2_up N.
Proof.
  intros H. split; [apply Z.log2_up_nonneg|].
  destruct (Z.eq_dec N 1) as [->|Hne]; [reflexivity|].
  apply Z.log2_up_spec. lia.
Qed.

(** X12 (an update is logarithmic).  In a reachable state of a tree over [N]
    elements, [updateRange] returns after at most [4 * log2_up N + 1] entries
    into [update_recursive], at most [2 * log2_up N + 1] when the range
    starts at index 0 or ends at index [N - 1], and after at most 18 trace
    events (subscripts and calls) per entry. *)
Theorem X12_update_is_logarithmic (m : machine) (l r val : Z) :
  reachable m ->
  exists m' c,
    updateRange l r val m = Ok (tt, m') /\
    Z.of_nat (calls_of UpdateRec m'.2) = Z.of_nat (calls_of UpdateRec m.2) + c /\
    0 <= c <= 4 * Z.log2_up (n m.1) + 1 /\
    (l <= 0 \/ n m.1 - 1 <= r -> c <= 2 * Z.log2_up (n m.1) + 1) /\
    Z.of_nat (length m'.2) <= Z.of_nat (length m.2) + 18 * c.
Proof.
  intros [a HI]%reachable_Inv.
  destruct (updateRange_Inv a l r val m HI) as ([st' tr'] & Hu & _).
  destruct m as [st tr]. exists (st', tr').
  pose proof (Z.log2_up_nonneg (n st)) as Hlog.
  pose proof Hu as Hu'.
  unfold updateRange in Hu'. simpl in *. revert Hu'.
  case_bool_decide as Hg; intros Hu'.
  - inversion Hu'; subst. exists 0. split; [exact Hu|]. repeat split; lia.
  - destruct (size_le_pow2 (n st) ltac:(lia)) as [Hh Hpow].
    apply (update_recursive_cost _ (Z.log2_up (n st))) in Hu'
      as (c & Hc & Hb & Hone & _ & Hlen); [|lia|lia|lia].
    exists c. split; [exact Hu|]. split; [exact Hc|]. split; [lia|].
    split; [intros Hside; apply Hone; lia | exact Hlen].
Qed.

Lemma X12_update_is_logarithmic_witness :
  reachable scenario_state /\
  exists m' c,
    updateRange 1 3 10 scenario_state = Ok (tt, m') /\
    Z.of_nat (calls_of UpdateRec m'.2)
    = Z.of_nat (calls_of UpdateRec scenario_state.2) + c /\
    0 <= c <= 4 * 3 + 1.
Proof.
  assert (reachable scenario_state) as Hr
    by (exists [1; 2; 3; 4; 5], [], []; vm_compute; reflexivity).
  split; [exact Hr|].
  destruct (X12_update_is_logarithmic scenario_state 1 3 10 Hr)
    as (m' & c & Hu & Hc & Hb & _).
  exists m', c. split; [exact Hu|]. split; [exact Hc | exact Hb].
Defined.

(** X13 (a query is logarithmic).  In a reachable state of a tree over [N]
    elements, [queryRange] returns after at most [4 * log2_up N + 1] entries
    into [query_recursive], at most [2 * log2_up N + 1] when the range
    starts at index 0 or ends at index [N - 1], and after at most 13 trace
    events per entry. *)
Theorem X13_query_is_logarithmic (m : machine) (l r : Z) :
  reachable m ->
  exists x m' c,
    queryRange l r m = Ok (x, m') /\
    Z.of_nat (calls_of QueryRec m'.2) = Z.of_nat (calls_of QueryRec m.2) + c /\
    0 <= c <= 4 * Z.log2_up (n m.1) + 1 /\
    (l <= 0 \/ n m.1 - 1 <= r -> c <= 2 * Z.log2_up (n m.1) + 1) /\
    Z.of_nat (length m'.2) <= Z.of_nat (length m.2) + 13 * c.
Proof.
  intros [a HI]%reachable_Inv.
  destruct (queryRange_Inv a l r m HI) as ([st' tr'] & Hq & _).
  destruct m as [st tr]. exists (mirror_sum l r a), (st', tr').
  pose proof (Z.log2_up_nonneg (n st)) as Hlog.
  pose proof Hq as Hq'.
  unfold queryRange in Hq'. simpl in *. revert Hq'.
  case_bool_decide as Hg; intros Hq'.
  - injection Hq' as _ -> ->. exists 0. split; [exact Hq|]. repeat split; lia.
  - destruct (size_le_pow2 (n st) ltac:(lia)) as [Hh Hpow].
    apply (query_recursive_cost _ (Z.log2_up (n st))) in Hq'
      as (c & Hc & Hb & Hone & _ & Hlen); [|lia|lia|lia].
    exists c. split; [exact Hq|]. split; [exact Hc|]. split; [lia|].
    split; [intros Hside; apply Hone; lia | exact Hlen].
Qed.

Lemma X13_query_is_logarithmic_witness :
  reachable pending_leaf_state /\
  exists x m' c,
    queryRange 0 0 pending_leaf_state = Ok (x, m') /\
    Z.of_nat (calls_of QueryRec m'.2)
    = Z.of_nat (calls_of QueryRec pending_leaf_state.2) + c /\
    0 <= c <= 4 * 1 + 1.
Proof.
  assert (reachable pending_leaf_state) as Hr
    by (exists [1; 2], [Update 0 1 5], []; vm_compute; reflexivity).
  split; [exact Hr|].
  destruct (X13_query_is_logarithmic pending_leaf_state 0 0 Hr)
    as (x & m' & c & Hq & Hc & Hb & _).
  exists x, m', c. split; [exact Hq|]. split; [exact Hc | exact Hb].
Defined.

(** ** The depth of the recursion *)

Lemma build_recursive_depth (f1 : nat) : forall f2 h arr node s e m,
  0 <= h -> s <= e -> e - s + 1 <= 2 ^ h ->
  h < Z.of_nat f1 -> h < Z.of_nat f2 ->
  build_recursive f1 arr node s e m = build_recursive f2 arr node s e m.
Proof.
  induction f1 as [|f1 IH]; intros [|f2] h arr node s e m Hh Hse Hlen H1 H2;
    try lia.
  simpl build_recursive. apply bind_cong; [reflexivity | intros _ m1].
  case_bool_decide as Heq; [reflexivity|].
  assert (s < e) as Hlt by lia.
  pose proof (midpoint_bounds s e Hlt) as Hm.
  destruct (pow2_halves h s e Hh Hlt Hlen) as (Hh' & Hl2 & Hr2). cbv zeta.
  apply bind_cong; [intros m'; apply (IH _ (h - 1)); lia | intros _ m2].
  apply bind_cong; [intros m'; apply (IH _ (h - 1)); lia | reflexivity].
Qed.

Lemma update_recursive_depth (f1 : nat) : forall f2 h node s e l r val m,
  0 <= h -> e - s + 1 <= 2 ^ h ->
  h < Z.of_nat f1 -> h < Z.of_nat f2 ->
  update_recursive f1 node s e l r val m = update_recursive f2 node s e l r val m.
Proof.
  induction f1 as [|f1 IH]; intros [|f2] h node s e l r val m Hh Hlen H1 H2;
    try lia.
  simpl update_recursive. apply bind_cong; [reflexivity | intros _ m1].
  apply bind_cong; [reflexivity | intros _ m2].
  case_bool_decide as Hdis; [reflexivity|].
  case_bool_decide as Hin; [reflexivity|].
  assert (s < e) as Hlt by lia.
  pose proof (midpoint_bounds s e Hlt) as Hm.
  destruct (pow2_halves h s e Hh Hlt Hlen) as (Hh' & Hl2 & Hr2). cbv zeta.
  apply bind_cong; [intros m'; apply (IH _ (h - 1)); lia | intros _ m3].
  apply bind_cong; [intros m'; apply (IH _ (h - 1)); lia | reflexivity].
Qed.

Lemma query_recursive_depth (f1 : nat) : forall f2 h node s e l r m,
  0 <= h -> e - s + 1 <= 2 ^ h ->
  h < Z.of_nat f1 -> h < Z.of_nat f2 ->
  query_recursive f1 node s e l r m = query_recursive f2 node s e l r m.
Proof.
  induction f1 as [|f1 IH]; intros [|f2] h node s e l r m Hh Hlen H1 H2;
    try lia.
  simpl query_recursive. apply bind_cong; [reflexivity | intros _ m1].
  case_bool_decide as Hdis; [reflexivity|].
  apply bind_cong; [reflexivity | intros _ m2].
  case_bool_decide as Hin; [reflexivity|].
  assert (s < e) as Hlt by lia.
  pose proof (midpoint_bounds s e Hlt) as Hm.
  destruct (pow2_halves h s e Hh Hlt Hlen) as (Hh' & Hl2 & Hr2). cbv zeta.
  apply bind_cong; [intros m'; apply (IH _ (h - 1)); lia | intros p1 m3].
  apply bind_cong; [intros m'; apply (IH _ (h - 1)); lia | reflexivity].
Qed.

(** X14 (the recursion is logarithmically deep).  On a range with
    [0 <= start <= end], a depth bound above [log2_up (end - start + 1)] is
    never exceeded by [build_recursive], [update_recursive] or
    [query_recursive], and each returns what it returns under any larger
    bound. *)
Theorem X14_recursion_depth_is_logarithmic
    (fuel : nat) (node s e : Z) :
  0 <= s <= e -> Z.log2_up (e - s + 1) < Z.of_nat fuel ->
  (forall arr, halts (build_recursive fuel arr node s e)) /\
  (forall l r val, halts (update_recursive fuel node s e l r val)) /\
  (forall l r, halts (query_recursive fuel node s e l r)) /\
  (forall (fuel' : nat) m, (fuel <= fuel')%nat ->
     (forall arr, build_recursive fuel' arr node s e m
                  = build_recursive fuel arr node s e m) /\
     (forall l r val, update_recursive fuel' node s e l r val m
                      = update_recursive fuel node s e l r val m) /\
     (forall l r, query_recursive fuel' node s e l r m
                  = query_recursive fuel node s e l r m)).
Proof.
  intros Hse Hf.
  destruct (size_le_pow2 (e - s + 1) ltac:(lia)) as [Hh Hpow].
  set (h := Z.log2_up (e - s + 1)) in *.
  set (big := (fuel + Z.to_nat (e - s + 1))%nat).
  split; [|split; [|split]].
  - intros arr m.
    rewrite (build_recursive_depth fuel big h) by lia.
    apply build_recursive_halts; lia.
  - intros l r val m.
    rewrite (update_recursive_depth fuel big h) by lia.
    apply update_recursive_halts; lia.
  - intros l r m.
    rewrite (query_recursive_depth fuel big h) by lia.
    apply query_recursive_halts; lia.
  - intros fuel' m Hle. split; [|split].
    + intros arr. apply (build_recursive_depth _ _ h); lia.
    + intros l r val. apply (update_recursive_depth _ _ h); lia.
    + intros l r. apply (query_recursive_depth _ _ h); lia.
Qed.

Lemma X14_recursion_depth_is_logarithmic_witness :
  0 <= 0 <= 4 /\ Z.log2_up (4 - 0 + 1) < Z.of_nat 4 /\
  update_recursive 4 1 0 4 1 3 10 scenario_state <> OutOfFuel /\
  update_recursive 5 1 0 4 1 3 10 scenario_state
  = update_recursive 4 1 0 4 1 3 10 scenario_state.
Proof.
  assert (0 <= 0 <= 4) as Hse by lia.
  assert (Z.log2_up (4 - 0 + 1) < Z.of_nat 4) as Hf by (vm_compute; reflexivity).
  split; [exact Hse|]. split; [exact Hf|].
  destruct (X14_recursion_depth_is_logarithmic 4 1 0 4 Hse Hf)
    as (_ & Hu & _ & Hsame).
  split; [apply Hu|].
  destruct (Hsame 5%nat scenario_state ltac:(lia)) as (_ & Hu5 & _). apply Hu5.
Defined.

(** ** Calls on the whole range *)

Lemma reachable_root m :
  reachable m -> n m.1 <> 0 ->
  L m.1 ROOT_NODE = 0 /\ sized (4 * n m.1) m.1.
Proof.
  intros (arr & ops & res & Hs) Hnz.
  pose proof (session_unique _ _ _ _ Hs) as [_ (Hn & _ & Hrep)].
  rewrite <- Hn in Hrep. destruct (Hrep Hnz) as [Hsz _].
  split; [|exact Hsz].
  unfold session in Hs. apply bind_inv in Hs as (u & [st0 tr0] & Hc & Hr).
  apply construct_effect in Hc as (_ & Hz0 & _).
  destruct m as [st tr]. apply run_effect in Hr as [_ Hz]. simpl.
  apply Hz, Hz0.
Qed.

(** * The machine reading of [int]

    The development above reads [int] as [Z], which is the reading of a
    specification that assumes no integer overflow.  This part reads [int]
    as the compiled code has it: a 32-bit two's-complement integer, every
    arithmetic operation followed by the reduction [wrap] into
    [[INT_MIN, INT_MAX]].  (C++ leaves signed overflow undefined; the
    wrap-around is what the source compiles to on the usual targets.)  The
    routines are embedded a second time with that arithmetic, line by line,
    and the second embedding is shown to simulate the first: its vectors
    hold the [wrap] of what the ideal vectors hold, and its trace is a
    subsequence of the ideal trace. *)

(** ** 32-bit arithmetic *)

Definition INT_MIN : Z := -2147483648.
Definition INT_MAX : Z := 2147483647.

Definition in_int (x : Z) : Prop := INT_MIN <= x <= INT_MAX.

(** The [int] that is congruent to [x] modulo [2 ^ 32]. *)
Definition wrap (x : Z) : Z := (x + 2147483648) mod 4294967296 - 2147483648.
Arguments wrap : simpl never.

Module Int32.

(** The operations [+], [-], [*] and [/] of [int]. *)
Definition add (x y : Z) : Z := wrap (x + y).
Definition sub (x y : Z) : Z := wrap (x - y).
Definition mul (x y : Z) : Z := wrap (x * y).
Definition div (x y : Z) : Z := wrap (Z.quot x y).

Notation "x [+] y" := (add x y) (at level 50, left associativity).
Notation "x [-] y" := (sub x y) (at level 50, left associativity).
Notation "x [*] y" := (mul x y) (at level 40, left associativity).
Notation "x [/] y" := (div x y) (at level 40, left associativity).

(** [int mid = start + (end - start) / 2;] *)
Definition midpoint (start end_ : Z) : Z := start [+] (end_ [-] start) [/] 2.

Definition push (node start end_ : Z) : M unit :=
  let* d := lazy_get node in
  if bool_decide (d <> 0) then
    (* tree[node] += lazy[node] * (end - start + 1); *)
    (let* d1 := lazy_get node in
     let* t := tree_get node in
     tree_put node (t [+] d1 [*] (end_ [-] start [+] 1))) ;;;
    (if bool_decide (start <> end_) then
       (* lazy[2 * node] += lazy[node]; *)
       (let* d2 := lazy_get node in
        let* c := lazy_get (2 [*] node) in
        lazy_put (2 [*] node) (c [+] d2)) ;;;
       (* lazy[2 * node + 1] += lazy[node]; *)
       (let* d3 := lazy_get node in
        let* c := lazy_get (2 [*] node [+] 1) in
        lazy_put (2 [*] node [+] 1) (c [+] d3))
     else ret tt) ;;;
    lazy_put node 0
  else ret tt.

Fixpoint build_recursive (fuel : nat) (arr : list Z) (node start end_ : Z)
  : M unit :=
  match fuel with
  | O => out_of_fuel
  | S fuel =>
    log (Call BuildRec node start end_) ;;;
    if bool_decide (start = end_) then
      (* tree[node] = (int)arr[start]; *)
      let* x := arr_get arr start in
      tree_put node (wrap x)
    else
      let mid := midpoint start end_ in
      build_recursive fuel arr (2 [*] node) start mid ;;;
      build_recursive fuel arr (2 [*] node [+] 1) (mid [+] 1) end_ ;;;
      let* a := tree_get (2 [*] node) in
      let* b := tree_get (2 [*] node [+] 1) in
      tree_put node (a [+] b)
  end.

Fixpoint update_recursive (fuel : nat) (node start end_ l r val : Z)
  : M unit :=
  match fuel with
  | O => out_of_fuel
  | S fuel =>
    log (Call UpdateRec node start end_) ;;;
    push node start end_ ;;;
    (* Case 1: completely outside the update range *)
    if bool_decide (start > end_ \/ start > r \/ end_ < l) then ret tt
    (* Case 2: completely inside the update range *)
    else if bool_decide (l <= start /\ end_ <= r) then
      (let* t := tree_get node in
       tree_put node (t [+] val [*] (end_ [-] start [+] 1))) ;;;
      (if bool_decide (start <> end_) then
         (let* c := lazy_get (2 [*] node) in
          lazy_put (2 [*] node) (c [+] val)) ;;;
         (let* c := lazy_get (2 [*] node [+] 1) in
          lazy_put (2 [*] node [+] 1) (c [+] val))
       else ret tt)
    (* Case 3: partial overlap *)
    else
      let mid := midpoint start end_ in
      update_recursive fuel (2 [*] node) start mid l r val ;;;
      update_recursive fuel (2 [*] node [+] 1) (mid [+] 1) end_ l r val ;;;
      let* a := tree_get (2 [*] node) in
      let* b := tree_get (2 [*] node [+] 1) in
      tree_put node (a [+] b)
  end.

Fixpoint query_recursive (fuel : nat) (node start end_ l r : Z) : M Z :=
  match fuel with
  | O => out_of_fuel
  | S fuel =>
    log (Call QueryRec node start end_) ;;;
    (* Case 1: completely outside the query range *)
    if bool_decide (start > end_ \/ start > r \/ end_ < l) then ret 0
    else
      push node start end_ ;;;
      (* Case 2: completely inside the query range *)
      if bool_decide (l <= start /\ end_ <= r) then tree_get node
      (* Case 3: partial overlap *)
      else
        let mid := midpoint start end_ in
        let* p1 := query_recursive fuel (2 [*] node) start mid l r in
        let* p2 := query_recursive fuel (2 [*] node [+] 1) (mid [+] 1) end_ l r in
        ret (p1 [+] p2)
  end.

(** How a call of the constructor ends: it returns, with one of the
    outcomes of the monad, or [resize] throws [std::length_error]. *)
Inductive completion (A : Type) : Type :=
| Returns (o : outcome (A * machine))
| LengthError.
Arguments Returns {A} o.
Arguments LengthError {A}.

(** The constructor.  [n = arr.size()] converts a [size_t] to [int], and
    [4 * n] is an [int] that [resize] converts to [size_type]: a negative
    one becomes a size beyond [max_size()], which [resize] refuses.  A
    [resize] that runs out of memory is not modelled. *)
Definition construct (arr : list Z) (m : machine) : completion unit :=
  let sz := wrap (Z.of_nat (length arr)) in
  let st := {| tree := tree m.1; lazy := lazy m.1; n := sz |} in
  if bool_decide (sz = 0) then Returns (Ok (tt, (st, m.2)))
  else
    let cap := 4 [*] sz in
    if bool_decide (cap < 0) then LengthError
    else
      let st := set_tree st (resize (tree st) cap 0) in
      let st := set_lazy st (resize (lazy st) cap 0) in
      Returns (build_recursive (Z.to_nat sz) arr ROOT_NODE 0 (sz [-] 1)
                 (st, m.2)).

Definition updateRange (l r val : Z) : M unit := fun m =>
  let sz := n m.1 in
  if bool_decide (sz = 0 \/ l < 0 \/ r >= sz \/ l > r) then Ok (tt, m)
  else update_recursive (Z.to_nat sz) ROOT_NODE 0 (sz [-] 1) l r val m.

Definition queryRange (l r : Z) : M Z := fun m =>
  let sz := n m.1 in
  if bool_decide (sz = 0 \/ l < 0 \/ r >= sz \/ l > r) then Ok (0, m)
  else query_recursive (Z.to_nat sz) ROOT_NODE 0 (sz [-] 1) l r m.

Fixpoint run (ops : list op) : M (list Z) :=
  match ops with
  | [] => ret []
  | Update l r val :: ops => updateRange l r val ;;; run ops
  | Query l r :: ops =>
    let* x := queryRange l r in
    let* xs := run ops in
    ret (x :: xs)
  end.

(** What follows a construction: nothing when it threw, the computation
    [k] on the constructed object when it returned one. *)
Definition after {A B} (c : completion A) (k : M B) : completion B :=
  match c with
  | Returns (Ok (_, m)) => Returns (k m)
  | Returns (OutOfBounds i) => Returns (OutOfBounds i)
  | Returns OutOfFuel => Returns OutOfFuel
  | LengthError => LengthError
  end.

Definition session (arr : list Z) (ops : list op) : completion (list Z) :=
  after (construct arr fresh) (run ops).

Definition result {A} (c : completion A) : option A :=
  match c with
  | Returns o => answers o
  | LengthError => None
  end.

(** What [queryRange l r] returns after the construction from [arr] and
    the calls [ops]. *)
Definition query_after (arr : list Z) (ops : list op) (l r : Z) : option Z :=
  result (after (construct arr fresh) (run ops ;;; queryRange l r)).

End Int32.

(** The assertions of [runSegmentTreeTests], in machine arithmetic. *)
Example test_case_1_int32 :
  Int32.result (Int32.session [1; 2; 3; 4; 5]
    [Query 0 4; Query 1 3; Query 0 0; Query 4 4; Query 2 2])
  = Some [15; 9; 1; 5; 3].
Proof. vm_compute. reflexivity. Qed.

Example test_case_2_int32 :
  Int32.result (Int32.session [1; 2; 3; 4; 5]
    [Update 1 3 10; Query 0 4; Query 1 3; Query 0 1; Query 3 4; Query 2 2])
  = Some [45; 39; 13; 19; 13].
Proof. vm_compute. reflexivity. Qed.

Example test_case_3_int32 :
  Int32.result (Int32.session [1; 2; 3; 4; 5; 6; 7; 8]
    [Update 0 7 1; Update 2 5 (-2);
     Query 0 7; Query 0 1; Query 2 5; Query 6 7; Query 3 4])
  = Some [36; 5; 14; 17; 7].
Proof. vm_compute. reflexivity. Qed.

Example test_case_4_int32 :
  Int32.result (Int32.session [100] [Query 0 0; Update 0 0 50; Query 0 0])
  = Some [100; 150].
Proof. vm_compute. reflexivity. Qed.

Example test_case_5_int32 :
  Int32.result (Int32.session [1; 2; 3]
    [Query (-1) 1; Query 2 5; Query 3 4;
     Update (-1) 1 10; Query 0 2; Update 2 5 5; Query 0 2])
  = Some [0; 0; 0; 6; 6].
Proof. vm_compute. reflexivity. Qed.

(** Sums beyond [INT_MAX] come back reduced. *)
Example sum_overflows :
  Int32.query_after [2147483647; 1] [] 0 1 = Some (-2147483648).
Proof. vm_compute. reflexivity. Qed.

Example update_overflows :
  Int32.query_after [0; 0] [Update 0 1 2000000000] 0 1 = Some (-294967296).
Proof. vm_compute. reflexivity. Qed.

(** Two pending deltas of [INT_MIN] add up to the [int] 0, which [push]
    takes for nothing pending. *)
Example pending_delta_wraps_to_zero :
  Int32.result (Int32.session [1; 2; 3; 4]
    [Update 0 3 (-2147483648); Update 0 3 (-2147483648); Query 1 2;
     Update 0 1 2147483647; Update 0 1 1; Query 0 0; Query 0 3])
  = Some [5; -2147483647; 10].
Proof. vm_compute. reflexivity. Qed.

(** ** Arithmetic modulo [2 ^ 32] *)

Lemma wrap_range x : in_int (wrap x).
Proof.
  unfold in_int, INT_MIN, INT_MAX, wrap.
  pose proof (Z.mod_pos_bound (x + 2147483648) 4294967296 ltac:(lia)). lia.
Qed.

Lemma wrap_spec x : exists q, wrap x = x + q * 4294967296.
Proof.
  exists (- ((x + 2147483648) / 4294967296)). unfold wrap.
  pose proof (Z.div_mod (x + 2147483648) 4294967296 ltac:(lia)). lia.
Qed.

Lemma wrap_small x : in_int x -> wrap x = x.
Proof.
  unfold in_int, INT_MIN, INT_MAX, wrap. intros H.
  rewrite Z.mod_small by lia. lia.
Qed.

Lemma wrap_congr x y q : x = y + q * 4294967296 -> wrap x = wrap y.
Proof.
  intros ->. unfold wrap. f_equal.
  replace (y + q * 4294967296 + 2147483648)
    with (y + 2147483648 + q * 4294967296) by lia.
  apply Z_mod_plus_full.
Qed.

Lemma wrap_wrap x : wrap (wrap x) = wrap x.
Proof. apply wrap_small, wrap_range. Qed.

(** [same_int x y]: [x] and [y] are represented by the same [int]. *)
Definition same_int (x y : Z) : Prop := wrap x = wrap y.

Lemma same_int_diff x y : same_int x y -> exists q, x = y + q * 4294967296.
Proof.
  unfold same_int. intros H.
  destruct (wrap_spec x) as [q1 H1], (wrap_spec y) as [q2 H2].
  exists (q2 - q1). lia.
Qed.

#[local] Instance same_int_equiv : Equivalence same_int.
Proof.
  unfold same_int. split.
  - intros x. reflexivity.
  - intros x y H. symmetry. exact H.
  - intros x y z H1 H2. congruence.
Qed.

#[local] Instance same_int_add :
  Proper (same_int ==> same_int ==> same_int) Z.add.
Proof.
  intros x x' [q1 ->]%same_int_diff y y' [q2 ->]%same_int_diff.
  apply (wrap_congr _ _ (q1 + q2)). ring.
Qed.

#[local] Instance same_int_sub :
  Proper (same_int ==> same_int ==> same_int) Z.sub.
Proof.
  intros x x' [q1 ->]%same_int_diff y y' [q2 ->]%same_int_diff.
  apply (wrap_congr _ _ (q1 - q2)). ring.
Qed.

#[local] Instance same_int_mul :
  Proper (same_int ==> same_int ==> same_int) Z.mul.
Proof.
  intros x x' [q1 ->]%same_int_diff y y' [q2 ->]%same_int_diff.
  apply (wrap_congr _ _ (x' * q2 + q1 * y' + q1 * q2 * 4294967296)). ring.
Qed.

Lemma wrap_same x : same_int (wrap x) x.
Proof. apply wrap_wrap. Qed.

Lemma same_int_eq x y : x = y -> same_int x y.
Proof. intros ->. reflexivity. Qed.

Lemma wrap_zero x : wrap x = 0 -> same_int x 0.
Proof. intros H. unfold same_int. rewrite H. reflexivity. Qed.

(** Equations between [int]s whose two sides agree as polynomials once
    the inner reductions are dropped. *)
Ltac wrap_solve :=
  first
    [ reflexivity
    | match goal with
      | |- wrap ?x = wrap ?y => change (same_int x y)
      | |- same_int _ _ => idtac
      end;
      rewrite ?wrap_same; apply same_int_eq; ring ].

(** Arithmetic on positions and ranges stays inside [int]. *)
Lemma double_small node :
  0 <= node -> 2 * node + 1 < 2147483648 -> Int32.mul 2 node = 2 * node.
Proof.
  intros. apply wrap_small. unfold in_int, INT_MIN, INT_MAX. lia.
Qed.

Lemma succ_small x : 0 <= x < 2147483647 -> Int32.add x 1 = x + 1.
Proof.
  intros. apply wrap_small. unfold in_int, INT_MIN, INT_MAX. lia.
Qed.

Lemma pred_small x : 1 <= x <= 2147483647 -> Int32.sub x 1 = x - 1.
Proof.
  intros. apply wrap_small. unfold in_int, INT_MIN, INT_MAX. lia.
Qed.

Lemma width_small s e :
  0 <= s -> s <= e -> e < 2147483647 ->
  Int32.add (Int32.sub e s) 1 = e - s + 1.
Proof.
  intros. unfold Int32.add, Int32.sub.
  rewrite (wrap_small (e - s)) by (unfold in_int, INT_MIN, INT_MAX; lia).
  apply wrap_small. unfold in_int, INT_MIN, INT_MAX. lia.
Qed.

Lemma midpoint_small s e :
  0 <= s -> s <= e -> e < 2147483647 -> Int32.midpoint s e = midpoint s e.
Proof.
  intros Hs Hse He. unfold Int32.midpoint, Int32.add, Int32.sub, Int32.div.
  pose proof (midpoint_halves s e Hse) as Hh. unfold midpoint in *.
  rewrite (wrap_small (e - s)) by (unfold in_int, INT_MIN, INT_MAX; lia).
  rewrite (wrap_small (Z.quot _ _)) by (unfold in_int, INT_MIN, INT_MAX; lia).
  apply wrap_small. unfold in_int, INT_MIN, INT_MAX. lia.
Qed.

(** ** The simulation *)

(** [sim s sZ]: the object [s] of the machine reading holds, position by
    position, the [int] of what the ideal object [sZ] holds. *)
Definition sim (s sZ : SegmentTree) : Prop :=
  n s = n sZ /\
  length (tree s) = length (tree sZ) /\
  length (lazy s) = length (lazy sZ) /\
  (forall p, T s p = wrap (T sZ p)) /\
  (forall p, L s p = wrap (L sZ p)).

Lemma sim_sized cap s sZ : sim s sZ -> sized cap sZ -> sized cap s.
Proof. intros (_ & H1 & H2 & _) [H3 H4]. split; congruence. Qed.

Lemma sim_tree_upd cap s sZ i x y :
  sim s sZ -> sized cap sZ -> 0 <= i < cap -> x = wrap y ->
  sim (tree_upd s i x) (tree_upd sZ i y).
Proof.
  intros Hs Hz Hi ->. pose proof (sim_sized _ _ _ Hs Hz) as Hz'.
  destruct Hs as (Hn & Ht & Hl & HT & HL).
  split; [exact Hn|]. split; [simpl; rewrite !length_insert; exact Ht|].
  split; [exact Hl|]. split; [|exact HL].
  intros p. rewrite !(T_tree_upd cap) by assumption.
  case_decide; [reflexivity | apply HT].
Qed.

Lemma sim_lazy_upd cap s sZ i x y :
  sim s sZ -> sized cap sZ -> 0 <= i < cap -> x = wrap y ->
  sim (lazy_upd s i x) (lazy_upd sZ i y).
Proof.
  intros Hs Hz Hi ->. pose proof (sim_sized _ _ _ Hs Hz) as Hz'.
  destruct Hs as (Hn & Ht & Hl & HT & HL).
  split; [exact Hn|]. split; [exact Ht|].
  split; [simpl; rewrite !length_insert; exact Hl|]. split; [exact HT|].
  intros p. rewrite !(L_lazy_upd cap) by assumption.
  case_decide; [reflexivity | apply HL].
Qed.

(** A write to the ideal object alone, of a value that the machine
    object already represents. *)
Lemma sim_tree_absorb cap s sZ i y :
  sim s sZ -> sized cap sZ -> 0 <= i < cap -> T s i = wrap y ->
  sim s (tree_upd sZ i y).
Proof.
  intros (Hn & Ht & Hl & HT & HL) Hz Hi Hy.
  split; [exact Hn|]. split; [simpl; rewrite length_insert; exact Ht|].
  split; [exact Hl|]. split; [|exact HL].
  intros p. rewrite (T_tree_upd cap) by assumption.
  case_decide; [subst; exact Hy | apply HT].
Qed.

Lemma sim_lazy_absorb cap s sZ i y :
  sim s sZ -> sized cap sZ -> 0 <= i < cap -> L s i = wrap y ->
  sim s (lazy_upd sZ i y).
Proof.
  intros (Hn & Ht & Hl & HT & HL) Hz Hi Hy.
  split; [exact Hn|]. split; [exact Ht|].
  split; [simpl; rewrite length_insert; exact Hl|]. split; [exact HT|].
  intros p. rewrite (L_lazy_upd cap) by assumption.
  case_decide; [subst; exact Hy | apply HL].
Qed.

(** Reads of a written object, with the comparisons of positions decided. *)
Ltac read_through cap :=
  read_back cap;
  repeat first [ rewrite decide_True by lia | rewrite decide_False by lia ].

(** The machine trace, a subsequence of the ideal one. *)
Ltac sub_trace H :=
  repeat first [ exact H | apply sublist_skip | apply sublist_cons ].

Lemma push_sim cap s32 tr32 sZ trZ node s e :
  sim s32 sZ -> sized cap sZ -> cap <= 2147483648 ->
  1 <= node < cap -> (s <> e -> 2 * node + 1 < cap) ->
  0 <= s -> s <= e -> e < 2147483647 ->
  exists s32' tr32' sZ' trZ',
    Int32.push node s e (s32, tr32) = Ok (tt, (s32', tr32')) /\
    push node s e (sZ, trZ) = Ok (tt, (sZ', trZ')) /\
    sim s32' sZ' /\ sized cap sZ' /\
    (tr32 `sublist_of` trZ -> tr32' `sublist_of` trZ').
Proof.
  intros Hsim HszZ Hcap Hn Hc Hs Hse He.
  pose proof (sim_sized _ _ _ Hsim HszZ) as Hsz32.
  pose proof Hsim as (_ & _ & _ & HT & HL).
  unfold Int32.push, push.
  rewrite (bind_lazy_get cap s32) by (assumption || lia).
  rewrite (bind_lazy_get cap sZ) by (assumption || lia). cbv beta.
  rewrite width_small by lia.
  destruct (decide (L sZ node = 0)) as [Hz|Hz].
  - (* nothing pending *)
    rewrite (bool_decide_eq_false_2 (L s32 node <> 0))
      by (rewrite HL, Hz; intros H; apply H; reflexivity).
    rewrite (bool_decide_eq_false_2 (L sZ node <> 0)) by lia.
    eexists _, _, _, _. split; [reflexivity|]. split; [reflexivity|].
    split; [exact Hsim|]. split; [exact HszZ|].
    intros Htr. sub_trace Htr.
  - rewrite (bool_decide_eq_true_2 (L sZ node <> 0)) by exact Hz.
    destruct (decide (L s32 node = 0)) as [Hw|Hw].
    + (* pending in the ideal object only: a multiple of [2 ^ 32] *)
      rewrite (bool_decide_eq_false_2 (L s32 node <> 0)) by lia.
      assert (same_int (L sZ node) 0) as Hm.
      { apply wrap_zero. rewrite <- HL. exact Hw. }
      destruct (decide (s = e)) as [Heq|Hne].
      * rewrite (bool_decide_eq_false_2 (s <> e)) by lia.
        repeat run_step cap.
        eexists _, _, _, _. split; [reflexivity|]. split; [reflexivity|].
        split; [|split; [eauto 10 with seg|]].
        -- apply (sim_lazy_absorb cap);
             [|eauto 10 with seg | lia | rewrite Hw; reflexivity].
           apply (sim_tree_absorb cap); [exact Hsim | assumption | lia |].
           rewrite HT. change (same_int (T sZ node)
                                 (T sZ node + L sZ node * (e - s + 1))).
           rewrite Hm. wrap_solve.
        -- intros Htr. sub_trace Htr.
      * specialize (Hc Hne).
        rewrite (bool_decide_eq_true_2 (s <> e)) by lia.
        repeat run_step cap.
        eexists _, _, _, _. split; [reflexivity|]. split; [reflexivity|].
        split; [|split; [eauto 10 with seg|]].
        -- apply (sim_lazy_absorb cap);
             [|eauto 10 with seg | lia | rewrite Hw; reflexivity].
           apply (sim_lazy_absorb cap); [|eauto 10 with seg | lia |].
           ++ apply (sim_lazy_absorb cap); [|eauto 10 with seg | lia |].
              ** apply (sim_tree_absorb cap); [exact Hsim | assumption | lia |].
                 rewrite HT. change (same_int (T sZ node)
                                       (T sZ node + L sZ node * (e - s + 1))).
                 rewrite Hm. wrap_solve.
              ** read_through cap. rewrite HL.
                 change (same_int (L sZ (2 * node))
                           (L sZ (2 * node) + L sZ node)).
                 rewrite Hm. wrap_solve.
           ++ read_through cap. rewrite HL.
              change (same_int (L sZ (2 * node + 1))
                        (L sZ (2 * node + 1) + L sZ node)).
              rewrite Hm. wrap_solve.
        -- intros Htr. sub_trace Htr.
    + (* pending in both *)
      rewrite (bool_decide_eq_true_2 (L s32 node <> 0)) by exact Hw.
      destruct (decide (s = e)) as [Heq|Hne].
      * rewrite !(bool_decide_eq_false_2 (s <> e)) by lia.
        unfold Int32.add, Int32.mul.
        repeat run_step cap.
        eexists _, _, _, _. split; [reflexivity|]. split; [reflexivity|].
        split; [|split; [eauto 10 with seg|]].
        -- apply (sim_lazy_upd cap); [|eauto 10 with seg | lia | reflexivity].
           apply (sim_tree_upd cap); [exact Hsim | assumption | lia |].
           rewrite HT, HL. wrap_solve.
        -- intros Htr. sub_trace Htr.
      * specialize (Hc Hne).
        rewrite !(bool_decide_eq_true_2 (s <> e)) by lia.
        rewrite !double_small by lia. rewrite !succ_small by lia.
        unfold Int32.add, Int32.mul.
        repeat run_step cap.
        eexists _, _, _, _. split; [reflexivity|]. split; [reflexivity|].
        split; [|split; [eauto 10 with seg|]].
        -- apply (sim_lazy_upd cap); [|eauto 10 with seg | lia | reflexivity].
           apply (sim_lazy_upd cap); [|eauto 10 with seg | lia |].
           ++ apply (sim_lazy_upd cap); [|eauto 10 with seg | lia |].
              ** apply (sim_tree_upd cap); [exact Hsim | assumption | lia |].
                 rewrite HT, HL. wrap_solve.
              ** read_through cap. rewrite !HL. wrap_solve.
           ++ read_through cap. rewrite !HL. wrap_solve.
        -- intros Htr. sub_trace Htr.
Qed.

Lemma update_recursive_sim cap l r val (fuel : nat) :
  forall node s e s32 tr32 sZ trZ,
  e - s < Z.of_nat fuel -> Shape cap node s e -> cap <= 2147483648 ->
  0 <= s -> e < 2147483647 -> sim s32 sZ -> sized cap sZ ->
  exists s32' tr32' sZ' trZ',
    Int32.update_recursive fuel node s e l r val (s32, tr32)
      = Ok (tt, (s32', tr32')) /\
    update_recursive fuel node s e l r val (sZ, trZ) = Ok (tt, (sZ', trZ')) /\
    sim s32' sZ' /\ sized cap sZ' /\
    (tr32 `sublist_of` trZ -> tr32' `sublist_of` trZ').
Proof.
  induction fuel as [|fuel IH];
    intros node s e s32 tr32 sZ trZ Hf Hsh Hcap Hs He Hsim HszZ.
  { apply Shape_le in Hsh. lia. }
  pose proof (Shape_le _ _ _ _ Hsh) as Hse.
  pose proof (Shape_node_bound _ _ _ _ Hsh) as Hnode.
  assert (s <> e -> 2 * node + 1 < cap) as Hkids.
  { intros Hne. apply Shape_children in Hsh as (_ & _ & Hc); [|exact Hne].
    apply Shape_node_bound in Hc. lia. }
  simpl Int32.update_recursive. simpl update_recursive. rewrite !bind_log.
  destruct (push_sim cap s32 (Call UpdateRec node s e :: tr32)
              sZ (Call UpdateRec node s e :: trZ) node s e
              Hsim HszZ Hcap Hnode Hkids Hs Hse He)
    as (s1 & t1 & z1 & u1 & Hp32 & HpZ & Hsim1 & Hsz1 & Htr1).
  rewrite (bind_Ok _ _ _ _ _ Hp32), (bind_Ok _ _ _ _ _ HpZ).
  pose proof (sim_sized _ _ _ Hsim1 Hsz1) as Hsz1'.
  pose proof Hsim1 as (_ & _ & _ & HT1 & HL1).
  case_bool_decide as Hout.
  - eexists _, _, _, _. split; [reflexivity|]. split; [reflexivity|].
    split; [exact Hsim1|]. split; [exact Hsz1|].
    intros Htr. apply Htr1, sublist_skip, Htr.
  - case_bool_decide as Hin.
    + rewrite width_small by lia.
      destruct (decide (s = e)) as [Heq|Hne].
      * rewrite !(bool_decide_eq_false_2 (s <> e)) by lia.
        unfold Int32.add, Int32.mul. repeat run_step cap.
        eexists _, _, _, _. split; [reflexivity|]. split; [reflexivity|].
        split; [|split; [eauto 10 with seg|]].
        -- apply (sim_tree_upd cap); [exact Hsim1 | assumption | lia |].
           rewrite HT1. wrap_solve.
        -- intros Htr. repeat apply sublist_skip. apply Htr1, sublist_skip, Htr.
      * specialize (Hkids Hne).
        rewrite !(bool_decide_eq_true_2 (s <> e)) by lia.
        rewrite !double_small by lia. rewrite (succ_small (2 * node)) by lia.
        unfold Int32.add, Int32.mul. repeat run_step cap.
        eexists _, _, _, _. split; [reflexivity|]. split; [reflexivity|].
        split; [|split; [eauto 10 with seg|]].
        -- apply (sim_lazy_upd cap); [|eauto 10 with seg | lia |].
           ++ apply (sim_lazy_upd cap); [|eauto 10 with seg | lia |].
              ** apply (sim_tree_upd cap); [exact Hsim1 | assumption | lia |].
                 rewrite HT1. wrap_solve.
              ** read_through cap. rewrite !HL1. wrap_solve.
           ++ read_through cap. rewrite !HL1. wrap_solve.
        -- intros Htr. repeat apply sublist_skip. apply Htr1, sublist_skip, Htr.
    + assert (s <> e) as Hne by lia.
      destruct (Shape_children _ _ _ _ Hsh Hne) as (Hlt & Shl & Shr).
      pose proof (midpoint_bounds s e Hlt) as Hm.
      pose proof (Shape_node_bound _ _ _ _ Shr) as Hbr.
      cbv zeta. rewrite midpoint_small by lia.
      rewrite !double_small by lia. rewrite !(succ_small (2 * node)) by lia.
      rewrite !(succ_small (midpoint s e)) by lia.
      destruct (IH (2 * node) s (midpoint s e) s1 t1 z1 u1
                  ltac:(lia) Shl Hcap ltac:(lia) ltac:(lia) Hsim1 Hsz1)
        as (s2 & t2 & z2 & u2 & Hu32 & HuZ & Hsim2 & Hsz2 & Htr2).
      rewrite (bind_Ok _ _ _ _ _ Hu32), (bind_Ok _ _ _ _ _ HuZ).
      destruct (IH (2 * node + 1) (midpoint s e + 1) e s2 t2 z2 u2
                  ltac:(lia) Shr Hcap ltac:(lia) ltac:(lia) Hsim2 Hsz2)
        as (s3 & t3 & z3 & u3 & Hv32 & HvZ & Hsim3 & Hsz3 & Htr3).
      rewrite (bind_Ok _ _ _ _ _ Hv32), (bind_Ok _ _ _ _ _ HvZ).
      pose proof (sim_sized _ _ _ Hsim3 Hsz3) as Hsz3'.
      pose proof Hsim3 as (_ & _ & _ & HT3 & HL3).
      unfold Int32.add. repeat run_step cap.
      eexists _, _, _, _. split; [reflexivity|]. split; [reflexivity|].
      split; [|split; [eauto 10 with seg|]].
      * apply (sim_tree_upd cap); [exact Hsim3 | assumption | lia |].
        rewrite !HT3. wrap_solve.
      * intros Htr. repeat apply sublist_skip.
        apply Htr3, Htr2, Htr1, sublist_skip, Htr.
Qed.

Lemma query_recursive_sim cap l r (fuel : nat) :
  forall node s e s32 tr32 sZ trZ,
  e - s < Z.of_nat fuel -> Shape cap node s e -> cap <= 2147483648 ->
  0 <= s -> e < 2147483647 -> sim s32 sZ -> sized cap sZ ->
  exists x s32' tr32' sZ' trZ',
    Int32.query_recursive fuel node s e l r (s32, tr32)
      = Ok (wrap x, (s32', tr32')) /\
    query_recursive fuel node s e l r (sZ, trZ) = Ok (x, (sZ', trZ')) /\
    sim s32' sZ' /\ sized cap sZ' /\
    (tr32 `sublist_of` trZ -> tr32' `sublist_of` trZ').
Proof.
  induction fuel as [|fuel IH];
    intros node s e s32 tr32 sZ trZ Hf Hsh Hcap Hs He Hsim HszZ.
  { apply Shape_le in Hsh. lia. }
  pose proof (Shape_le _ _ _ _ Hsh) as Hse.
  pose proof (Shape_node_bound _ _ _ _ Hsh) as Hnode.
  assert (s <> e -> 2 * node + 1 < cap) as Hkids.
  { intros Hne. apply Shape_children in Hsh as (_ & _ & Hc); [|exact Hne].
    apply Shape_node_bound in Hc. lia. }
  simpl Int32.query_recursive. simpl query_recursive. rewrite !bind_log.
  case_bool_decide as Hout.
  - exists 0. eexists _, _, _, _.
    split; [reflexivity|]. split; [reflexivity|].
    split; [exact Hsim|]. split; [exact HszZ|].
    intros Htr. apply sublist_skip, Htr.
  - destruct (push_sim cap s32 (Call QueryRec node s e :: tr32)
                sZ (Call QueryRec node s e :: trZ) node s e
                Hsim HszZ Hcap Hnode Hkids Hs Hse He)
      as (s1 & t1 & z1 & u1 & Hp32 & HpZ & Hsim1 & Hsz1 & Htr1).
    rewrite (bind_Ok _ _ _ _ _ Hp32), (bind_Ok _ _ _ _ _ HpZ).
    pose proof (sim_sized _ _ _ Hsim1 Hsz1) as Hsz1'.
    pose proof Hsim1 as (_ & _ & _ & HT1 & HL1).
    case_bool_decide as Hin.
    + exists (T z1 node). eexists _, _, _, _.
      rewrite (tree_get_Ok cap s1) by (assumption || lia).
      rewrite (tree_get_Ok cap z1) by (assumption || lia).
      rewrite HT1.
      split; [reflexivity|]. split; [reflexivity|].
      split; [exact Hsim1|]. split; [exact Hsz1|].
      intros Htr. apply sublist_skip, Htr1, sublist_skip, Htr.
    + assert (s <> e) as Hne by lia.
      destruct (Shape_children _ _ _ _ Hsh Hne) as (Hlt & Shl & Shr).
      pose proof (midpoint_bounds s e Hlt) as Hm.
      pose proof (Shape_node_bound _ _ _ _ Shr) as Hbr.
      cbv zeta. rewrite midpoint_small by lia.
      rewrite !double_small by lia. rewrite !(succ_small (2 * node)) by lia.
      rewrite !(succ_small (midpoint s e)) by lia.
      destruct (IH (2 * node) s (midpoint s e) s1 t1 z1 u1
                  ltac:(lia) Shl Hcap ltac:(lia) ltac:(lia) Hsim1 Hsz1)
        as (x2 & s2 & t2 & z2 & u2 & Hq32 & HqZ & Hsim2 & Hsz2 & Htr2).
      rewrite (bind_Ok _ _ _ _ _ Hq32), (bind_Ok _ _ _ _ _ HqZ).
      destruct (IH (2 * node + 1) (midpoint s e + 1) e s2 t2 z2 u2
                  ltac:(lia) Shr Hcap ltac:(lia) ltac:(lia) Hsim2 Hsz2)
        as (x3 & s3 & t3 & z3 & u3 & Hr32 & HrZ & Hsim3 & Hsz3 & Htr3).
      rewrite (bind_Ok _ _ _ _ _ Hr32), (bind_Ok _ _ _ _ _ HrZ).
      exists (x2 + x3). eexists _, _, _, _.
      split; [|split; [reflexivity|]].
      * unfold ret, Int32.add. do 2 f_equal. wrap_solve.
      * split; [exact Hsim3|]. split; [exact Hsz3|].
        intros Htr. apply Htr3, Htr2, Htr1, sublist_skip, Htr.
Qed.

Lemma build_recursive_sim cap arr (fuel : nat) :
  forall node s e s32 tr32 sZ trZ,
  e - s < Z.of_nat fuel -> Shape cap node s e -> cap <= 2147483648 ->
  0 <= s -> e < Z.of_nat (length arr) -> e < 2147483647 ->
  sim s32 sZ -> sized cap sZ ->
  exists s32' tr32' sZ' trZ',
    Int32.build_recursive fuel arr node s e (s32, tr32)
      = Ok (tt, (s32', tr32')) /\
    build_recursive fuel arr node s e (sZ, trZ) = Ok (tt, (sZ', trZ')) /\
    sim s32' sZ' /\ sized cap sZ' /\
    (tr32 `sublist_of` trZ -> tr32' `sublist_of` trZ').
Proof.
  induction fuel as [|fuel IH];
    intros node s e s32 tr32 sZ trZ Hf Hsh Hcap Hs Hlen He Hsim HszZ.
  { apply Shape_le in Hsh. lia. }
  pose proof (Shape_le _ _ _ _ Hsh) as Hse.
  pose proof (Shape_node_bound _ _ _ _ Hsh) as Hnode.
  pose proof (sim_sized _ _ _ Hsim HszZ) as Hsz32.
  simpl Int32.build_recursive. simpl build_recursive. rewrite !bind_log.
  case_bool_decide as Heq.
  - subst e. rewrite !bind_arr_get by lia. repeat run_step cap.
    eexists _, _, _, _. split; [reflexivity|]. split; [reflexivity|].
    split; [|split; [eauto 10 with seg|]].
    + apply (sim_tree_upd cap); [exact Hsim | assumption | lia | reflexivity].
    + intros Htr. repeat apply sublist_skip. exact Htr.
  - destruct (Shape_children _ _ _ _ Hsh Heq) as (Hlt & Shl & Shr).
    pose proof (midpoint_bounds s e Hlt) as Hm.
    pose proof (Shape_node_bound _ _ _ _ Shr) as Hbr.
    cbv zeta. rewrite midpoint_small by lia.
    rewrite !double_small by lia. rewrite !(succ_small (2 * node)) by lia.
    rewrite !(succ_small (midpoint s e)) by lia.
    destruct (IH (2 * node) s (midpoint s e) s32
                (Call BuildRec node s e :: tr32) sZ
                (Call BuildRec node s e :: trZ)
                ltac:(lia) Shl Hcap ltac:(lia) ltac:(lia) ltac:(lia) Hsim HszZ)
      as (s2 & t2 & z2 & u2 & Hb32 & HbZ & Hsim2 & Hsz2 & Htr2).
    rewrite (bind_Ok _ _ _ _ _ Hb32), (bind_Ok _ _ _ _ _ HbZ).
    destruct (IH (2 * node + 1) (midpoint s e + 1) e s2 t2 z2 u2
                ltac:(lia) Shr Hcap ltac:(lia) ltac:(lia) ltac:(lia) Hsim2 Hsz2)
      as (s3 & t3 & z3 & u3 & Hc32 & HcZ & Hsim3 & Hsz3 & Htr3).
    rewrite (bind_Ok _ _ _ _ _ Hc32), (bind_Ok _ _ _ _ _ HcZ).
    pose proof (sim_sized _ _ _ Hsim3 Hsz3) as Hsz3'.
    pose proof Hsim3 as (_ & _ & _ & HT3 & HL3).
    unfold Int32.add. repeat run_step cap.
    eexists _, _, _, _. split; [reflexivity|]. split; [reflexivity|].
    split; [|split; [eauto 10 with seg|]].
    + apply (sim_tree_upd cap); [exact Hsim3 | assumption | lia |].
      rewrite !HT3. wrap_solve.
    + intros Htr. repeat apply sublist_skip.
      apply Htr3, Htr2, sublist_skip, Htr.
Qed.

(** ** The public interface under the simulation *)

(** [Paired a m mZ]: the machine [m] of the machine reading and the
    machine [mZ] of the ideal reading both hold a tree for the mirror [a],
    whose four-fold size is an [int]. *)
Definition Paired (a : list Z) (m mZ : machine) : Prop :=
  Inv a mZ /\ sim m.1 mZ.1 /\ m.2 `sublist_of` mZ.2 /\
  4 * Z.of_nat (length a) <= INT_MAX.

Lemma idx_nil p : idx [] p = 0.
Proof. unfold idx, vec_get. case_bool_decide; reflexivity. Qed.

Lemma construct_Paired arr :
  4 * Z.of_nat (length arr) <= INT_MAX ->
  exists m mZ,
    Int32.construct arr fresh = Int32.Returns (Ok (tt, m)) /\
    construct arr fresh = Ok (tt, mZ) /\ Paired arr m mZ.
Proof.
  intros Hcap. unfold INT_MAX in Hcap.
  destruct (construct_Inv arr) as (mZ & Hc & HI).
  unfold Int32.construct, fresh. simpl.
  rewrite (wrap_small (Z.of_nat (length arr)))
    by (unfold in_int, INT_MIN, INT_MAX; lia).
  unfold construct, fresh in Hc. simpl in Hc.
  case_bool_decide as Hsz.
  - injection Hc as <-. eexists _, _. split; [reflexivity|].
    split; [unfold construct, fresh; simpl;
            rewrite bool_decide_eq_true_2 by exact Hsz; reflexivity|].
    split; [exact HI|]. split; [|split; [constructor | unfold INT_MAX; lia]].
    simpl. repeat split; intros p; unfold T, L; simpl;
      rewrite idx_nil; reflexivity.
  - assert (Int32.mul 4 (Z.of_nat (length arr)) = 4 * Z.of_nat (length arr))
      as -> by (apply wrap_small; unfold in_int, INT_MIN, INT_MAX; lia).
    rewrite bool_decide_eq_false_2 by lia.
    rewrite pred_small by lia.
    rewrite !resize_nil in *.
    set (sz := Z.of_nat (length arr)) in *.
    set (st := set_lazy _ _) in *.
    assert (sized (4 * sz) st) as Hst.
    { split; simpl; rewrite length_replicate; lia. }
    assert (sim st st) as Hsim.
    { repeat split; intros p; unfold T, L, st; simpl;
        rewrite idx_replicate; reflexivity. }
    destruct (build_recursive_sim (4 * sz) arr (Z.to_nat sz) ROOT_NODE 0
                (sz - 1) st [] st [] ltac:(lia) (Shape_root sz ltac:(lia))
                ltac:(lia) ltac:(lia) ltac:(lia) ltac:(lia) Hsim Hst)
      as (s' & t' & z' & u' & Hb32 & HbZ & Hsim' & Hsz' & Htr').
    rewrite HbZ in Hc. injection Hc as <-.
    exists (s', t'), (z', u'). split; [rewrite Hb32; reflexivity|].
    split; [unfold construct, fresh; simpl;
            rewrite bool_decide_eq_false_2 by exact Hsz;
            rewrite !resize_nil; exact HbZ|].
    split; [exact HI|]. split; [exact Hsim'|].
    split; [apply Htr'; constructor | unfold INT_MAX; fold sz; lia].
Qed.

Lemma updateRange_Paired a l r val m mZ :
  Paired a m mZ ->
  exists m' mZ',
    Int32.updateRange l r val m = Ok (tt, m') /\
    updateRange l r val mZ = Ok (tt, mZ') /\
    Paired (mirror_add l r val a) m' mZ'.
Proof.
  intros (HI & Hsim & Htr & Hcap).
  destruct (updateRange_Inv a l r val mZ HI) as (mZ' & Hu & HI').
  destruct m as [s32 tr32], mZ as [sZ trZ]. simpl in Hsim, Htr.
  pose proof HI as (Hn & _ & Hrep). simpl in Hn, Hrep.
  pose proof Hsim as (Hn32 & _).
  unfold Int32.updateRange. unfold updateRange in Hu. simpl in Hu |- *.
  rewrite Hn32, Hn in *. unfold INT_MAX in Hcap.
  set (sz := Z.of_nat (length a)) in *.
  case_bool_decide as Hg.
  - injection Hu as <-. eexists _, _. split; [reflexivity|].
    split; [unfold updateRange; simpl; rewrite Hn; fold sz;
            rewrite bool_decide_eq_true_2 by exact Hg; reflexivity|].
    split; [exact HI'|]. split; [exact Hsim|]. split; [exact Htr|].
    rewrite length_mirror_add. unfold INT_MAX. fold sz. lia.
  - assert (sz <> 0) as Hnz by lia.
    destruct (Hrep Hnz) as [Hsz _].
    rewrite pred_small by lia.
    destruct (update_recursive_sim (4 * sz) l r val (Z.to_nat sz) ROOT_NODE 0
                (sz - 1) s32 tr32 sZ trZ ltac:(lia)
                (Shape_root sz ltac:(lia)) ltac:(lia) ltac:(lia) ltac:(lia)
                Hsim Hsz)
      as (s' & t' & z' & u' & Hu32 & HuZ & Hsim' & Hsz' & Htr').
    rewrite HuZ in Hu. injection Hu as <-.
    exists (s', t'), (z', u'). split; [exact Hu32|].
    split; [unfold updateRange; simpl; rewrite Hn; fold sz;
            rewrite bool_decide_eq_false_2 by exact Hg; exact HuZ|].
    split; [exact HI'|]. split; [exact Hsim'|]. split; [apply Htr', Htr|].
    rewrite length_mirror_add. unfold INT_MAX. fold sz. lia.
Qed.

Lemma queryRange_Paired a l r m mZ :
  Paired a m mZ ->
  exists m' mZ',
    Int32.queryRange l r m = Ok (wrap (mirror_sum l r a), m') /\
    queryRange l r mZ = Ok (mirror_sum l r a, mZ') /\
    Paired a m' mZ'.
Proof.
  intros (HI & Hsim & Htr & Hcap).
  destruct (queryRange_Inv a l r mZ HI) as (mZ' & Hq & HI').
  destruct m as [s32 tr32], mZ as [sZ trZ]. simpl in Hsim, Htr.
  pose proof HI as (Hn & _ & Hrep). simpl in Hn, Hrep.
  pose proof Hsim as (Hn32 & _).
  unfold Int32.queryRange. unfold queryRange in Hq. simpl in Hq |- *.
  rewrite Hn32, Hn in *. unfold INT_MAX in Hcap.
  set (sz := Z.of_nat (length a)) in *.
  case_bool_decide as Hg.
  - injection Hq as Hq0 <-. rewrite <- Hq0. eexists _, _.
    split; [reflexivity|].
    split; [unfold queryRange; simpl; rewrite Hn; fold sz;
            rewrite bool_decide_eq_true_2 by exact Hg; reflexivity|].
    split; [exact HI'|]. split; [exact Hsim|]. split; [exact Htr|].
    unfold INT_MAX. fold sz. lia.
  - assert (sz <> 0) as Hnz by lia.
    destruct (Hrep Hnz) as [Hsz _].
    rewrite pred_small by lia.
    destruct (query_recursive_sim (4 * sz) l r (Z.to_nat sz) ROOT_NODE 0
                (sz - 1) s32 tr32 sZ trZ ltac:(lia)
                (Shape_root sz ltac:(lia)) ltac:(lia) ltac:(lia) ltac:(lia)
                Hsim Hsz)
      as (x & s' & t' & z' & u' & Hq32 & HqZ & Hsim' & Hsz' & Htr').
    rewrite HqZ in Hq. injection Hq as -> <-.
    exists (s', t'), (z', u'). split; [exact Hq32|].
    split; [unfold queryRange; simpl; rewrite Hn; fold sz;
            rewrite bool_decide_eq_false_2 by exact Hg; exact HqZ|].
    split; [exact HI'|]. split; [exact Hsim'|]. split; [apply Htr', Htr|].
    unfold INT_MAX. fold sz. lia.
Qed.

Lemma run_Paired ops : forall a m mZ,
  Paired a m mZ ->
  exists m' mZ',
    Int32.run ops m = Ok (map wrap (mirror_run a ops), m') /\
    run ops mZ = Ok (mirror_run a ops, mZ') /\
    Paired (mirror_after a ops) m' mZ'.
Proof.
  induction ops as [|[l r val | l r] ops IH]; intros a m mZ HP; simpl.
  - exists m, mZ. split; [reflexivity|]. split; [reflexivity | exact HP].
  - destruct (updateRange_Paired a l r val m mZ HP) as (m1 & z1 & Hu & HuZ & HP1).
    rewrite (bind_Ok _ _ _ _ _ Hu), (bind_Ok _ _ _ _ _ HuZ). apply IH, HP1.
  - destruct (queryRange_Paired a l r m mZ HP) as (m1 & z1 & Hq & HqZ & HP1).
    rewrite (bind_Ok _ _ _ _ _ Hq), (bind_Ok _ _ _ _ _ HqZ).
    destruct (IH a m1 z1 HP1) as (m2 & z2 & Hr & HrZ & HP2).
    rewrite (bind_Ok _ _ _ _ _ Hr), (bind_Ok _ _ _ _ _ HrZ).
    exists m2, z2. split; [reflexivity|]. split; [reflexivity | exact HP2].
Qed.

(** The machine session returns the [int]s of what the mirror returns. *)
Lemma session_Paired arr ops :
  4 * Z.of_nat (length arr) <= INT_MAX ->
  exists m mZ,
    Int32.session arr ops
      = Int32.Returns (Ok (map wrap (mirror_run arr ops), m)) /\
    session arr ops = Ok (mirror_run arr ops, mZ) /\
    Paired (mirror_after arr ops) m mZ.
Proof.
  intros Hcap.
  destruct (construct_Paired arr Hcap) as (m0 & z0 & Hc & HcZ & HP0).
  destruct (run_Paired ops arr m0 z0 HP0) as (m & mZ & Hr & HrZ & HP).
  exists m, mZ. unfold Int32.session, session. rewrite Hc. simpl.
  rewrite Hr, (bind_Ok _ _ _ _ _ HcZ). auto.
Qed.

Lemma session_int32_unique arr ops res m :
  4 * Z.of_nat (length arr) <= INT_MAX ->
  Int32.session arr ops = Int32.Returns (Ok (res, m)) ->
  res = map wrap (mirror_run arr ops) /\
  exists mZ, session arr ops = Ok (mirror_run arr ops, mZ) /\
             Paired (mirror_after arr ops) m mZ.
Proof.
  intros Hcap H.
  destruct (session_Paired arr ops Hcap) as (m' & mZ & H' & HZ & HP).
  rewrite H in H'. injection H' as -> ->. eauto.
Qed.

Lemma query_after_int32 arr ops l r :
  4 * Z.of_nat (length arr) <= INT_MAX ->
  Int32.query_after arr ops l r
  = Some (wrap (mirror_sum l r (mirror_after arr ops))).
Proof.
  intros Hcap.
  destruct (construct_Paired arr Hcap) as (m0 & z0 & Hc & HcZ & HP0).
  destruct (run_Paired ops arr m0 z0 HP0) as (m & mZ & Hr & HrZ & HP).
  destruct (queryRange_Paired _ l r m mZ HP) as (m' & mZ' & Hq & _).
  unfold Int32.query_after. rewrite Hc. simpl.
  rewrite (bind_Ok _ _ _ _ _ Hr), Hq. reflexivity.
Qed.

Lemma Forall_sublist {A} (P : A -> Prop) (l1 l2 : list A) :
  l1 `sublist_of` l2 -> Forall P l2 -> Forall P l1.
Proof.
  induction 1 as [|x l1 l2 _ IH|x l1 l2 _ IH]; intros HF.
  - constructor.
  - inversion HF; subst. constructor; auto.
  - inversion HF; subst. auto.
Qed.

(** ** Nodes of the machine object *)

Lemma node_at_sim s sZ node st e k :
  sim s sZ -> node_at s node st e k ->
  exists kZ, node_at sZ node st e kZ /\ same_int k kZ.
Proof.
  intros Hsim. pose proof Hsim as (Hn & _ & _ & _ & HL).
  induction 1 as [Hpos | node st e k _ (kZ & HatZ & Hk) Hlt
                       | node st e k _ (kZ & HatZ & Hk) Hlt].
  - exists 0. rewrite Hn in *. split; [apply node_root; assumption | reflexivity].
  - exists (kZ + L sZ node). split; [apply node_left; assumption|].
    rewrite HL, Hk, wrap_same. reflexivity.
  - exists (kZ + L sZ node). split; [apply node_right; assumption|].
    rewrite HL, Hk, wrap_same. reflexivity.
Qed.

Lemma sim_in_int s sZ p : sim s sZ -> in_int (T s p) /\ in_int (L s p).
Proof.
  intros (_ & _ & _ & HT & HL). rewrite HT, HL. split; apply wrap_range.
Qed.

(** A construction that finds [tree] empty stops at its first leaf: for
    a range of [2 ^ h] indices, at the position [node * 2 ^ h]. *)
Lemma build_recursive_on_empty arr (h : nat) :
  forall (fuel : nat) node s st tr,
  tree st = [] -> 0 <= s ->
  s + 2 ^ Z.of_nat h - 1 < Z.of_nat (length arr) ->
  s + 2 ^ Z.of_nat h - 1 < 2147483647 ->
  0 <= node -> node * 2 ^ Z.of_nat h < 2147483648 ->
  Z.of_nat h < Z.of_nat fuel ->
  Int32.build_recursive fuel arr node s (s + 2 ^ Z.of_nat h - 1) (st, tr)
  = OutOfBounds (node * 2 ^ Z.of_nat h).
Proof.
  induction h as [|h IH]; intros fuel node s st tr Ht Hs Hlen He Hn Hnode Hf;
    (destruct fuel as [|fuel]; [lia|]).
  - change (2 ^ Z.of_nat 0) with 1 in *.
    replace (s + 1 - 1) with s in * by lia.
    simpl Int32.build_recursive. rewrite bind_log.
    rewrite bool_decide_eq_true_2 by reflexivity.
    rewrite bind_arr_get by lia.
    unfold tree_put, vec_set. simpl. rewrite Ht. simpl.
    rewrite bool_decide_eq_false_2 by lia. f_equal. lia.
  - rewrite Nat2Z.inj_succ, Z.pow_succ_r in * by lia.
    pose proof (Z.pow_pos_nonneg 2 (Z.of_nat h) ltac:(lia) ltac:(lia)) as Hp.
    simpl Int32.build_recursive. rewrite bind_log.
    rewrite bool_decide_eq_false_2 by lia. cbv zeta.
    rewrite midpoint_small by lia.
    assert (midpoint s (s + 2 * 2 ^ Z.of_nat h - 1) = s + 2 ^ Z.of_nat h - 1)
      as ->.
    { pose proof (midpoint_halves s (s + 2 * 2 ^ Z.of_nat h - 1) ltac:(lia)).
      lia. }
    rewrite double_small by nia.
    unfold bind at 1.
    rewrite IH by (assumption || nia || lia). f_equal. ring.
Qed.

Lemma construct_overflow arr :
  Z.of_nat (length arr) = 1073741824 ->
  Int32.construct arr fresh = Int32.Returns (OutOfBounds 1073741824).
Proof.
  intros Hlen. unfold Int32.construct. rewrite Hlen.
  rewrite (wrap_small 1073741824) by (unfold in_int, INT_MIN, INT_MAX; lia).
  rewrite bool_decide_eq_false_2 by lia.
  assert (Int32.mul 4 1073741824 = 0) as -> by reflexivity.
  rewrite bool_decide_eq_false_2 by lia.
  rewrite pred_small by lia. cbv zeta.
  change (1073741824 - 1) with (0 + 2 ^ Z.of_nat 30 - 1).
  rewrite (build_recursive_on_empty arr 30).
  - reflexivity.
  - reflexivity.
  - lia.
  - rewrite Hlen. reflexivity.
  - reflexivity.
  - unfold ROOT_NODE. lia.
  - reflexivity.
  - rewrite Z2Nat.id; lia.
Qed.

(** At [2 ^ 29] elements the [int] [4 * n] is negative, and [resize]
    refuses the size it stands for. *)
Lemma construct_length_error arr :
  Z.of_nat (length arr) = 536870912 ->
  Int32.construct arr fresh = Int32.LengthError.
Proof.
  intros Hlen. unfold Int32.construct. rewrite Hlen.
  rewrite (wrap_small 536870912) by (unfold in_int, INT_MIN, INT_MAX; lia).
  rewrite bool_decide_eq_false_2 by lia.
  assert (Int32.mul 4 536870912 = -2147483648) as -> by reflexivity.
  rewrite bool_decide_eq_true_2 by lia. reflexivity.
Qed.

Lemma length_big_array :
  Z.of_nat (length (replicate (Z.to_nat 1073741824) 0)) = 1073741824.
Proof. rewrite length_replicate. apply Z2Nat.id. lia. Qed.

Lemma big_array_fails :
  Int32.session (replicate (Z.to_nat 1073741824) 0) []
  = Int32.Returns (OutOfBounds 1073741824).
Proof.
  unfold Int32.session. rewrite (construct_overflow _ length_big_array).
  reflexivity.
Qed.

(** * The claims that speak of values and sizes *)

(** C3, as the code has it (the node's own pending delta is not yet in its
    aggregate), in the arithmetic of [int].  After the construction from an
    array whose four-fold size is an [int] and any sequence of calls, for
    every node with range [[s, e]]: the sum of the mirror over [[s, e]] and
    the node's aggregate plus [(e - s + 1)] times the sum of the pending
    deltas stored at the node itself and at its proper ancestors are the
    same [int]; they are equal when neither overflows; and the sum is the
    aggregate alone when it does not overflow and neither the node nor its
    ancestors hold a pending delta. *)
Theorem C3_aggregate_lacks_pending_int
    (arr : list Z) (ops : list op) (res : list Z) (m : machine)
    (node s e k : Z) :
  4 * Z.of_nat (length arr) <= INT_MAX ->
  Int32.session arr ops = Int32.Returns (Ok (res, m)) ->
  node_at m.1 node s e k ->
  wrap (range_sum (idx (mirror_after arr ops)) s e)
  = wrap (T m.1 node + (e - s + 1) * (L m.1 node + k)) /\
  (in_int (range_sum (idx (mirror_after arr ops)) s e) ->
   in_int (T m.1 node + (e - s + 1) * (L m.1 node + k)) ->
   range_sum (idx (mirror_after arr ops)) s e
   = T m.1 node + (e - s + 1) * (L m.1 node + k)) /\
  (in_int (range_sum (idx (mirror_after arr ops)) s e) ->
   L m.1 node = 0 -> k = 0 ->
   range_sum (idx (mirror_after arr ops)) s e = T m.1 node).
Proof.
  intros Hcap Hs Hat.
  destruct (session_int32_unique _ _ _ _ Hcap Hs)
    as (_ & mZ & _ & ((Hn & _ & Hrep) & Hsim & _)).
  destruct (node_at_sim _ _ _ _ _ _ Hsim Hat) as (kZ & HatZ & Hk).
  assert (1 <= n mZ.1) as Hpos by (clear -HatZ; induction HatZ; assumption).
  destruct Hrep as [_ HR]; [lia|]. rewrite <- Hn in HR.
  pose proof (Rep_sum _ _ _ _ _ _ (node_at_Rep _ _ _ _ _ _ HR HatZ)) as Hsum.
  pose proof Hsim as (_ & _ & _ & HT & HL).
  assert (wrap (range_sum (idx (mirror_after arr ops)) s e)
          = wrap (T m.1 node + (e - s + 1) * (L m.1 node + k))) as Hw.
  { replace (range_sum (idx (mirror_after arr ops)) s e)
      with (T mZ.1 node + (e - s + 1) * (L mZ.1 node + kZ)) by lia.
    rewrite HT, HL.
    change (same_int (T mZ.1 node + (e - s + 1) * (L mZ.1 node + kZ))
              (wrap (T mZ.1 node) + (e - s + 1) * (wrap (L mZ.1 node) + k))).
    rewrite Hk, !wrap_same. reflexivity. }
  split; [exact Hw|]. split.
  - intros H1 H2. rewrite <- (wrap_small _ H1), <- (wrap_small _ H2). exact Hw.
  - intros H1 Hz Hk0. rewrite Hz, Hk0 in Hw.
    replace (T m.1 node + (e - s + 1) * (0 + 0)) with (T m.1 node) in Hw by lia.
    rewrite (wrap_small _ H1) in Hw. rewrite Hw.
    apply wrap_small, (sim_in_int _ _ _ Hsim).
Qed.

Lemma C3_aggregate_lacks_pending_int_witness :
  range_sum (idx (mirror_after [1; 2] [Update 0 1 5])) 0 0
  = T pending_leaf_state.1 2 + (0 - 0 + 1) * (L pending_leaf_state.1 2 + 0).
Proof.
  assert (4 * Z.of_nat (length [1; 2]) <= INT_MAX) as Hcap
    by (vm_compute; discriminate).
  assert (Int32.session [1; 2] [Update 0 1 5]
          = Int32.Returns (Ok ([], pending_leaf_state))) as Hs
    by (vm_compute; reflexivity).
  assert (node_at pending_leaf_state.1 2 0 0 0) as Hat.
  { apply (node_left pending_leaf_state.1 1 0 1 0); [|lia].
    apply (node_root pending_leaf_state.1). vm_compute. discriminate. }
  apply (proj1 (proj2 (C3_aggregate_lacks_pending_int _ _ _ _ 2 0 0 0
                         Hcap Hs Hat))).
  - split; vm_compute; discriminate.
  - split; vm_compute; discriminate.
Defined.

(** C3 as the specification states it fails, overflow or not: on the tree
    of [[1; 2]] after [updateRange 0 1 5], the leaf at position 2 has no
    proper ancestor with a pending delta, yet the value 6 it represents is
    not its aggregate 1. *)
Lemma C3_as_stated_fails_int :
  ~ (forall (arr : list Z) (ops : list op) (res : list Z) (m : machine)
            (node s e k : Z),
       4 * Z.of_nat (length arr) <= INT_MAX ->
       Int32.session arr ops = Int32.Returns (Ok (res, m)) ->
       node_at m.1 node s e k ->
       in_int (range_sum (idx (mirror_after arr ops)) s e) ->
       range_sum (idx (mirror_after arr ops)) s e
       = T m.1 node + (e - s + 1) * k).
Proof.
  intros H.
  assert (Int32.session [1; 2] [Update 0 1 5]
          = Int32.Returns (Ok ([], pending_leaf_state))) as Hs
    by (vm_compute; reflexivity).
  assert (node_at pending_leaf_state.1 2 0 0 0) as Hat.
  { apply (node_left pending_leaf_state.1 1 0 1 0); [|lia].
    apply (node_root pending_leaf_state.1). vm_compute. discriminate. }
  assert (4 * Z.of_nat (length [1; 2]) <= INT_MAX) as Hcap
    by (vm_compute; discriminate).
  assert (in_int (range_sum (idx (mirror_after [1; 2] [Update 0 1 5])) 0 0))
    as Hin by (split; vm_compute; discriminate).
  specialize (H _ _ _ _ 2 0 0 0 Hcap Hs Hat Hin).
  vm_compute in H. discriminate H.
Qed.

(** C5, with the proviso it needs.  Right after the construction from a
    non-empty array [arr] of size [N] with [4 * N] an [int]:
    [queryRange 0 (N - 1)] is the [int] of the sum of the elements of
    [arr], hence that sum when it does not overflow, and [queryRange i i]
    is [arr[i]] for every index [i] whose element is an [int]. *)
Theorem C5_build_correct_int (arr : list Z) :
  arr <> [] -> 4 * Z.of_nat (length arr) <= INT_MAX ->
  Int32.query_after arr [] 0 (Z.of_nat (length arr) - 1)
  = Some (wrap (foldr Z.add 0 arr)) /\
  (in_int (foldr Z.add 0 arr) ->
   Int32.query_after arr [] 0 (Z.of_nat (length arr) - 1)
   = Some (foldr Z.add 0 arr)) /\
  (forall (i : nat) (x : Z),
     arr !! i = Some x -> in_int x ->
     Int32.query_after arr [] (Z.of_nat i) (Z.of_nat i) = Some x).
Proof.
  intros Hne Hcap.
  assert (0 < length arr)%nat as Hlen by (destruct arr; [congruence | simpl; lia]).
  assert (Int32.query_after arr [] 0 (Z.of_nat (length arr) - 1)
          = Some (wrap (foldr Z.add 0 arr))) as Hall.
  { rewrite query_after_int32 by exact Hcap. simpl. rewrite mirror_sum_valid.
    - rewrite range_sum_all. reflexivity.
    - unfold valid. lia. }
  split; [exact Hall|]. split.
  - intros Hin. rewrite Hall, (wrap_small _ Hin). reflexivity.
  - intros i x Hi Hin. pose proof (lookup_lt_Some _ _ _ Hi) as Hlt.
    rewrite query_after_int32 by exact Hcap. simpl. rewrite mirror_sum_valid.
    + rewrite range_sum_single, (idx_lookup _ _ _ Hi), (wrap_small _ Hin).
      reflexivity.
    + unfold valid. lia.
Qed.

Lemma C5_build_correct_int_witness :
  [1; 2; 3; 4; 5] <> [] /\ 4 * Z.of_nat (length [1; 2; 3; 4; 5]) <= INT_MAX /\
  in_int (foldr Z.add 0 [1; 2; 3; 4; 5]) /\ in_int 3 /\
  Int32.query_after [1; 2; 3; 4; 5] [] 0 4 = Some 15 /\
  Int32.query_after [1; 2; 3; 4; 5] [] 2 2 = Some 3.
Proof.
  assert ([1; 2; 3; 4; 5] <> []) as Hne by discriminate.
  assert (4 * Z.of_nat (length [1; 2; 3; 4; 5]) <= INT_MAX) as Hcap
    by (vm_compute; discriminate).
  assert (in_int (foldr Z.add 0 [1; 2; 3; 4; 5])) as Hsum
    by (split; vm_compute; discriminate).
  assert (in_int 3) as H3 by (split; vm_compute; discriminate).
  split; [exact Hne|]. split; [exact Hcap|]. split; [exact Hsum|].
  split; [exact H3|].
  destruct (C5_build_correct_int [1; 2; 3; 4; 5] Hne Hcap) as (_ & Hall & Hpt).
  split; [exact (Hall Hsum) | exact (Hpt 2%nat 3 eq_refl H3)].
Defined.

(** C5 as the specification states it fails: the elements of
    [[2147483647; 1]] are [int]s, their sum 2147483648 is not, and
    [queryRange 0 1] returns -2147483648. *)
Lemma C5_as_stated_fails :
  ~ (forall arr : list Z,
       arr <> [] -> Forall in_int arr ->
       4 * Z.of_nat (length arr) <= INT_MAX ->
       Int32.query_after arr [] 0 (Z.of_nat (length arr) - 1)
       = Some (foldr Z.add 0 arr) /\
       (forall (i : nat) (x : Z),
          arr !! i = Some x ->
          Int32.query_after arr [] (Z.of_nat i) (Z.of_nat i) = Some x)).
Proof.
  intros H.
  destruct (H [2147483647; 1]) as [Hall _].
  - discriminate.
  - repeat constructor; vm_compute; discriminate.
  - vm_compute. discriminate.
  - vm_compute in Hall. discriminate Hall.
Qed.

(** C7, with the bound it needs.  For an array of size [N >= 1] with
    [4 * N] an [int] and any sequence of calls, the session runs to its
    end, the two vectors keep the size [4 * N] given at construction, and
    every position of [tree] and [lazy] read or written on the way lies in
    [[1, 4 * N)]. *)
Theorem C7_subscripts_in_bounds_int (arr : list Z) (ops : list op) :
  1 <= Z.of_nat (length arr) -> 4 * Z.of_nat (length arr) <= INT_MAX ->
  exists res m,
    Int32.session arr ops = Int32.Returns (Ok (res, m)) /\
    Z.of_nat (length (tree m.1)) = 4 * Z.of_nat (length arr) /\
    Z.of_nat (length (lazy m.1)) = 4 * Z.of_nat (length arr) /\
    Forall (subscript_within 1 (4 * Z.of_nat (length arr))) m.2.
Proof.
  intros HN Hcap.
  destruct (session_Paired arr ops Hcap)
    as (m & mZ & Hs & _ & ((_ & Htr & Hrep) & Hsim & Hsub & _)).
  rewrite length_mirror_after in Htr, Hrep.
  destruct Hrep as [Hsz _]; [lia|].
  destruct (sim_sized _ _ _ Hsim Hsz) as [Ht Hl].
  exists (map wrap (mirror_run arr ops)), m.
  split; [exact Hs|]. split; [exact Ht|]. split; [exact Hl|].
  eapply Forall_impl; [|eapply Forall_sublist; [exact Hsub | exact Htr]].
  intros ev [Hin _]. exact Hin.
Qed.

Lemma C7_subscripts_in_bounds_int_witness :
  1 <= Z.of_nat (length [1; 2; 3; 4; 5]) /\
  4 * Z.of_nat (length [1; 2; 3; 4; 5]) <= INT_MAX /\
  exists res m,
    Int32.session [1; 2; 3; 4; 5] [Update 1 3 10; Query 0 4]
      = Int32.Returns (Ok (res, m)) /\
    Forall (subscript_within 1 20) m.2.
Proof.
  assert (1 <= Z.of_nat (length [1; 2; 3; 4; 5])) as HN by (simpl; lia).
  assert (4 * Z.of_nat (length [1; 2; 3; 4; 5]) <= INT_MAX) as Hcap
    by (vm_compute; discriminate).
  split; [exact HN|]. split; [exact Hcap|].
  destruct (C7_subscripts_in_bounds_int [1; 2; 3; 4; 5]
              [Update 1 3 10; Query 0 4] HN Hcap)
    as (res & m & Hs & _ & _ & Htr).
  exists res, m. split; [exact Hs | exact Htr].
Defined.

(** C7 as the specification states it fails: for an array of [2 ^ 30]
    elements the [int] [4 * n] is 0, the vectors get no element, and the
    construction subscripts [tree] outside it. *)
Lemma C7_as_stated_fails :
  ~ (forall (arr : list Z) (ops : list op),
       1 <= Z.of_nat (length arr) ->
       exists res m,
         Int32.session arr ops = Int32.Returns (Ok (res, m)) /\
         Z.of_nat (length (tree m.1)) = 4 * Z.of_nat (length arr) /\
         Z.of_nat (length (lazy m.1)) = 4 * Z.of_nat (length arr) /\
         Forall (subscript_within 1 (4 * Z.of_nat (length arr))) m.2).
Proof.
  intros H.
  destruct (H (replicate (Z.to_nat 1073741824) 0) []) as (res & m & Hs & _).
  { rewrite length_big_array. lia. }
  rewrite big_array_fails in Hs. discriminate Hs.
Qed.

(** * Further properties, in the arithmetic of [int] *)

(** A machine is reachable when a session on an array whose four-fold
    size is an [int] ends in it. *)
Definition reachable_int (m : machine) : Prop :=
  exists arr ops res,
    4 * Z.of_nat (length arr) <= INT_MAX /\
    Int32.session arr ops = Int32.Returns (Ok (res, m)).

Lemma reachable_int_Paired m :
  reachable_int m -> exists a mZ, Paired a m mZ /\ reachable mZ.
Proof.
  intros (arr & ops & res & Hcap & Hs).
  destruct (session_int32_unique _ _ _ _ Hcap Hs) as (_ & mZ & HZ & HP).
  exists (mirror_after arr ops), mZ. split; [exact HP|].
  exists arr, ops, (mirror_run arr ops). exact HZ.
Qed.

Lemma Paired_n a m mZ : Paired a m mZ -> n m.1 = Z.of_nat (length a).
Proof. intros ((Hn & _) & (Hn' & _) & _). congruence. Qed.

Lemma map_wrap_in_int (xs : list Z) : Forall in_int xs -> map wrap xs = xs.
Proof.
  induction 1 as [|x xs Hx _ IH]; simpl; [reflexivity|].
  rewrite (wrap_small _ Hx), IH. reflexivity.
Qed.

(** X16 (the mirror is refined modulo [2 ^ 32]).  For an array whose
    four-fold size is an [int] and any sequence of calls, the session runs
    to its end and each query returns the [int] of what the mirror
    returns; when every answer of the mirror is an [int], the answers are
    those of the ideal reading. *)
Theorem X16_session_returns_the_ints_of_the_mirror
    (arr : list Z) (ops : list op) :
  4 * Z.of_nat (length arr) <= INT_MAX ->
  Int32.result (Int32.session arr ops) = Some (map wrap (mirror_run arr ops)) /\
  (Forall in_int (mirror_run arr ops) ->
   Int32.result (Int32.session arr ops) = answers (session arr ops)).
Proof.
  intros Hcap.
  destruct (session_Paired arr ops Hcap) as (m & mZ & Hs & HZ & _).
  rewrite Hs, HZ. simpl. split; [reflexivity|].
  intros Hin. rewrite (map_wrap_in_int _ Hin). reflexivity.
Qed.

Lemma X16_session_returns_the_ints_of_the_mirror_witness :
  4 * Z.of_nat (length [2147483647; 1]) <= INT_MAX /\
  Int32.result (Int32.session [2147483647; 1] [Query 0 0; Query 0 1])
  = Some [2147483647; -2147483648].
Proof.
  assert (4 * Z.of_nat (length [2147483647; 1]) <= INT_MAX) as Hcap
    by (vm_compute; discriminate).
  split; [exact Hcap|].
  exact (proj1 (X16_session_returns_the_ints_of_the_mirror
                  [2147483647; 1] [Query 0 0; Query 0 1] Hcap)).
Defined.

(** X1 (an update adds its delta once per shared index).  In a reachable
    state, for valid ranges [[l, r]] and [[x, y]], [queryRange x y] after
    [updateRange l r delta] returns the [int] of what it returned before
    plus [delta] times the number of indices the two ranges share: that
    very number when it does not overflow. *)
Theorem X1_update_adds_delta_per_shared_index_int
    (m : machine) (l r delta x y : Z) :
  reachable_int m -> valid (n m.1) l r -> valid (n m.1) x y ->
  exists q m1,
    Int32.queryRange x y m = Ok (q, m1) /\
    answers ((Int32.updateRange l r delta ;;; Int32.queryRange x y) m)
    = Some (wrap (q + delta * overlap l r x y)) /\
    (in_int (q + delta * overlap l r x y) ->
     answers ((Int32.updateRange l r delta ;;; Int32.queryRange x y) m)
     = Some (q + delta * overlap l r x y)).
Proof.
  intros (a & mZ & HP & _)%reachable_int_Paired Hv Hxy.
  rewrite (Paired_n _ _ _ HP) in *.
  destruct (queryRange_Paired a x y m mZ HP) as (m1 & z1 & Hq & _).
  destruct (updateRange_Paired a l r delta m mZ HP) as (m2 & z2 & Hu & _ & HP2).
  destruct (queryRange_Paired _ x y m2 z2 HP2) as (m3 & z3 & Hq3 & _).
  exists (wrap (mirror_sum x y a)), m1. split; [exact Hq|].
  assert (answers ((Int32.updateRange l r delta ;;; Int32.queryRange x y) m)
          = Some (wrap (wrap (mirror_sum x y a) + delta * overlap l r x y)))
    as Hpost.
  { rewrite (bind_Ok _ _ _ _ _ Hu), Hq3. simpl. f_equal.
    rewrite !mirror_sum_valid by (rewrite ?length_mirror_add; exact Hxy).
    rewrite range_sum_mirror_add_overlap by assumption. wrap_solve. }
  split; [exact Hpost|].
  intros Hin. rewrite Hpost, (wrap_small _ Hin). reflexivity.
Qed.

Lemma X1_update_adds_delta_per_shared_index_int_witness :
  reachable_int scenario_state /\
  valid (n scenario_state.1) 1 3 /\ valid (n scenario_state.1) 3 4 /\
  answers ((Int32.updateRange 1 3 10 ;;; Int32.queryRange 3 4) scenario_state)
  = Some (9 + 10 * overlap 1 3 3 4).
Proof.
  assert (valid (n scenario_state.1) 1 3) as Hv
    by (vm_compute; intuition discriminate).
  assert (valid (n scenario_state.1) 3 4) as Hxy
    by (vm_compute; intuition discriminate).
  assert (reachable_int scenario_state) as Hr.
  { exists [1; 2; 3; 4; 5], [], []. split; [vm_compute; discriminate|].
    vm_compute. reflexivity. }
  split; [exact Hr|]. split; [exact Hv|]. split; [exact Hxy|].
  destruct (X1_update_adds_delta_per_shared_index_int scenario_state 1 3 10 3 4
              Hr Hv Hxy) as (q & m1 & Hq & _ & Hpost).
  assert (q = 9) as -> by (vm_compute in Hq; congruence).
  apply Hpost. split; vm_compute; discriminate.
Defined.

(** X2 (range sums are additive).  In a reachable state, for a valid range
    [[l, r]] and a cut [l <= k < r], the three queries on [[l, k]],
    [[k + 1, r]] and [[l, r]], made one after the other, return [q1], [q2]
    and the [int] of [q1 + q2]: [q1 + q2] itself when it does not
    overflow. *)
Theorem X2_query_splits_at_any_cut_int (m : machine) (l k r : Z) :
  reachable_int m -> valid (n m.1) l r -> l <= k < r ->
  exists q1 q2,
    answers (Int32.run [Query l k; Query (k + 1) r; Query l r] m)
    = Some [q1; q2; wrap (q1 + q2)] /\
    (in_int (q1 + q2) ->
     answers (Int32.run [Query l k; Query (k + 1) r; Query l r] m)
     = Some [q1; q2; q1 + q2]).
Proof.
  intros (a & mZ & HP & _)%reachable_int_Paired (H1 & H2 & H3) Hk.
  rewrite (Paired_n _ _ _ HP) in *.
  destruct (run_Paired [Query l k; Query (k + 1) r; Query l r] a m mZ HP)
    as (m' & z' & Hr & _).
  exists (wrap (range_sum (idx a) l k)), (wrap (range_sum (idx a) (k + 1) r)).
  assert (answers (Int32.run [Query l k; Query (k + 1) r; Query l r] m)
          = Some [wrap (range_sum (idx a) l k);
                  wrap (range_sum (idx a) (k + 1) r);
                  wrap (wrap (range_sum (idx a) l k)
                        + wrap (range_sum (idx a) (k + 1) r))]) as Hall.
  { rewrite Hr. simpl.
    rewrite !mirror_sum_valid by (unfold valid; lia).
    rewrite (range_sum_split (idx a) l k r) by lia.
    do 4 f_equal. wrap_solve. }
  split; [exact Hall|].
  intros Hin. rewrite Hall, (wrap_small _ Hin). reflexivity.
Qed.

Lemma X2_query_splits_at_any_cut_int_witness :
  reachable_int scenario_state /\ valid (n scenario_state.1) 0 4 /\
  0 <= 1 < 4 /\
  answers (Int32.run [Query 0 1; Query (1 + 1) 4; Query 0 4] scenario_state)
  = Some [3; 12; 15].
Proof.
  assert (valid (n scenario_state.1) 0 4) as Hv
    by (vm_compute; intuition discriminate).
  assert (reachable_int scenario_state) as Hr.
  { exists [1; 2; 3; 4; 5], [], []. split; [vm_compute; discriminate|].
    vm_compute. reflexivity. }
  assert (0 <= 1 < 4) as Hk by lia.
  split; [exact Hr|]. split; [exact Hv|]. split; [exact Hk|].
  destruct (X2_query_splits_at_any_cut_int scenario_state 0 1 4 Hr Hv Hk)
    as (q1 & q2 & Hq & _).
  assert (answers (Int32.run [Query 0 1; Query (1 + 1) 4; Query 0 4]
                     scenario_state) = Some [3; 12; 15]) as Hc
    by (vm_compute; reflexivity).
  pose proof Hq as Hq'. rewrite Hc in Hq'. injection Hq' as <- <- _.
  rewrite Hq. reflexivity.
Defined.

(** ** The root of the tree *)

Lemma session_root arr ops res m :
  arr <> [] -> session arr ops = Ok (res, m) ->
  L m.1 ROOT_NODE = 0 /\
  T m.1 ROOT_NODE = foldr Z.add 0 (mirror_after arr ops).
Proof.
  intros Hne Hs.
  assert (Z.of_nat (length arr) <> 0) as HN
    by (destruct arr; [congruence | simpl; lia]).
  pose proof (session_unique _ _ _ _ Hs) as [_ (Hn & _ & Hrep)].
  rewrite length_mirror_after in Hn, Hrep.
  destruct (Hrep HN) as [_ HR].
  unfold session in Hs. apply bind_inv in Hs as (u & [st0 tr0] & Hc & Hr).
  apply construct_effect in Hc as (_ & Hz0 & _).
  destruct m as [st tr]. apply run_effect in Hr as [_ Hz]. simpl in *.
  specialize (Hz (Hz0 ROOT_NODE)). split; [exact Hz|].
  apply Rep_sum in HR. rewrite Hz in HR.
  rewrite <- range_sum_all, length_mirror_after. lia.
Qed.

(** X9 (the root is always current).  In every state that a session on a
    non-empty array ends in, the root holds no pending delta and its
    aggregate [tree[1]] is the [int] of the sum of the whole mirror: that
    sum itself when it does not overflow. *)
Theorem X9_root_aggregate_is_the_total_int
    (arr : list Z) (ops : list op) (res : list Z) (m : machine) :
  arr <> [] -> 4 * Z.of_nat (length arr) <= INT_MAX ->
  Int32.session arr ops = Int32.Returns (Ok (res, m)) ->
  L m.1 ROOT_NODE = 0 /\
  T m.1 ROOT_NODE = wrap (foldr Z.add 0 (mirror_after arr ops)) /\
  (in_int (foldr Z.add 0 (mirror_after arr ops)) ->
   T m.1 ROOT_NODE = foldr Z.add 0 (mirror_after arr ops)).
Proof.
  intros Hne Hcap Hs.
  destruct (session_int32_unique _ _ _ _ Hcap Hs)
    as (_ & mZ & HZ & (_ & (_ & _ & _ & HT & HL) & _)).
  destruct (session_root _ _ _ _ Hne HZ) as [Hz Hsum].
  assert (T m.1 ROOT_NODE = wrap (foldr Z.add 0 (mirror_after arr ops))) as Hroot
    by (rewrite HT, Hsum; reflexivity).
  split; [rewrite HL, Hz; reflexivity|]. split; [exact Hroot|].
  intros Hin. rewrite Hroot. apply wrap_small, Hin.
Qed.

Lemma X9_root_aggregate_is_the_total_int_witness :
  [1; 2] <> [] /\ 4 * Z.of_nat (length [1; 2]) <= INT_MAX /\
  T pending_leaf_state.1 ROOT_NODE = 13.
Proof.
  assert ([1; 2] <> []) as Hne by discriminate.
  assert (4 * Z.of_nat (length [1; 2]) <= INT_MAX) as Hcap
    by (vm_compute; discriminate).
  split; [exact Hne|]. split; [exact Hcap|].
  assert (Int32.session [1; 2] [Update 0 1 5]
          = Int32.Returns (Ok ([], pending_leaf_state))) as Hs
    by (vm_compute; reflexivity).
  destruct (X9_root_aggregate_is_the_total_int [1; 2] [Update 0 1 5] []
              pending_leaf_state Hne Hcap Hs) as (_ & _ & HT).
  rewrite HT; [vm_compute; reflexivity | split; vm_compute; discriminate].
Defined.

(** ** Calls on the whole range *)

Lemma reachable_int_root m :
  reachable_int m -> n m.1 <> 0 ->
  L m.1 ROOT_NODE = 0 /\ sized (4 * n m.1) m.1 /\ 4 * n m.1 <= INT_MAX.
Proof.
  intros (a & mZ & HP & HrZ)%reachable_int_Paired Hnz.
  pose proof (Paired_n _ _ _ HP) as Hn.
  destruct HP as ((HnZ & _ & Hrep) & Hsim & _ & Hcap).
  destruct (reachable_root mZ HrZ ltac:(lia)) as [Hz Hsz].
  destruct Hsim as (Hnn & Ht & Hl & HT & HL).
  split; [rewrite HL, Hz; reflexivity|].
  split; [|lia].
  rewrite Hnn. destruct Hsz as [H1 H2]. split; lia.
Qed.

(** X15 (a call on the whole range stops at the root).  In a reachable
    state of a tree over [N >= 1] elements, [updateRange 0 (N - 1) val]
    enters [update_recursive] once, adds [val * N] to [tree[1]] and, when
    [N > 1], [val] to [lazy[2]] and [lazy[3]], each sum reduced to an
    [int], and changes nothing else; [queryRange 0 (N - 1)] enters
    [query_recursive] once, returns [tree[1]] and leaves the object
    unchanged. *)
Theorem X15_whole_range_calls_stop_at_the_root_int (m : machine) (val : Z) :
  reachable_int m -> 1 <= n m.1 ->
  (exists m',
     Int32.updateRange 0 (n m.1 - 1) val m = Ok (tt, m') /\
     calls_of UpdateRec m'.2 = S (calls_of UpdateRec m.2) /\
     n m'.1 = n m.1 /\
     (forall q, T m'.1 q =
        if decide (q = 1) then wrap (T m.1 1 + val * n m.1) else T m.1 q) /\
     (forall q, L m'.1 q =
        if decide (n m.1 <> 1 /\ (q = 2 \/ q = 3)) then wrap (L m.1 q + val)
        else L m.1 q)) /\
  (exists tr,
     Int32.queryRange 0 (n m.1 - 1) m = Ok (T m.1 1, (m.1, tr)) /\
     calls_of QueryRec tr = S (calls_of QueryRec m.2)).
Proof.
  intros Hr HN.
  destruct (reachable_int_root m Hr ltac:(lia)) as (Hz & Hsz & Hcap).
  unfold INT_MAX in Hcap.
  destruct m as [st tr]. simpl in *.
  set (N := n st) in *. set (cap := 4 * N) in *.
  assert (exists f, Z.to_nat N = S f) as [f Hf]
    by (exists (Z.to_nat N - 1)%nat; lia).
  assert (Int32.push ROOT_NODE 0 (N - 1)
            (st, Call UpdateRec ROOT_NODE 0 (N - 1) :: tr)
          = Ok (tt, (st, Lazy ROOT_NODE
                           :: Call UpdateRec ROOT_NODE 0 (N - 1) :: tr)))
    as Hpu.
  { unfold Int32.push.
    rewrite (bind_lazy_get cap) by (assumption || unfold ROOT_NODE; lia).
    rewrite Hz. reflexivity. }
  assert (Int32.push ROOT_NODE 0 (N - 1)
            (st, Call QueryRec ROOT_NODE 0 (N - 1) :: tr)
          = Ok (tt, (st, Lazy ROOT_NODE
                           :: Call QueryRec ROOT_NODE 0 (N - 1) :: tr)))
    as Hpq.
  { unfold Int32.push.
    rewrite (bind_lazy_get cap) by (assumption || unfold ROOT_NODE; lia).
    rewrite Hz. reflexivity. }
  split.
  - unfold Int32.updateRange. simpl. fold N.
    rewrite bool_decide_eq_false_2 by lia. rewrite Hf.
    rewrite pred_small by lia.
    simpl Int32.update_recursive. rewrite bind_log, (bind_Ok _ _ _ _ _ Hpu).
    rewrite bool_decide_eq_false_2 by lia.
    rewrite bool_decide_eq_true_2 by lia.
    rewrite width_small by lia. replace (N - 1 - 0 + 1) with N by lia.
    unfold ROOT_NODE in *.
    rewrite !(double_small 1) by lia. rewrite !(succ_small (2 * 1)) by lia.
    unfold Int32.add, Int32.mul.
    repeat run_step cap.
    case_bool_decide as Hne.
    + repeat run_step cap. eexists. split; [reflexivity|]. simpl.
      split; [reflexivity|]. split; [reflexivity|]. split.
      * intros q. read_back cap. goal_decide Hd; [wrap_solve | reflexivity].
      * intros q. read_back cap.
        repeat goal_decide Hd; subst; try lia; reflexivity.
    + repeat run_step cap. eexists. split; [reflexivity|]. simpl.
      split; [reflexivity|]. split; [reflexivity|]. split.
      * intros q. read_back cap. goal_decide Hd; [wrap_solve | reflexivity].
      * intros q. read_back cap.
        repeat goal_decide Hd; subst; try lia; reflexivity.
  - unfold Int32.queryRange. simpl. fold N.
    rewrite bool_decide_eq_false_2 by lia. rewrite Hf.
    rewrite pred_small by lia.
    simpl Int32.query_recursive. rewrite bind_log.
    rewrite bool_decide_eq_false_2 by lia.
    rewrite (bind_Ok _ _ _ _ _ Hpq).
    rewrite bool_decide_eq_true_2 by lia.
    unfold ROOT_NODE in *. run_step cap.
    eexists. split; [reflexivity|]. reflexivity.
Qed.

Lemma X15_whole_range_calls_stop_at_the_root_int_witness :
  reachable_int scenario_state /\ 1 <= n scenario_state.1 /\
  exists tr,
    Int32.queryRange 0 (5 - 1) scenario_state
    = Ok (15, (scenario_state.1, tr)).
Proof.
  assert (1 <= n scenario_state.1) as HN by (vm_compute; discriminate).
  assert (reachable_int scenario_state) as Hr.
  { exists [1; 2; 3; 4; 5], [], []. split; [vm_compute; discriminate|].
    vm_compute. reflexivity. }
  split; [exact Hr|]. split; [exact HN|].
  destruct (X15_whole_range_calls_stop_at_the_root_int scenario_state 0 Hr HN)
    as [_ (tr & Hq & _)].
  exists tr. exact Hq.
Defined.

(** ** What the calls leave alone, on any machine state *)

(** The subscripts of a trace at positions from [lo] on. *)
Definition subscript_from (lo : Z) (ev : event) : Prop :=
  match ev with
  | Tree i | Lazy i => lo <= i
  | Call _ _ _ _ => True
  end.

(** [grows P tr tr']: the trace [tr'] is [tr] with events added, each of
    which satisfies [P]. *)
Inductive grows (P : event -> Prop) (tr : list event) : list event -> Prop :=
| grows_refl : grows P tr tr
| grows_cons ev tr' : P ev -> grows P tr tr' -> grows P tr (ev :: tr').

Lemma grows_trans P tr1 tr2 tr3 :
  grows P tr1 tr2 -> grows P tr2 tr3 -> grows P tr1 tr3.
Proof.
  intros H12 H23. induction H23 as [|ev tr3 Hev _ IH]; [exact H12|].
  apply grows_cons; assumption.
Qed.

Lemma grows_impl (P Q : event -> Prop) tr tr' :
  (forall ev, P ev -> Q ev) -> grows P tr tr' -> grows Q tr tr'.
Proof.
  intros HPQ H. induction H as [|ev tr' Hev _ IH]; [apply grows_refl|].
  apply grows_cons; auto.
Qed.

Lemma grows_app P tr tr' :
  grows P tr tr' -> exists new, tr' = new ++ tr /\ Forall P new.
Proof.
  induction 1 as [|ev tr' Hev _ (new & -> & Hnew)].
  - exists []. split; [reflexivity | constructor].
  - exists (ev :: new). split; [reflexivity | constructor; assumption].
Qed.

(** A child position that is a subscript was computed without overflow. *)
Lemma left_child_int node :
  in_int node -> 0 <= node -> 0 <= Int32.mul 2 node ->
  Int32.mul 2 node = 2 * node.
Proof.
  unfold in_int, INT_MIN, INT_MAX, Int32.mul. intros Hin Hn Hc.
  pose proof (wrap_range (2 * node)) as Hr.
  unfold in_int, INT_MIN, INT_MAX in Hr.
  destruct (wrap_spec (2 * node)) as [q Hq]. lia.
Qed.

Lemma right_child_int node :
  in_int node -> 0 <= node -> 0 <= Int32.add (Int32.mul 2 node) 1 ->
  Int32.mul 2 node = 2 * node /\
  Int32.add (Int32.mul 2 node) 1 = 2 * node + 1 /\
  2 * node + 1 <= 2147483647.
Proof.
  unfold in_int, INT_MIN, INT_MAX, Int32.mul, Int32.add. intros Hin Hn Hc.
  pose proof (wrap_range (2 * node)) as Hr.
  pose proof (wrap_range (wrap (2 * node) + 1)) as Hr'.
  unfold in_int, INT_MIN, INT_MAX in Hr, Hr'.
  destruct (wrap_spec (2 * node)) as [q Hq].
  destruct (wrap_spec (wrap (2 * node) + 1)) as [q' Hq']. lia.
Qed.

Ltac grow_trace :=
  repeat first
    [ assumption
    | apply grows_refl
    | apply grows_cons; [simpl; lia|] ].

Lemma push_int_effect node s e st tr u st' tr' :
  in_int node ->
  Int32.push node s e (st, tr) = Ok (u, (st', tr')) ->
  0 <= node /\ frame_below node st st' /\
  grows (subscript_from node) tr tr'.
Proof.
  intros Hin H. unfold Int32.push in H. inv_run H.
  case_bool_decide as Hd.
  - inv_run H. case_bool_decide as Hse.
    + inv_run H. inv_last H.
      simpl in *. rewrite ?length_insert in *.
      destruct (right_child_int node Hin ltac:(lia) ltac:(lia)) as (El & Er & Hmax).
      rewrite ?Er, ?El in *.
      split; [lia|]. split; [frame_chain node | grow_trace].
    + inv_run H. inv_last H.
      simpl in *. rewrite ?length_insert in *.
      split; [lia|]. split; [frame_chain node | grow_trace].
  - inv_last H.
    split; [lia|]. split; [apply frame_below_refl | grow_trace].
Qed.

Lemma grows_from lo lo' tr tr' :
  lo <= lo' -> grows (subscript_from lo') tr tr' ->
  grows (subscript_from lo) tr tr'.
Proof.
  intros Hlo. apply grows_impl. intros [i|i|f nd s e]; simpl; lia.
Qed.

Lemma update_recursive_int_effect (fuel : nat) :
  forall node s e l r val st tr u st' tr',
  in_int node -> 1 <= node ->
  Int32.update_recursive fuel node s e l r val (st, tr) = Ok (u, (st', tr')) ->
  frame_below node st st' /\ grows (subscript_from node) tr tr'.
Proof.
  induction fuel as [|fuel IH];
    intros node s e l r val st tr u st' tr' Hin Hn H; [discriminate|].
  simpl Int32.update_recursive in H. rewrite bind_log in H.
  apply bind_inv in H as (u1 & [st1 tr1] & Hpush & H).
  apply push_int_effect in Hpush as (_ & Hfr1 & Hg1); [|exact Hin].
  assert (grows (subscript_from node) tr tr1) as Hg1'.
  { eapply grows_trans; [|exact Hg1]. apply grows_cons; [exact I|].
    apply grows_refl. }
  case_bool_decide as Hdis.
  - inv_last H. split; assumption.
  - case_bool_decide as Hinside.
    + inv_run H. case_bool_decide as Hse.
      * inv_run H. inv_last H. simpl in *. rewrite ?length_insert in *.
        destruct (right_child_int node Hin ltac:(lia) ltac:(lia)) as (El & Er & Hmax).
        rewrite ?Er, ?El in *.
        split; [frame_chain node | grow_trace].
      * inv_last H. split; [frame_chain node | grow_trace].
    + cbv zeta in H.
      apply bind_inv in H as (u2 & [st2 tr2] & Hl & H).
      apply bind_inv in H as (u3 & [st3 tr3] & Hr & H).
      inv_run H. inv_last H. simpl in *.
      destruct (right_child_int node Hin ltac:(lia) ltac:(lia)) as (El & Er & Hmax).
      rewrite ?Er, ?El in *.
      apply IH in Hl as [Hfr2 Hg2];
        [|unfold in_int, INT_MIN, INT_MAX in *; lia | lia].
      apply IH in Hr as [Hfr3 Hg3];
        [|unfold in_int, INT_MIN, INT_MAX in *; lia | lia].
      assert (frame_below node st st3) as Hfr.
      { eapply (frame_below_trans node node (2 * node + 1)); [|exact Hfr3|lia|lia].
        eapply (frame_below_trans node node (2 * node)); [|exact Hfr2|lia|lia].
        exact Hfr1. }
      assert (grows (subscript_from node) tr tr3) as Hg.
      { eapply grows_trans; [|eapply (grows_from node); [|exact Hg3]; lia].
        eapply grows_trans; [|eapply (grows_from node); [|exact Hg2]; lia].
        exact Hg1'. }
      split; [frame_chain node | grow_trace].
Qed.

Definition call_only (ev : event) : Prop :=
  match ev with
  | Call _ _ _ _ => True
  | _ => False
  end.

(** What a routine entered at [node] does to the machine: nothing but
    enter routines, or reads and writes at positions from [node] on, with
    [node] itself a subscript. *)
Definition touches_from (node : Z) (m m' : machine) : Prop :=
  (m'.1 = m.1 /\ grows call_only m.2 m'.2) \/
  (0 <= node /\ frame_below node m.1 m'.1 /\
   grows (subscript_from node) m.2 m'.2).

Lemma grows_call_only lo tr tr' :
  grows call_only tr tr' -> grows (subscript_from lo) tr tr'.
Proof. apply grows_impl. intros [i|i|f nd s e]; simpl; tauto. Qed.

Lemma touches_child node c m m' :
  (0 <= c -> node <= c) -> touches_from c m m' ->
  frame_below node m.1 m'.1 /\ grows (subscript_from node) m.2 m'.2.
Proof.
  intros Hc [[-> Hg] | (H0 & Hfr & Hg)].
  - split; [apply frame_below_refl | apply grows_call_only, Hg].
  - specialize (Hc H0). split.
    + eapply (frame_below_trans node c c); [apply frame_below_refl | exact Hfr | lia | lia].
    + eapply grows_from; [|exact Hg]. lia.
Qed.

Lemma query_recursive_int_effect (fuel : nat) :
  forall node s e l r st tr x st' tr',
  in_int node ->
  Int32.query_recursive fuel node s e l r (st, tr) = Ok (x, (st', tr')) ->
  touches_from node (st, tr) (st', tr').
Proof.
  induction fuel as [|fuel IH];
    intros node s e l r st tr x st' tr' Hin H; [discriminate|].
  simpl Int32.query_recursive in H. rewrite bind_log in H.
  case_bool_decide as Hdis.
  - inv_last H. left. split; [reflexivity|].
    apply grows_cons; [exact I | apply grows_refl].
  - apply bind_inv in H as (u1 & [st1 tr1] & Hpush & H).
    apply push_int_effect in Hpush as (H0 & Hfr1 & Hg1); [|exact Hin].
    assert (grows (subscript_from node) tr tr1) as Hg1'.
    { eapply grows_trans; [|exact Hg1]. apply grows_cons; [exact I|].
      apply grows_refl. }
    right. split; [exact H0|]. simpl.
    case_bool_decide as Hinside.
    + inv_last H. split; [exact Hfr1 | grow_trace].
    + cbv zeta in H.
      apply bind_inv in H as (p1 & [st2 tr2] & Hl & H).
      apply bind_inv in H as (p2 & [st3 tr3] & Hr & H).
      inv_last H.
      apply IH in Hl; [|apply wrap_range].
      apply IH in Hr; [|apply wrap_range].
      apply (touches_child node) in Hl as [Hfr2 Hg2].
      2:{ intros Hc. rewrite (left_child_int node Hin H0 Hc). lia. }
      apply (touches_child node) in Hr as [Hfr3 Hg3].
      2:{ intros Hc. destruct (right_child_int node Hin H0 Hc) as (_ & -> & _).
          lia. }
      simpl in *. split.
      * eapply (frame_below_trans node node node); [|exact Hfr3|lia|lia].
        eapply (frame_below_trans node node node); [|exact Hfr2|lia|lia].
        exact Hfr1.
      * eapply grows_trans; [|exact Hg3].
        eapply grows_trans; [|exact Hg2]. exact Hg1'.
Qed.

Lemma updateRange_int_effect l r val st tr u st' tr' :
  Int32.updateRange l r val (st, tr) = Ok (u, (st', tr')) ->
  frame_below ROOT_NODE st st' /\ grows (subscript_from ROOT_NODE) tr tr'.
Proof.
  unfold Int32.updateRange. simpl. case_bool_decide as Hg; intros H.
  - inversion H; subst. split; [apply frame_below_refl | apply grows_refl].
  - apply update_recursive_int_effect in H;
      [exact H | split; vm_compute; discriminate | unfold ROOT_NODE; lia].
Qed.

Lemma queryRange_int_effect l r st tr x st' tr' :
  Int32.queryRange l r (st, tr) = Ok (x, (st', tr')) ->
  frame_below ROOT_NODE st st' /\ grows (subscript_from ROOT_NODE) tr tr'.
Proof.
  unfold Int32.queryRange. simpl. case_bool_decide as Hg; intros H.
  - inversion H; subst. split; [apply frame_below_refl | apply grows_refl].
  - apply query_recursive_int_effect in H; [|split; vm_compute; discriminate].
    apply (touches_child ROOT_NODE) in H; [exact H | lia].
Qed.

(** X7 (the layout is fixed at construction and position 0 is never
    used).  On any machine state, a call of [updateRange] or [queryRange]
    that returns has changed neither [n] nor the size of [tree] or [lazy],
    and every subscript it has made, read or write, of either vector, is at
    a position from 1 on; the two values at position 0 are as they were. *)
Theorem X7_public_calls_keep_the_layout_int
    (m m' : machine) (l r val x : Z) :
  Int32.updateRange l r val m = Ok (tt, m') \/
  Int32.queryRange l r m = Ok (x, m') ->
  n m'.1 = n m.1 /\
  length (tree m'.1) = length (tree m.1) /\
  length (lazy m'.1) = length (lazy m.1) /\
  T m'.1 0 = T m.1 0 /\ L m'.1 0 = L m.1 0 /\
  exists new, m'.2 = new ++ m.2 /\ Forall (subscript_from 1) new.
Proof.
  destruct m as [st tr], m' as [st' tr']. simpl.
  assert (frame_below ROOT_NODE st st' /\
          grows (subscript_from ROOT_NODE) tr tr' ->
          n st' = n st /\ length (tree st') = length (tree st) /\
          length (lazy st') = length (lazy st) /\
          T st' 0 = T st 0 /\ L st' 0 = L st 0 /\
          exists new, tr' = new ++ tr /\ Forall (subscript_from 1) new) as Hfin.
  { intros [(H1 & H2 & H3 & H4) Hg].
    destruct (H4 0 ltac:(unfold ROOT_NODE; lia)) as [HT HL].
    repeat (split; [assumption|]). apply grows_app, Hg. }
  intros [H|H]; apply Hfin.
  - apply updateRange_int_effect in H. exact H.
  - apply queryRange_int_effect in H. exact H.
Qed.

Lemma X7_public_calls_keep_the_layout_int_witness :
  exists m',
    Int32.updateRange 0 0 1 pending_leaf_state = Ok (tt, m') /\
    n m'.1 = 2 /\ length (tree m'.1) = 8%nat /\ length (lazy m'.1) = 8%nat /\
    exists new, m'.2 = new ++ pending_leaf_state.2 /\
                Forall (subscript_from 1) new.
Proof.
  destruct (Int32.updateRange 0 0 1 pending_leaf_state) as [[[] m']| |] eqn:Hu;
    try (vm_compute in Hu; discriminate Hu).
  exists m'. split; [reflexivity|].
  destruct (X7_public_calls_keep_the_layout_int pending_leaf_state m' 0 0 1 0
              (or_introl Hu)) as (Hn & Ht & Hl & _ & _ & Hnew).
  rewrite Hn, Ht, Hl. split; [vm_compute; reflexivity|].
  split; [vm_compute; reflexivity|]. split; [vm_compute; reflexivity|].
  exact Hnew.
Defined.

(** ** The cost of the construction *)

(** The subscripts of [tree] in a trace, and the entries of
    [build_recursive] at a leaf. *)
Fixpoint tree_subscripts (tr : list event) : nat :=
  match tr with
  | [] => O
  | Tree _ :: tr => S (tree_subscripts tr)
  | _ :: tr => tree_subscripts tr
  end.

Fixpoint leaf_builds (tr : list event) : nat :=
  match tr with
  | [] => O
  | Call BuildRec _ s e :: tr =>
    ((if bool_decide (s = e) then 1 else 0) + leaf_builds tr)%nat
  | _ :: tr => leaf_builds tr
  end.

Lemma build_recursive_int_effect arr (fuel : nat) :
  forall node s e st tr u st' tr',
  0 <= s -> s <= e -> e < 2147483647 ->
  Int32.build_recursive fuel arr node s e (st, tr) = Ok (u, (st', tr')) ->
  lazy st' = lazy st /\ n st' = n st /\
  Z.of_nat (calls_of BuildRec tr')
  = Z.of_nat (calls_of BuildRec tr) + 2 * (e - s + 1) - 1 /\
  Z.of_nat (leaf_builds tr') = Z.of_nat (leaf_builds tr) + (e - s + 1) /\
  Z.of_nat (tree_subscripts tr')
  = Z.of_nat (tree_subscripts tr) + 4 * (e - s + 1) - 3 /\
  lazy_subscripts tr' = lazy_subscripts tr /\
  Z.of_nat (length tr') = Z.of_nat (length tr) + 6 * (e - s + 1) - 4.
Proof.
  induction fuel as [|fuel IH]; intros node s e st tr u st' tr' Hs Hse He H;
    [discriminate|].
  simpl Int32.build_recursive in H. rewrite bind_log in H.
  case_bool_decide as Heq.
  - inv_run H. inv_last H. simpl.
    rewrite bool_decide_eq_true_2 by reflexivity.
    repeat split; lia.
  - cbv zeta in H. rewrite midpoint_small in H by lia.
    pose proof (midpoint_bounds s e ltac:(lia)) as Hm.
    rewrite (succ_small (midpoint s e)) in H by lia.
    apply bind_inv in H as (u2 & [st2 tr2] & Hl & H).
    apply bind_inv in H as (u3 & [st3 tr3] & Hr & H).
    apply IH in Hl as (Hl1 & Hl2 & Hl3 & Hl4 & Hl5 & Hl6 & Hl7); [|lia..].
    apply IH in Hr as (Hr1 & Hr2 & Hr3 & Hr4 & Hr5 & Hr6 & Hr7); [|lia..].
    inv_run H. inv_last H. simpl in *.
    rewrite bool_decide_eq_false_2 in * by exact Heq.
    split; [congruence|]. split; [congruence|].
    split; [lia|]. split; [lia|]. split; [lia|]. split; [congruence | lia].
Qed.

(** X8 (the construction is linear).  Constructing the tree from a
    non-empty array of size [N] with [4 * N] an [int] enters
    [build_recursive] exactly [2 * N - 1] times, [N] of them at a leaf,
    where [arr] is read once, and performs exactly [4 * N - 3] subscripts of
    [tree] and none of [lazy], which is left as [resize] filled it: [4 * N]
    zeros. *)
Theorem X8_construction_is_linear_int (arr : list Z) :
  arr <> [] -> 4 * Z.of_nat (length arr) <= INT_MAX ->
  exists m,
    Int32.construct arr fresh = Int32.Returns (Ok (tt, m)) /\
    Z.of_nat (calls_of BuildRec m.2) = 2 * Z.of_nat (length arr) - 1 /\
    Z.of_nat (leaf_builds m.2) = Z.of_nat (length arr) /\
    Z.of_nat (tree_subscripts m.2) = 4 * Z.of_nat (length arr) - 3 /\
    lazy_subscripts m.2 = O /\
    Z.of_nat (length m.2)
    = (2 * Z.of_nat (length arr) - 1) + (4 * Z.of_nat (length arr) - 3) /\
    lazy m.1 = replicate (Z.to_nat (4 * Z.of_nat (length arr))) 0.
Proof.
  intros Hne Hcap.
  assert (Z.of_nat (length arr) <> 0) as HN
    by (destruct arr; [congruence | simpl; lia]).
  destruct (construct_Paired arr Hcap) as ([st tr] & mZ & Hc & _).
  exists (st, tr). split; [exact Hc|].
  unfold INT_MAX in Hcap.
  unfold Int32.construct, fresh in Hc. simpl in Hc.
  rewrite (wrap_small (Z.of_nat (length arr))) in Hc
    by (unfold in_int, INT_MIN, INT_MAX; lia).
  rewrite bool_decide_eq_false_2 in Hc by exact HN.
  assert (Int32.mul 4 (Z.of_nat (length arr)) = 4 * Z.of_nat (length arr))
    as E by (apply wrap_small; unfold in_int, INT_MIN, INT_MAX; lia).
  rewrite E in Hc. rewrite bool_decide_eq_false_2 in Hc by lia.
  rewrite pred_small in Hc by lia. rewrite !resize_nil in Hc.
  injection Hc as Hc.
  apply build_recursive_int_effect in Hc
    as (Hl & _ & Hcalls & Hleaf & Htree & Hlazy & Hlen); [|lia..].
  simpl in *.
  split; [lia|]. split; [lia|]. split; [lia|]. split; [exact Hlazy|].
  split; [lia | exact Hl].
Qed.

Lemma X8_construction_is_linear_int_witness :
  [1; 2; 3; 4; 5] <> [] /\ 4 * Z.of_nat (length [1; 2; 3; 4; 5]) <= INT_MAX /\
  exists m,
    Int32.construct [1; 2; 3; 4; 5] fresh = Int32.Returns (Ok (tt, m)) /\
    Z.of_nat (calls_of BuildRec m.2) = 9 /\
    Z.of_nat (leaf_builds m.2) = 5 /\
    Z.of_nat (tree_subscripts m.2) = 17.
Proof.
  assert ([1; 2; 3; 4; 5] <> []) as Hne by discriminate.
  assert (4 * Z.of_nat (length [1; 2; 3; 4; 5]) <= INT_MAX) as Hcap
    by (vm_compute; discriminate).
  split; [exact Hne|]. split; [exact Hcap|].
  destruct (X8_construction_is_linear_int [1; 2; 3; 4; 5] Hne Hcap)
    as (m & Hc & Hcalls & Hleaf & Htree & _).
  exists m. split; [exact Hc|]. split; [exact Hcalls|].
  split; [exact Hleaf | exact Htree].
Defined.
